(** * nuwault-core: the keyword-to-password derivation pipeline

    A shallow embedding of [src/crypto/hash-generator.ts] (the digest
    deriver), of the password generator (the digest-to-password mapper), of
    the counting functions of [analysis/password-analyzer.ts] and of the
    parts of [config.ts] and [input-validator.ts] they read, followed by the
    properties the specification states about them and by further
    properties of the code.

    Conventions.
    - A JavaScript string is the list of its UTF-16 code units ([list N]).
    - A JavaScript number that the code only uses as an integer is a [Z];
      the distribution weights are binary64 floats ([PrimFloat]).
    - [undefined] is [None].
    - The platform hash ([crypto.subtle.digest]) and the [TextEncoder] are
      section variables: the code treats them as black boxes. *)

From Stdlib Require Import ZArith NArith Lia Strings.String Strings.Ascii Strings.Byte.
From Stdlib Require Import Floats.PrimFloat Floats.FloatOps Floats.SpecFloat.
From Stdlib Require Import Numbers.Cyclic.Int63.Uint63.
From stdpp Require Import base tactics option list numbers gmap sets pretty.

Open Scope Z_scope.

(** ** JavaScript strings *)

Abbreviation jsstring := (list N).

(** A string literal of the source, as code units. *)
Definition lit (s : string) : jsstring :=
  (fun a => N_of_ascii a) <$> list_ascii_of_string s.

(** [Array.prototype.join] on an array of strings. *)
Fixpoint join (sep : jsstring) (parts : list jsstring) : jsstring :=
  match parts with
  | [] => []
  | [p] => p
  | p :: rest => p ++ sep ++ join sep rest
  end.

(** WhiteSpace and LineTerminator code points of ECMAScript, the characters
    [String.prototype.trim] strips and [parseInt] skips. *)
Definition isWhiteSpace (c : N) : bool :=
  ((9 <=? c) && (c <=? 13) || (c =? 32) || (c =? 160) || (c =? 5760)
   || (8192 <=? c) && (c <=? 8202) || (c =? 8232) || (c =? 8233)
   || (c =? 8239) || (c =? 8287) || (c =? 12288) || (c =? 65279))%N.

Fixpoint trimStart (s : jsstring) : jsstring :=
  match s with
  | c :: r => if isWhiteSpace c then trimStart r else s
  | [] => []
  end.

Definition trim (s : jsstring) : jsstring :=
  reverse (trimStart (reverse (trimStart s))).

(** [String.prototype.toLowerCase] on the Basic Latin and Latin-1
    Supplement blocks: A-Z, and the accented capitals U+00C0-U+00DE except
    the multiplication sign U+00D7, move down by 32. Code units outside these
    two blocks are left as they are; the Unicode case tables beyond Latin-1
    are not reproduced. No code unit is ever removed. *)
Definition lowerUnit (c : N) : N :=
  (if (65 <=? c) && (c <=? 90) then c + 32
   else if (192 <=? c) && (c <=? 222) && negb (c =? 215) then c + 32
   else c)%N.

Definition toLowerCase (s : jsstring) : jsstring := lowerUnit <$> s.

(** Decimal rendering of a loop counter, as the template literal
    [`iter-${i}`] does. *)
Definition decimal (i : Z) : jsstring := lit (pretty i).

(** [Number.prototype.toString(16)] for a non-negative integer. *)
Definition hexDigit (d : N) : N := (if d <? 10 then 48 + d else 87 + d)%N.

Fixpoint toString16_digits (fuel : nat) (n : N) (acc : jsstring) : jsstring :=
  match fuel with
  | O => acc
  | S fuel' =>
      let acc' := hexDigit (n mod 16) :: acc in
      if (n / 16 =? 0)%N then acc' else toString16_digits fuel' (n / 16) acc'
  end.

Definition toString16 (n : N) : jsstring :=
  toString16_digits (S (N.to_nat (N.log2 n))) n [].

(** [String.prototype.padStart(2, '0')]. *)
Definition padStart2 (s : jsstring) : jsstring :=
  match s with
  | [] => [48%N; 48%N]
  | [c] => [48%N; c]
  | _ => s
  end.

(** [hashArray.map(b => b.toString(16).padStart(2, '0')).join('')]. *)
Definition hexEncode (bytes : list byte) : jsstring :=
  mjoin ((fun b => padStart2 (toString16 (Byte.to_N b))) <$> bytes).

(** ** Results of functions that may throw *)

Inductive result (A : Type) : Type :=
  | Ok (value : A)
  | Throw (message : string).
Arguments Ok {A} value.
Arguments Throw {A} message.

Definition isThrow {A : Type} (r : result A) : bool :=
  match r with Throw _ => true | Ok _ => false end.

(** ** config.ts *)

Module SecurityConfig.
Record t : Type := Build {
  minPasswordLength : Z;
  maxPasswordLength : Z;
  defaultPasswordLength : Z;
  hashIterations : Z;
  masterSalt : option jsstring
}.
End SecurityConfig.

Definition SECURITY_CONFIG : SecurityConfig.t :=
  {| SecurityConfig.minPasswordLength := 8;
     SecurityConfig.maxPasswordLength := 128;
     SecurityConfig.defaultPasswordLength := 16;
     SecurityConfig.hashIterations := 1000;
     SecurityConfig.masterSalt := None |}.

(** ** crypto/hash-generator.ts *)

Module HashOptions.
(** [masterSalt] absent or [null] is [None]; [iterations] absent is
    [None]. *)
Record t : Type := Build {
  keywords : list jsstring;
  masterSalt : option jsstring;
  iterations : option Z
}.
End HashOptions.

Module HashResult.
Record t : Type := Build {
  hash : jsstring;
  iterations : Z;
  timestamp : Z
}.
End HashResult.

(** [if (effectiveMasterSalt)]: a salt counts when it is a non-empty
    string. *)
Definition truthySalt (salt : option jsstring) : list jsstring :=
  match salt with
  | Some (c :: s) => [c :: s]
  | _ => []
  end.

(** [HashGenerator.validateInputs]: only the empty array throws; the
    keywords that are blank after trimming are dropped. *)
Definition validateInputs (inputs : list jsstring) : result (list jsstring) :=
  match inputs with
  | [] => Throw "Inputs must be a non-empty array"
  | _ => Ok (filter (fun input => (0 < length (trim input))%nat) inputs)
  end.

(** [HashGenerator.normalizeInput]. *)
Definition normalizeInput (input : jsstring) : jsstring :=
  toLowerCase (trim input).

Section HashGenerator.

(** [new TextEncoder().encode] and
    [crypto.subtle.digest(SECURITY_CONFIG.hashAlgorithm, _)]. *)
Variable encode : jsstring -> list byte.
Variable digest : list byte -> list byte.

(** The body of the [for] loop of [generateHash] at counter [i]. *)
Definition hashIteration (effectiveMasterSalt : option jsstring)
    (normalizedInputs : jsstring) (i : Z) (currentHash : jsstring) : jsstring :=
  let saltComponents :=
    truthySalt effectiveMasterSalt
      ++ [lit "iter-" ++ decimal i; normalizedInputs; currentHash] in
  let iterationSalt := join (lit "|") saltComponents in
  hexEncode (digest (encode iterationSalt)).

(** [for (let i = 0; i < iterations; i++)]: [remaining] counts the
    iterations still to run, [i] is the loop counter. The one-millisecond
    wait after the first iteration changes no variable of the loop. *)
Fixpoint hashLoop (remaining : nat) (effectiveMasterSalt : option jsstring)
    (normalizedInputs : jsstring) (i : Z) (currentHash : jsstring) : jsstring :=
  match remaining with
  | O => currentHash
  | S remaining' =>
      hashLoop remaining' effectiveMasterSalt normalizedInputs (i + 1)
        (hashIteration effectiveMasterSalt normalizedInputs i currentHash)
  end.

(** [HashGenerator.generateHash]; [now] is what [Date.now()] returns when
    the result object is built. *)
Definition generateHash (now : Z) (options : HashOptions.t) : result HashResult.t :=
  let keywords := HashOptions.keywords options in
  let masterSalt := HashOptions.masterSalt options in
  let iterations :=
    default (SecurityConfig.hashIterations SECURITY_CONFIG)
            (HashOptions.iterations options) in
  match validateInputs keywords with
  | Throw e => Throw e
  | Ok validatedInputs =>
      let normalizedInputs := join (lit "|") (normalizeInput <$> validatedInputs) in
      let effectiveMasterSalt :=
        match masterSalt with
        | Some s => Some s
        | None => SecurityConfig.masterSalt SECURITY_CONFIG
        end in
      let currentHash :=
        hashLoop (Z.to_nat iterations) effectiveMasterSalt normalizedInputs 0
                 normalizedInputs in
      Ok {| HashResult.hash := currentHash;
            HashResult.iterations := iterations;
            HashResult.timestamp := now |}
  end.

End HashGenerator.

(** ** config.ts: character pools and distribution profiles *)

Module CHARACTER_SETS.
Definition UPPERCASE : jsstring := lit "ABCDEFGHIJKLMNOPQRSTUVWXYZ".
Definition LOWERCASE : jsstring := lit "abcdefghijklmnopqrstuvwxyz".
Definition NUMBERS : jsstring := lit "0123456789".
Definition SYMBOLS : jsstring := lit "!@#$%^&*()_+-=[]{}|;:,.<>?".
End CHARACTER_SETS.

Inductive CharType : Type := uppercase | lowercase | numbers | symbols.

Global Instance CharType_eq_dec : EqDecision CharType.
Proof. solve_decision. Defined.

Module CharacterSet.
Record t : Type := Build { chars : jsstring; type : CharType }.
End CharacterSet.

Module TargetDistribution.
Record t : Type := Build {
  uppercase : Z;
  lowercase : Z;
  numbers : Z;
  symbols : Z
}.
End TargetDistribution.

Module Weights.
Record t : Type := Build {
  uppercase : float;
  lowercase : float;
  numbers : float;
  symbols : float
}.
End Weights.

Module PASSWORD_DISTRIBUTION_CONFIG.
(** The literals 0.20, 0.35 and 0.25 as the binary64 values JavaScript
    reads them as. *)
Definition w020 : float := 0x1.999999999999ap-3%float.
Definition w035 : float := 0x1.6666666666666p-2%float.
Definition w025 : float := 0x1p-2%float.

Definition long_threshold : Z := 64.
Definition long_distribution : Weights.t :=
  {| Weights.uppercase := w020; Weights.lowercase := w035;
     Weights.numbers := w020; Weights.symbols := w025 |}.
Definition medium_threshold : Z := 32.
Definition medium_distribution : Weights.t :=
  {| Weights.uppercase := w025; Weights.lowercase := w035;
     Weights.numbers := w020; Weights.symbols := w020 |}.
End PASSWORD_DISTRIBUTION_CONFIG.

Module PasswordOptions.
Record t : Type := Build {
  includeUppercase : bool;
  includeLowercase : bool;
  includeNumbers : bool;
  includeSymbols : bool
}.
End PasswordOptions.

Definition DEFAULT_PASSWORD_OPTIONS : PasswordOptions.t :=
  {| PasswordOptions.includeUppercase := true;
     PasswordOptions.includeLowercase := true;
     PasswordOptions.includeNumbers := true;
     PasswordOptions.includeSymbols := true |}.

(** ** JavaScript numbers *)

(** An integer count as a binary64 number; exact for 0 <= z < 2^53, the
    only values the code converts. *)
Definition Z_to_float (z : Z) : float := PrimFloat.of_uint63 (Uint63.of_Z z).

(** [Math.floor] of a finite binary64 number, as an integer. The numbers the
    code floors are finite; infinities and NaN are mapped to 0 here. *)
Definition floatFloor (f : float) : Z :=
  match Prim2SF f with
  | S754_finite sign m e =>
      let num := if sign then Z.neg m else Z.pos m in
      match e with
      | Z.neg p => num / 2 ^ Z.pos p
      | _ => num * 2 ^ e
      end
  | _ => 0
  end.

(** [Math.floor(length * weight)]. *)
Definition floorMul (length : Z) (weight : float) : Z :=
  floatFloor (PrimFloat.mul (Z_to_float length) weight).

(** [Math.round] of a non-negative finite binary64 number (half-way cases
    go up); other arguments are returned as they are. *)
Definition mathRound (f : float) : float :=
  match Prim2SF f with
  | S754_finite false m e =>
      Z_to_float
        match e with
        | Z.neg p => (2 * Z.pos m + 2 ^ Z.pos p) / (2 * 2 ^ Z.pos p)
        | _ => Z.pos m * 2 ^ e
        end
  | _ => f
  end.

(** The remainder operator [%] on integers: the sign follows the dividend. *)
Definition jsRem (a b : Z) : Z := Z.rem a b.

(** [parseInt(text, 16)]: leading white space, an optional sign and an
    optional [0x] prefix are skipped, then the longest run of hexadecimal
    digits is read; [None] is NaN. *)
Definition hexValue (c : N) : option Z :=
  if ((48 <=? c) && (c <=? 57))%N then Some (Z.of_N c - 48)
  else if ((97 <=? c) && (c <=? 102))%N then Some (Z.of_N c - 87)
  else if ((65 <=? c) && (c <=? 70))%N then Some (Z.of_N c - 55)
  else None.

Fixpoint hexRun (s : jsstring) (acc : option Z) : option Z :=
  match s with
  | c :: r =>
      match hexValue c with
      | Some d => hexRun r (Some (16 * default 0 acc + d))
      | None => acc
      end
  | [] => acc
  end.

Definition parseInt16 (text : jsstring) : option Z :=
  let s := trimStart text in
  let '(sign, s) :=
    match s with
    | 45%N :: r => (-1, r)
    | 43%N :: r => (1, r)
    | _ => (1, s)
    end in
  let s :=
    match s with
    | 48%N :: 120%N :: r => r
    | 48%N :: 88%N :: r => r
    | _ => s
    end in
  (fun v => sign * v) <$> hexRun s None.

(** [value || 1] on a number: NaN and zero give 1. *)
Definition orOne (v : option Z) : Z :=
  match v with
  | Some 0 | None => 1
  | Some n => n
  end.

(** ** The password generator: the deterministic generator *)

(** [array[index]] for an integer index: [None], that is [undefined],
    outside the array. *)
Definition arrayGet {A : Type} (array : list A) (index : Z) : option A :=
  if index <? 0 then None else array !! Z.to_nat index.

(** [String(value)] for a character or [undefined]. *)
Definition textOf (value : option N) : jsstring :=
  match value with
  | Some c => [c]
  | None => lit "undefined"
  end.

(** [a + b + c] for three values that are characters or [undefined]:
    string concatenation as soon as one operand is a string, and NaN for
    [undefined + undefined]. *)
Definition addThree (a b c : option N) : jsstring :=
  match a, b with
  | None, None => lit "NaN" ++ match c with Some c => [c] | None => [] end
  | _, _ => textOf a ++ textOf b ++ textOf c
  end.

(** [getHashValue], the closure that [hashToPassword] builds over [hash] and
    its cursor [hashOffset]: the value drawn and the cursor after the draw.
    On the empty hash every index is NaN, every read is [undefined] and the
    draw is 1; the cursor, NaN from then on in JavaScript, is never looked
    at again and is left as it is here. *)
Definition getHashValue (hash : jsstring) (seed : Z) (hashOffset : Z) : Z * Z :=
  let hashLength := Z.of_nat (length hash) in
  if hashLength =? 0 then (1, hashOffset)
  else
    let index1 := jsRem (hashOffset + seed) hashLength in
    let index2 := jsRem (hashOffset + seed + 1) hashLength in
    let index3 := jsRem (hashOffset + seed + 2) hashLength in
    let hashOffset' := jsRem (hashOffset + 3) hashLength in
    (orOne (parseInt16 (addThree (arrayGet hash index1) (arrayGet hash index2)
                                 (arrayGet hash index3))),
     hashOffset').

(** ** The password generator: distribution and repetition budget *)

Definition calculateMaxRepetitions (length : Z) : Z :=
  if length <=? 8 then 2
  else if length <=? 16 then Z.max 2 (length / 6)
  else if length <=? 32 then Z.max 2 (length / 8)
  else Z.max 3 (length / 10).

Definition typeCount (d : TargetDistribution.t) (type : CharType) : Z :=
  match type with
  | uppercase => TargetDistribution.uppercase d
  | lowercase => TargetDistribution.lowercase d
  | numbers => TargetDistribution.numbers d
  | symbols => TargetDistribution.symbols d
  end.

Definition setTypeCount (d : TargetDistribution.t) (type : CharType) (n : Z)
  : TargetDistribution.t :=
  match type with
  | uppercase => TargetDistribution.Build n (TargetDistribution.lowercase d)
                   (TargetDistribution.numbers d) (TargetDistribution.symbols d)
  | lowercase => TargetDistribution.Build (TargetDistribution.uppercase d) n
                   (TargetDistribution.numbers d) (TargetDistribution.symbols d)
  | numbers => TargetDistribution.Build (TargetDistribution.uppercase d)
                   (TargetDistribution.lowercase d) n (TargetDistribution.symbols d)
  | symbols => TargetDistribution.Build (TargetDistribution.uppercase d)
                   (TargetDistribution.lowercase d) (TargetDistribution.numbers d) n
  end.

(** [Object.keys(targetDistribution)]: the keys in insertion order. *)
Definition distributionKeys : list CharType :=
  [uppercase; lowercase; numbers; symbols].

Definition weighted (length : Z) (config : Weights.t) : TargetDistribution.t :=
  {| TargetDistribution.uppercase := floorMul length (Weights.uppercase config);
     TargetDistribution.lowercase := floorMul length (Weights.lowercase config);
     TargetDistribution.numbers := floorMul length (Weights.numbers config);
     TargetDistribution.symbols := floorMul length (Weights.symbols config) |}.

(** The counts before the remainder is handed out. *)
Definition baseDistribution (activeSets : list CharacterSet.t) (length : Z)
  : TargetDistribution.t :=
  if decide (List.length activeSets = 4%nat) then
    if PASSWORD_DISTRIBUTION_CONFIG.long_threshold <=? length then
      weighted length PASSWORD_DISTRIBUTION_CONFIG.long_distribution
    else if PASSWORD_DISTRIBUTION_CONFIG.medium_threshold <=? length then
      weighted length PASSWORD_DISTRIBUTION_CONFIG.medium_distribution
    else
      let equalShare := length / 4 in
      TargetDistribution.Build equalShare equalShare equalShare equalShare
  else
    let equalShare := length / Z.of_nat (List.length activeSets) in
    foldl (fun d set => setTypeCount d (CharacterSet.type set) equalShare)
          (TargetDistribution.Build 0 0 0 0) activeSets.

(** [Object.keys(d).reduce((a, b) => d[a] > d[b] ? a : b)]. *)
Definition largestType (d : TargetDistribution.t) : CharType :=
  foldl (fun a b => if typeCount d b <? typeCount d a then a else b)
        uppercase [lowercase; numbers; symbols].

Definition calculateTargetDistribution (activeSets : list CharacterSet.t) (length : Z)
  : TargetDistribution.t :=
  let targetDistribution := baseDistribution activeSets length in
  let totalAllocated :=
    foldl Z.add 0 (typeCount targetDistribution <$> distributionKeys) in
  let remainder := length - totalAllocated in
  if 0 <? remainder then
    let largest := largestType targetDistribution in
    setTypeCount targetDistribution largest
                 (typeCount targetDistribution largest + remainder)
  else targetDistribution.

(** ** The password generator: placement, fill and shuffle *)

(** [characterUsage.get(char) || 0]. *)
Definition usageOf (characterUsage : gmap N Z) (char : N) : Z :=
  default 0 (characterUsage !! char).

(** [characterUsage.set(selectedChar, (characterUsage.get(selectedChar) || 0) + 1)].
    A selection that came out [undefined] is counted under the key
    [undefined], which no later lookup reads; the map of real characters is
    unchanged. *)
Definition recordUse (characterUsage : gmap N Z) (selectedChar : option N) : gmap N Z :=
  match selectedChar with
  | Some char => <[char := usageOf characterUsage char + 1]> characterUsage
  | None => characterUsage
  end.

(** [Math.min(...counts)]; [None] is the [Infinity] of the empty list. *)
Definition mathMin (counts : list Z) : option Z :=
  match counts with
  | [] => None
  | c :: rest => Some (foldl Z.min c rest)
  end.

(** [Math.max(...counts)]; [None] is the [-Infinity] of the empty list. *)
Definition mathMax (counts : list Z) : option Z :=
  match counts with
  | [] => None
  | c :: rest => Some (foldl Z.max c rest)
  end.

(** [set.type.charCodeAt(0)]. *)
Definition typeCode (type : CharType) : Z :=
  match type with
  | uppercase => 117
  | lowercase => 108
  | numbers => 110
  | symbols => 115
  end.

(** The password array: a JavaScript array with holes, that is, a finite map
    from integer keys to one-character strings. [password[k] = v] with [v]
    undefined leaves the key reading [undefined]. *)
Definition arraySet (password : gmap Z N) (k : Z) (v : option N) : gmap Z N :=
  partial_alter (fun _ => v) k password.

(** [password.join('')] for an array created with [new Array(length)]: holes
    and [undefined] contribute nothing. *)
Definition arrayJoin (password : gmap Z N) (length : Z) : jsstring :=
  omap (fun i => password !! i) (seqZ 0 length).

Section Mapper.

(** The helpers receive the generator as an argument,
    [getHashValue: (seed?: number) => number]. Its hidden state has type
    [G]; [draw seed g] is the value returned and the state left behind. *)
Context {G : Type}.
Variable draw : Z -> G -> Z * G.

Record MapperState : Type := MkState {
  password : gmap Z N;
  usedPositions : gset Z;
  characterUsage : gmap N Z;
  generator : G
}.

Definition selectCharacterWithRepetitionControl (availableChars : list N)
    (characterUsage : gmap N Z) (maxRepetitions : Z) (seed : Z) (g : G)
  : option N * G :=
  let availableUnderLimit :=
    filter (fun char => usageOf characterUsage char < maxRepetitions) availableChars in
  if decide (0 < length availableUnderLimit)%nat then
    let '(hashVal, g) := draw seed g in
    let charIndex := jsRem hashVal (Z.of_nat (length availableUnderLimit)) in
    (arrayGet availableUnderLimit charIndex, g)
  else
    let leastUsedCount := mathMin (usageOf characterUsage <$> availableChars) in
    let leastUsedChars :=
      filter (fun char => Some (usageOf characterUsage char) = leastUsedCount)
             availableChars in
    let '(hashVal, g) := draw (seed + 1000) g in
    let charIndex := jsRem hashVal (Z.of_nat (length leastUsedChars)) in
    (arrayGet leastUsedChars charIndex, g).

(** The [do ... while] probe for a free position: the body runs, then the
    test decides whether it runs again. The test fails once [attempts]
    reaches [length * 2], so [Z.to_nat (length * 2)] repetitions are
    enough. Returns the last position tried, the attempts made and the
    generator. *)
Fixpoint probePosition (fuel : nat) (code i length : Z) (used : gset Z)
    (attempts : Z) (g : G) : Z * Z * G :=
  let '(hashVal, g) := draw (code * 1000 + i * 100 + attempts) g in
  let position := jsRem hashVal length in
  let attempts := attempts + 1 in
  match fuel with
  | S fuel' =>
      if bool_decide (position ∈ used) && (attempts <? length * 2)
      then probePosition fuel' code i length used attempts g
      else (position, attempts, g)
  | O => (position, attempts, g)
  end.

(** The linear scan for the first free position. *)
Definition firstFree (length : Z) (used : gset Z) : option Z :=
  List.find (fun j => bool_decide (j ∉ used)) (seqZ 0 length).

(** One turn of the inner loop of [fillPasswordWithDistribution]: slot [i]
    of the class [set]. *)
Definition placeSlot (set : CharacterSet.t) (length maxRepetitions : Z)
    (st : MapperState) (i : Z) : MapperState :=
  let code := typeCode (CharacterSet.type set) in
  let '(position, attempts, g) :=
    probePosition (Z.to_nat (length * 2)) code i length (usedPositions st) 0
                  (generator st) in
  let position :=
    if length * 2 <=? attempts
    then default position (firstFree length (usedPositions st))
    else position in
  if bool_decide (position ∈ usedPositions st) then
    MkState (password st) (usedPositions st) (characterUsage st) g
  else
    let '(selectedChar, g) :=
      selectCharacterWithRepetitionControl (CharacterSet.chars set)
        (characterUsage st) maxRepetitions (code * 2000 + i * 300) g in
    MkState (arraySet (password st) position selectedChar)
            ({[position]} ∪ usedPositions st)
            (recordUse (characterUsage st) selectedChar)
            g.

Definition placeSet (targetDistribution : TargetDistribution.t)
    (length maxRepetitions : Z) (st : MapperState) (set : CharacterSet.t)
  : MapperState :=
  let targetCount := typeCount targetDistribution (CharacterSet.type set) in
  foldl (placeSlot set length maxRepetitions) st (seqZ 0 targetCount).

(** [fillPasswordWithDistribution], started on the empty array. *)
Definition fillPasswordWithDistribution (activeSets : list CharacterSet.t)
    (targetDistribution : TargetDistribution.t) (length maxRepetitions : Z)
    (st : MapperState) : MapperState :=
  foldl (placeSet targetDistribution length maxRepetitions) st activeSets.

Definition setWeight (length : Z) (set : CharacterSet.t) : Z :=
  match CharacterSet.type set with
  | symbols => if 32 <=? length then 3 else 1
  | numbers => if 32 <=? length then 2 else 1
  | _ => 1
  end.

(** The loop that walks the weights down: [None] when it ends without
    [break]. *)
Fixpoint pickSet (sets : list CharacterSet.t) (setWeights : list Z)
    (selectedWeight : Z) : option CharacterSet.t :=
  match sets, setWeights with
  | set :: sets', w :: setWeights' =>
      let selectedWeight := selectedWeight - w in
      if selectedWeight <=? 0 then Some set
      else pickSet sets' setWeights' selectedWeight
  | _, _ => None
  end.

(** The class chosen for an empty position; [None] only for an empty
    [activeSets], which [hashToPassword] never passes. *)
Definition selectSet (activeSets : list CharacterSet.t) (length hashVal : Z)
  : option CharacterSet.t :=
  let setWeights := setWeight length <$> activeSets in
  let totalWeight := foldl Z.add 0 setWeights in
  let selectedWeight := jsRem hashVal totalWeight in
  match activeSets with
  | [] => None
  | first :: _ => Some (default first (pickSet activeSets setWeights selectedWeight))
  end.

(** One turn of the loop of [fillRemainingPositions]. The positions are
    tested against the set that the placement pass returned. *)
Definition fillPosition (activeSets : list CharacterSet.t) (length maxRepetitions : Z)
    (st : MapperState) (i : Z) : MapperState :=
  if bool_decide (i ∈ usedPositions st) then st
  else
    let '(hashVal, g) := draw (i * 500) (generator st) in
    match selectSet activeSets length hashVal with
    | None => MkState (password st) (usedPositions st) (characterUsage st) g
    | Some selectedSet =>
        let '(selectedChar, g) :=
          selectCharacterWithRepetitionControl (CharacterSet.chars selectedSet)
            (characterUsage st) maxRepetitions (i * 600) g in
        MkState (arraySet (password st) i selectedChar)
                (usedPositions st)
                (recordUse (characterUsage st) selectedChar)
                g
    end.

Definition fillRemainingPositions (activeSets : list CharacterSet.t)
    (length maxRepetitions : Z) (st : MapperState) : MapperState :=
  foldl (fillPosition activeSets length maxRepetitions) st (seqZ 0 length).

(** One swap of [shufflePassword]. *)
Definition shuffleStep (st : MapperState) (i : Z) : MapperState :=
  let '(hashVal, g) := draw (i * 400) (generator st) in
  let j := jsRem hashVal (i + 1) in
  let temp := password st !! i in
  let password1 := arraySet (password st) i (password st !! j) in
  let password2 := arraySet password1 j temp in
  MkState password2 (usedPositions st) (characterUsage st) g.

(** [for (let i = length - 1; i > 0; i--)]. *)
Definition shufflePassword (length : Z) (st : MapperState) : MapperState :=
  foldl shuffleStep st (reverse (seqZ 1 (length - 1))).

End Mapper.

(** ** The password generator: [hashToPassword] and the metrics *)

Definition allSets : list CharacterSet.t :=
  [ CharacterSet.Build CHARACTER_SETS.UPPERCASE uppercase;
    CharacterSet.Build CHARACTER_SETS.LOWERCASE lowercase;
    CharacterSet.Build CHARACTER_SETS.NUMBERS numbers;
    CharacterSet.Build CHARACTER_SETS.SYMBOLS symbols ].

(** The [activeSets] array that [hashToPassword] builds from the options,
    with the fall-back to all four classes. *)
Definition activeSetsOf (options : PasswordOptions.t) : list CharacterSet.t :=
  let activeSets :=
    (if PasswordOptions.includeUppercase options
     then [CharacterSet.Build CHARACTER_SETS.UPPERCASE uppercase] else [])
    ++ (if PasswordOptions.includeLowercase options
        then [CharacterSet.Build CHARACTER_SETS.LOWERCASE lowercase] else [])
    ++ (if PasswordOptions.includeNumbers options
        then [CharacterSet.Build CHARACTER_SETS.NUMBERS numbers] else [])
    ++ (if PasswordOptions.includeSymbols options
        then [CharacterSet.Build CHARACTER_SETS.SYMBOLS symbols] else []) in
  match activeSets with
  | [] => allSets
  | _ => activeSets
  end.

(** The state [hashToPassword] starts from: an array of holes, no used
    position, no character used, the cursor at 0. *)
Definition initialState : MapperState (G := Z) := MkState ∅ ∅ ∅ 0.

(** The state when [fillPasswordWithDistribution] returns. *)
Definition afterPlacement (hash : jsstring) (length : Z) (options : PasswordOptions.t)
  : MapperState (G := Z) :=
  let activeSets := activeSetsOf options in
  fillPasswordWithDistribution (getHashValue hash) activeSets
    (calculateTargetDistribution activeSets length) length
    (calculateMaxRepetitions length) initialState.

(** The state when [fillRemainingPositions] returns. *)
Definition afterFill (hash : jsstring) (length : Z) (options : PasswordOptions.t)
  : MapperState (G := Z) :=
  fillRemainingPositions (getHashValue hash) (activeSetsOf options) length
    (calculateMaxRepetitions length) (afterPlacement hash length options).

(** The state when [shufflePassword] returns. *)
Definition afterShuffle (hash : jsstring) (length : Z) (options : PasswordOptions.t)
  : MapperState (G := Z) :=
  shufflePassword (getHashValue hash) length (afterFill hash length options).

(** [PasswordGenerator.hashToPassword]. [new Array(length)] throws a
    RangeError unless the length is an array length, from 0 to 2^32 - 1. *)
Definition hashToPassword (hash : jsstring) (length : Z) (options : PasswordOptions.t)
  : result jsstring :=
  if (length <? 0) || (4294967295 <? length) then Throw "Invalid array length"
  else Ok (arrayJoin (password (afterShuffle hash length options)) length).

(** [for (const char of password)]: the string iterator yields code points.
    A high surrogate followed by a low surrogate comes out as one string of
    two code units, every other code unit as a string of one. *)
Definition isHighSurrogate (c : N) : bool := ((55296 <=? c) && (c <=? 56319))%N.
Definition isLowSurrogate (c : N) : bool := ((56320 <=? c) && (c <=? 57343))%N.

Fixpoint codePoints (s : jsstring) : list jsstring :=
  match s with
  | [] => []
  | c :: rest =>
      match rest with
      | d :: rest' =>
          if isHighSurrogate c && isLowSurrogate d then [c; d] :: codePoints rest'
          else [c] :: codePoints rest
      | [] => [[c]]
      end
  end.

(** A [Map<string, number>] as the list of its entries in insertion order:
    [get] finds the entry of a key, [set] overwrites it in place or appends
    a new entry. *)
Definition mapGet (m : list (jsstring * Z)) (key : jsstring) : option Z :=
  snd <$> List.find (fun entry => bool_decide (entry.1 = key)) m.

Fixpoint mapSet (m : list (jsstring * Z)) (key : jsstring) (value : Z)
  : list (jsstring * Z) :=
  match m with
  | [] => [(key, value)]
  | (k, v) :: rest =>
      if bool_decide (k = key) then (k, value) :: rest
      else (k, v) :: mapSet rest key value
  end.

(** The [charCount] map that [calculateCharacterDiversity] and, with the
    same loop, the analyzer build:
    [charCount.set(char, (charCount.get(char) || 0) + 1)] for every code
    point of the password. *)
Definition countCodePoints (password : jsstring) : list (jsstring * Z) :=
  foldl (fun charCount char =>
           mapSet charCount char (default 0 (mapGet charCount char) + 1))
        [] (codePoints password).

(** [/[lo-hi]/.test(char)]: some code unit of [char] lies in the range. *)
Definition testRange (lo hi : N) (char : jsstring) : bool :=
  existsb (fun c => (lo <=? c) && (c <=? hi))%N char.

(** The class that [calculateActualDistribution] and the analyzer's
    [countCharacterTypes] count a code point under: the first of
    [/[A-Z]/], [/[a-z]/] and [/[0-9]/] that matches, symbols when none
    does. *)
Definition typeOfCodePoint (char : jsstring) : CharType :=
  if testRange 65 90 char then uppercase
  else if testRange 97 122 char then lowercase
  else if testRange 48 57 char then numbers
  else symbols.

Module CharacterDiversity.
(** [maxRepetitions] is [None] for [-Infinity], the maximum over no
    character at all. *)
Record t : Type := Build {
  totalUniqueCharacters : Z;
  maxRepetitions : option Z;
  averageRepetitions : float;
  diversityRatio : float
}.
End CharacterDiversity.

(** [PasswordGenerator.calculateCharacterDiversity]; [charCount.values()]
    lists the counts in the order in which the code points first occur. *)
Definition calculateCharacterDiversity (password : jsstring) : CharacterDiversity.t :=
  let charCount := countCodePoints password in
  let repetitionCounts := charCount.*2 in
  let totalUniqueCharacters := Z.of_nat (length charCount) in
  let averageRepetitions :=
    PrimFloat.div (Z_to_float (foldl Z.add 0 repetitionCounts))
                  (Z_to_float (Z.of_nat (length repetitionCounts))) in
  let diversityRatio :=
    PrimFloat.div (Z_to_float totalUniqueCharacters)
                  (Z_to_float (Z.of_nat (length password))) in
  {| CharacterDiversity.totalUniqueCharacters := totalUniqueCharacters;
     CharacterDiversity.maxRepetitions := mathMax repetitionCounts;
     CharacterDiversity.averageRepetitions :=
       PrimFloat.div (mathRound (PrimFloat.mul averageRepetitions 100)) 100;
     CharacterDiversity.diversityRatio :=
       PrimFloat.div (mathRound (PrimFloat.mul diversityRatio 1000)) 1000 |}.

(** [PasswordGenerator.calculateActualDistribution]: one count for each code
    point of the password. *)
Definition calculateActualDistribution (password : jsstring) : TargetDistribution.t :=
  foldl (fun d char =>
           let type := typeOfCodePoint char in
           setTypeCount d type (typeCount d type + 1))
        (TargetDistribution.Build 0 0 0 0) (codePoints password).

(** ** utils/input-validator.ts *)

(** A [ValidationResult]: [Ok tt] for [{ isValid: true }], [Throw error] for
    [{ isValid: false, error }]. The arguments have their TypeScript types,
    so the [typeof] tests pass. *)
Definition validatePasswordLength (length : Z) : result unit :=
  if length <? SecurityConfig.minPasswordLength SECURITY_CONFIG then
    Throw "Password length must be at least 8 characters"
  else if SecurityConfig.maxPasswordLength SECURITY_CONFIG <? length then
    Throw "Password length cannot exceed 128 characters"
  else Ok tt.

Definition validatePasswordOptions (options : PasswordOptions.t) : result unit :=
  if PasswordOptions.includeUppercase options
     || PasswordOptions.includeLowercase options
     || PasswordOptions.includeNumbers options
     || PasswordOptions.includeSymbols options
  then Ok tt
  else Throw "At least one character type must be enabled".

Definition validateKeywords (keywords : list jsstring) : result unit :=
  match keywords with
  | [] => Throw "At least one keyword is required"
  | _ =>
      match list_find (fun keyword => length (trim keyword) = 0%nat) keywords with
      | Some (i, _) =>
          Throw ("Keyword at index " ++ pretty i
                 ++ " cannot be empty or contain only whitespace")
      | None => Ok tt
      end
  end.

Definition validateMasterSalt (masterSalt : option jsstring) : result unit :=
  match masterSalt with
  | None => Ok tt
  | Some [] => Throw "Master salt cannot be empty string (use null instead)"
  | Some _ => Ok tt
  end.

Definition validateAllInputs (keywords : list jsstring) (length : Z)
    (options : PasswordOptions.t) (masterSalt : option jsstring) : result unit :=
  match validateKeywords keywords with
  | Throw e => Throw e
  | Ok _ =>
  match validatePasswordLength length with
  | Throw e => Throw e
  | Ok _ =>
  match validatePasswordOptions options with
  | Throw e => Throw e
  | Ok _ => validateMasterSalt masterSalt
  end end end.

(** ** The password generator: [generatePassword] *)

Module PartialPasswordOptions.
(** The caller's [options] object: a flag that is absent is [None]. *)
Record t : Type := Build {
  includeUppercase : option bool;
  includeLowercase : option bool;
  includeNumbers : option bool;
  includeSymbols : option bool
}.
End PartialPasswordOptions.

Module PasswordGenerationOptions.
Record t : Type := Build {
  keywords : list jsstring;
  length : option Z;
  options : PartialPasswordOptions.t;
  masterSalt : option jsstring;
  iterations : option Z
}.
End PasswordGenerationOptions.

Module PasswordGenerationResult.
Record t : Type := Build {
  password : jsstring;
  length : Z;
  options : PasswordOptions.t;
  hashIterations : Z;
  generationTime : Z;
  characterDistribution : TargetDistribution.t;
  characterDiversity : CharacterDiversity.t
}.
End PasswordGenerationResult.

(** [value || fallback] on a number: zero and absent take the fallback. *)
Definition orNumber (value : option Z) (fallback : Z) : Z :=
  match value with
  | Some 0 | None => fallback
  | Some n => n
  end.

(** [{ ...DEFAULT_PASSWORD_OPTIONS, ...options.options }]. *)
Definition mergeOptions (options : PartialPasswordOptions.t) : PasswordOptions.t :=
  {| PasswordOptions.includeUppercase :=
       default (PasswordOptions.includeUppercase DEFAULT_PASSWORD_OPTIONS)
               (PartialPasswordOptions.includeUppercase options);
     PasswordOptions.includeLowercase :=
       default (PasswordOptions.includeLowercase DEFAULT_PASSWORD_OPTIONS)
               (PartialPasswordOptions.includeLowercase options);
     PasswordOptions.includeNumbers :=
       default (PasswordOptions.includeNumbers DEFAULT_PASSWORD_OPTIONS)
               (PartialPasswordOptions.includeNumbers options);
     PasswordOptions.includeSymbols :=
       default (PasswordOptions.includeSymbols DEFAULT_PASSWORD_OPTIONS)
               (PartialPasswordOptions.includeSymbols options) |}.

Section PasswordGenerator.

Variable encode : jsstring -> list byte.
Variable digest : list byte -> list byte.

(** [PasswordGenerator.generatePassword]. [clock n] is what the [n]-th call
    of [Date.now()] returns: the start time, then the time stamp of the
    hash result, then the end time. The one-millisecond wait inside
    [generateHash] shows only in these readings. *)
Definition generatePassword (clock : nat -> Z) (options : PasswordGenerationOptions.t)
  : result PasswordGenerationResult.t :=
  let startTime := clock 0%nat in
  let keywords := PasswordGenerationOptions.keywords options in
  let length :=
    orNumber (PasswordGenerationOptions.length options)
             (SecurityConfig.defaultPasswordLength SECURITY_CONFIG) in
  let passwordOptions := mergeOptions (PasswordGenerationOptions.options options) in
  let masterSalt :=
    match PasswordGenerationOptions.masterSalt options with
    | Some (c :: s) => Some (c :: s)
    | _ => SecurityConfig.masterSalt SECURITY_CONFIG
    end in
  let iterations :=
    orNumber (PasswordGenerationOptions.iterations options)
             (SecurityConfig.hashIterations SECURITY_CONFIG) in
  match validateAllInputs keywords length passwordOptions masterSalt with
  | Throw e => Throw e
  | Ok _ =>
  match generateHash encode digest (clock 1%nat)
          (HashOptions.Build keywords masterSalt (Some iterations)) with
  | Throw e => Throw e
  | Ok hashResult =>
  match hashToPassword (HashResult.hash hashResult) length passwordOptions with
  | Throw e => Throw e
  | Ok password =>
      Ok {| PasswordGenerationResult.password := password;
            PasswordGenerationResult.length := Z.of_nat (List.length password);
            PasswordGenerationResult.options := passwordOptions;
            PasswordGenerationResult.hashIterations := HashResult.iterations hashResult;
            PasswordGenerationResult.generationTime := clock 2%nat - startTime;
            PasswordGenerationResult.characterDistribution :=
              calculateActualDistribution password;
            PasswordGenerationResult.characterDiversity :=
              calculateCharacterDiversity password |}
  end end end.

End PasswordGenerator.

(** ** The statements of the specification, as definitions *)

(** A digest: a non-empty string of lowercase hexadecimal digits. *)
Definition isLowerHex (c : N) : bool :=
  ((48 <=? c) && (c <=? 57) || (97 <=? c) && (c <=? 102))%N.

Definition isDigest (hash : jsstring) : Prop :=
  hash <> [] /\ forallb isLowerHex hash = true.

(** Two lowercase hexadecimal digits for a byte. *)
Definition lowerHexDigits : jsstring := lit "0123456789abcdef".

Definition hexOfByte (b : byte) : jsstring :=
  option_list (lowerHexDigits !! N.to_nat (Byte.to_N b / 16))
    ++ option_list (lowerHexDigits !! N.to_nat (Byte.to_N b mod 16)).

Section DigestSpecification.

Variable encode : jsstring -> list byte.
Variable digest : list byte -> list byte.

(** The keywords the derivation works on: those that are not blank,
    normalized and joined with [|]. *)
Definition normalizedKeywords (keywords : list jsstring) : jsstring :=
  join (lit "|")
       (normalizeInput <$> filter (fun k => (0 < length (trim k))%nat) keywords).

(** The message of iteration [i]: the salt when it is present and not
    empty, the marker [iter-<i>], the joined input and the current digest
    material, separated by [|]. *)
Definition iterationMessage (salt : option jsstring) (joined : jsstring)
    (i : nat) (material : jsstring) : jsstring :=
  let marker := lit "iter-" ++ decimal (Z.of_nat i) in
  match salt with
  | Some (c :: s) => join (lit "|") [c :: s; marker; joined; material]
  | _ => join (lit "|") [marker; joined; material]
  end.

(** The digest material after [n] iterations. *)
Fixpoint digestMaterial (salt : option jsstring) (joined : jsstring) (n : nat)
  : jsstring :=
  match n with
  | O => joined
  | S k =>
      mjoin (hexOfByte <$>
               digest (encode (iterationMessage salt joined k
                                 (digestMaterial salt joined k))))
  end.

End DigestSpecification.

(** The repetition budget, in the words of the specification. *)
Definition RepetitionBudget (len : Z) : Z :=
  if decide (len <= 8) then 2
  else if decide (len <= 16) then Z.max 2 (len / 6)
  else if decide (len <= 32) then Z.max 2 (len / 8)
  else Z.max 3 (len / 10).

(** The number of times [char] occurs in a password. *)
Definition occurrences (char : N) (password : jsstring) : Z :=
  Z.of_nat (length (filter (fun c => c = char) password)).

(** Two mapper states, over two implementations of the generator, that
    agree on everything the passes can see and whose generators are related
    by [R]. *)
Definition stateSim {G1 G2 : Type} (R : G1 -> G2 -> Prop)
    (s1 : MapperState (G := G1)) (s2 : MapperState (G := G2)) : Prop :=
  password s1 = password s2
  /\ usedPositions s1 = usedPositions s2
  /\ characterUsage s1 = characterUsage s2
  /\ R (generator s1) (generator s2).

(** The three passes of [hashToPassword] over an arbitrary generator. *)
Definition runPasses {G : Type} (draw : Z -> G -> Z * G) (g : G)
    (length : Z) (options : PasswordOptions.t) : MapperState (G := G) :=
  let activeSets := activeSetsOf options in
  let maxRepetitions := calculateMaxRepetitions length in
  shufflePassword draw length
    (fillRemainingPositions draw activeSets length maxRepetitions
       (fillPasswordWithDistribution draw activeSets
          (calculateTargetDistribution activeSets length) length maxRepetitions
          (MkState ∅ ∅ ∅ g))).

(** The target distribution, in the words of the specification. A class is
    active when its flag is set, or when no flag is set at all. *)
Definition isActive (options : PasswordOptions.t) (type : CharType) : bool :=
  let flag t :=
    match t with
    | uppercase => PasswordOptions.includeUppercase options
    | lowercase => PasswordOptions.includeLowercase options
    | numbers => PasswordOptions.includeNumbers options
    | symbols => PasswordOptions.includeSymbols options
    end in
  flag type || negb (existsb flag distributionKeys).

Definition activeCount (options : PasswordOptions.t) : Z :=
  Z.of_nat (length (filter (fun t => isActive options t = true) distributionKeys)).

(** The counts before the remainder: [floor(length * weight)] under the
    profile the length selects when all four classes are active, the equal
    split [floor(length / activeCount)] otherwise. *)
Definition profileCount (options : PasswordOptions.t) (length : Z) (type : CharType) : Z :=
  if activeCount options =? 4 then
    if 64 <=? length then
      floorMul length
        match type with
        | uppercase => PASSWORD_DISTRIBUTION_CONFIG.w020
        | lowercase => PASSWORD_DISTRIBUTION_CONFIG.w035
        | numbers => PASSWORD_DISTRIBUTION_CONFIG.w020
        | symbols => PASSWORD_DISTRIBUTION_CONFIG.w025
        end
    else if 32 <=? length then
      floorMul length
        match type with
        | uppercase => PASSWORD_DISTRIBUTION_CONFIG.w025
        | lowercase => PASSWORD_DISTRIBUTION_CONFIG.w035
        | numbers => PASSWORD_DISTRIBUTION_CONFIG.w020
        | symbols => PASSWORD_DISTRIBUTION_CONFIG.w020
        end
    else length / 4
  else if isActive options type then length / activeCount options
  else 0.

Definition profileDistribution (options : PasswordOptions.t) (length : Z)
  : TargetDistribution.t :=
  {| TargetDistribution.uppercase := profileCount options length uppercase;
     TargetDistribution.lowercase := profileCount options length lowercase;
     TargetDistribution.numbers := profileCount options length numbers;
     TargetDistribution.symbols := profileCount options length symbols |}.

Definition totalCount (d : TargetDistribution.t) : Z :=
  TargetDistribution.uppercase d + TargetDistribution.lowercase d
  + TargetDistribution.numbers d + TargetDistribution.symbols d.

(** The place of a class in the class-iteration order. *)
Definition typeIndex (type : CharType) : Z :=
  match type with
  | uppercase => 0
  | lowercase => 1
  | numbers => 2
  | symbols => 3
  end.

Definition isLargest (d : TargetDistribution.t) (type : CharType) : bool :=
  forallb (fun u => typeCount d u <=? typeCount d type) distributionKeys.

(** The class with the largest count; on ties the first such class in
    class-iteration order. *)
Definition firstLargest (d : TargetDistribution.t) : CharType :=
  List.hd uppercase (List.filter (isLargest d) distributionKeys).

(** The class with the largest count; on ties the last such class in
    class-iteration order. *)
Definition lastLargest (d : TargetDistribution.t) : CharType :=
  List.hd uppercase (List.filter (isLargest d) (rev distributionKeys)).

(** The remainder [length - sum(counts)] added entirely to the class that
    [choose] names. *)
Definition withRemainder (choose : TargetDistribution.t -> CharType)
    (d : TargetDistribution.t) (length : Z) : TargetDistribution.t :=
  let remainder := length - totalCount d in
  if 0 <? remainder
  then setTypeCount d (choose d) (typeCount d (choose d) + remainder)
  else d.

(** The target distribution as the specification words it. *)
Definition claimedTargetDistribution (options : PasswordOptions.t) (length : Z)
  : TargetDistribution.t :=
  withRemainder firstLargest (profileDistribution options length) length.

Global Instance TargetDistribution_eq_dec : EqDecision TargetDistribution.t.
Proof. solve_decision. Defined.

Definition allOptions : list PasswordOptions.t :=
  b1 ← [true; false]; b2 ← [true; false]; b3 ← [true; false]; b4 ← [true; false];
  [PasswordOptions.Build b1 b2 b3 b4].

(** The first [length] cells of the password array, holes included. *)
Definition cells (password : gmap Z N) (length : Z) : list (option N) :=
  (fun i => password !! i) <$> seqZ 0 length.

(** The number of cells that hold [x]. *)
Definition countOcc (x : option N) (l : list (option N)) : Z :=
  Z.of_nat (length (filter (fun y => y = x) l)).

(** The number of cells that hold a character of [pool], counted character
    by character. *)
Definition poolSum (pool : list N) (l : list (option N)) : Z :=
  foldr (fun c acc => countOcc (Some c) l + acc) 0 pool.

(** The digest of the first pinned test vector (keywords [test], no salt,
    1000 iterations), used below as a concrete digest. *)
Definition testDigest : jsstring :=
  lit ("465e349bf20ac0097690a399423007481f55346b6387ecb695c5dde903d1ef9c"
       ++ "6d9311d2cfa8f149201deb1f37ab30ecfe95379e59512d19826a85c105e72bc7").


(** The weight of a class in the fill pass, in the words of the
    specification: symbols 3 and numbers 2 when the length is at least 32,
    every other class 1. *)
Definition classWeight (length : Z) (type : CharType) : Z :=
  match type with
  | symbols => if decide (32 <= length) then 3 else 1
  | numbers => if decide (32 <= length) then 2 else 1
  | uppercase | lowercase => 1
  end.

(** The weights of a list of classes, added up. *)
Definition sumWeights (length : Z) (sets : list CharacterSet.t) : Z :=
  foldr (fun set acc => classWeight length (CharacterSet.type set) + acc) 0 sets.

(** The digest made of 128 zeros. *)
Definition zeroDigest : jsstring := replicate 128 48%N.

(** ** Invariants of the mapper *)

(** The sixteen lowercase hexadecimal digits. *)
Definition lowerHexUnits : jsstring :=
  filter (fun c => isLowerHex c = true) (N.of_nat <$> seq 0 103).

Definition threeDigitsParse (c1 c2 c3 : N) : bool :=
  match hexValue c1, hexValue c2, hexValue c3 with
  | Some d1, Some d2, Some d3 =>
      bool_decide (parseInt16 [c1; c2; c3] = Some (256 * d1 + 16 * d2 + d3))
      && (0 <=? d1) && (d1 <? 16) && (0 <=? d2) && (d2 <? 16)
      && (0 <=? d3) && (d3 <? 16)
  | _, _, _ => false
  end.

Definition distributionChecked (options : PasswordOptions.t) (length : Z) : bool :=
  bool_decide (calculateTargetDistribution (activeSetsOf options) length
               = withRemainder lastLargest (profileDistribution options length) length)
  && (0 <=? length - totalCount (profileDistribution options length))
  && (totalCount (calculateTargetDistribution (activeSetsOf options) length) =? length).

(** A pool the selection can work on: ten or more distinct characters. *)
Definition goodPool (pool : list N) : Prop :=
  NoDup pool /\ (10 <= length pool)%nat.

(** The reachable cursors of the generator on a digest. *)
Definition cursorOk (offset : Z) : Prop := 0 <= offset.

Section Invariants.

Context {G : Type}.

(** The states of the generator that can be reached, the length of the
    password and the repetition budget. *)
Variable good : G -> Prop.
Variable len : Z.
Variable maxRep : Z.

(** What holds of the state between any two steps of the passes: the
    generator is reachable, only positions of the array are written, the
    usage map counts what the cells hold, and no character is over the
    budget by more than one. *)
Definition Inv (st : MapperState (G := G)) : Prop :=
  good (generator st)
  /\ (forall k, is_Some (password st !! k) -> 0 <= k < len)
  /\ (forall c, usageOf (characterUsage st) c
                = countOcc (Some c) (cells (password st) len))
  /\ (forall c, usageOf (characterUsage st) c <= maxRep + 1).

(** During the placement pass the used positions are the written ones. *)
Definition PlaceInv (st : MapperState (G := G)) : Prop :=
  Inv st /\ (forall k, k ∈ usedPositions st <-> is_Some (password st !! k)).

(** During the fill pass, when the loop is about to look at position [i]:
    the written positions are the ones the placement pass used and the ones
    below [i], and the placement's characters are still where they were. *)
Definition FillInv (st0 : MapperState (G := G)) (i : Z)
    (st : MapperState (G := G)) : Prop :=
  Inv st
  /\ usedPositions st = usedPositions st0
  /\ (forall k, is_Some (password st !! k)
                <-> 0 <= k < len /\ (k ∈ usedPositions st0 \/ k < i))
  /\ (forall k, k ∈ usedPositions st0 -> password st !! k = password st0 !! k).

(** During the shuffle every position stays written and the cells keep
    holding the same characters, each as often as before. *)
Definition ShuffleInv (st0 st : MapperState (G := G)) : Prop :=
  good (generator st)
  /\ (forall k, 0 <= k < len -> is_Some (password st !! k))
  /\ (forall x, countOcc x (cells (password st) len)
                = countOcc x (cells (password st0) len)).

(** Every written cell holds a character of one of [sets]. *)
Definition writtenIn (sets : list CharacterSet.t) (st : MapperState (G := G)) : Prop :=
  forall k c, password st !! k = Some c ->
    exists s, s ∈ sets /\ c ∈ CharacterSet.chars s.

(** The placement invariant, with the budget itself as the bound, the
    classes placed so far, and the number [n] of positions used. *)
Definition Tight (sets : list CharacterSet.t) (n : Z)
    (st : MapperState (G := G)) : Prop :=
  PlaceInv st
  /\ (forall c, usageOf (characterUsage st) c <= maxRep)
  /\ writtenIn sets st
  /\ Z.of_nat (size (usedPositions st)) = n.

End Invariants.

(** The positions the placement pass asks for. *)
Definition slots (targetDistribution : TargetDistribution.t)
    (sets : list CharacterSet.t) : Z :=
  foldr (fun s acc => Z.max 0 (typeCount targetDistribution (CharacterSet.type s)) + acc)
        0 sets.

(** Each class of [post] shares no character with the classes before it. *)
Fixpoint disjointAfter (pre post : list CharacterSet.t) : Prop :=
  match post with
  | [] => True
  | s :: post' =>
      (forall s' c, s' ∈ pre -> c ∈ CharacterSet.chars s' -> c ∉ CharacterSet.chars s)
      /\ disjointAfter (pre ++ [s]) post'
  end.

Definition disjointChecked (l1 l2 : list N) : bool :=
  forallb (fun c => bool_decide (c ∉ l2)) l1.

(** For the four classes and a length from 8 to 128: the targets ask for as
    many slots as there are positions, and each target fits the pool of its
    class under the budget. *)
Definition tightChecked (length : Z) : bool :=
  let targetDistribution := calculateTargetDistribution allSets length in
  (slots targetDistribution allSets =? length)
  && forallb (fun s =>
                typeCount targetDistribution (CharacterSet.type s)
                <=? Z.of_nat (List.length (CharacterSet.chars s))
                    * calculateMaxRepetitions length)
             allSets.

(** The digests of the second and third pinned test vectors (keywords
    [github.com], [user@email.com], and keyword [diversity-test]). *)
Definition testDigest2 : jsstring :=
  lit ("0e593aaaaaac049ec2bd58b7475bb7e6b2ebe54550e79b8c3e5d1ad28985b0eb"
       ++ "59f7c85a7ec134dafc8589936b2776d45c8c5eeb6a6e510ad4874e4ba9985ea5").

Definition testDigest3 : jsstring :=
  lit ("461f4d98bee7922b7efba0d444a9c992653cf75483888c51e233841e675466a1"
       ++ "104cff62a54e97c47d13a38d451dbd4a6dc0b975d12f987806a2a2e144b3cdda").

(** The targets ask for as many slots as there are positions. *)
Definition slotsChecked (options : PasswordOptions.t) (length : Z) : bool :=
  slots (calculateTargetDistribution (activeSetsOf options) length)
        (activeSetsOf options) =? length.

Definition classSlots (targetDistribution : TargetDistribution.t) (pool : list N)
    (sets : list CharacterSet.t) : Z :=
  foldr (fun s acc =>
           (if decide (CharacterSet.chars s = pool)
            then Z.max 0 (typeCount targetDistribution (CharacterSet.type s))
            else 0) + acc)
        0 sets.

(** The class of a character of one code unit: [typeOfCodePoint [char]]. *)
Definition charClass (char : N) : CharType :=
  if ((65 <=? char) && (char <=? 90))%N then uppercase
  else if ((97 <=? char) && (char <=? 122))%N then lowercase
  else if ((48 <=? char) && (char <=? 57))%N then numbers
  else symbols.

(** The pool of a class in [CHARACTER_SETS]. *)
Definition poolOf (type : CharType) : jsstring :=
  match type with
  | uppercase => CHARACTER_SETS.UPPERCASE
  | lowercase => CHARACTER_SETS.LOWERCASE
  | numbers => CHARACTER_SETS.NUMBERS
  | symbols => CHARACTER_SETS.SYMBOLS
  end.

(** The placement gives every class its target: the slots of the active
    classes are the targets, and a class that is not active has target 0. *)
Definition classChecked (options : PasswordOptions.t) (length : Z) : bool :=
  let targetDistribution := calculateTargetDistribution (activeSetsOf options) length in
  forallb (fun type =>
             classSlots targetDistribution (poolOf type) (activeSetsOf options)
             =? typeCount targetDistribution type)
          distributionKeys.

(** Every active class has a target of at least one and of at least a fifth
    of the length, and a class that is not active has target 0. *)
Definition coverageChecked (options : PasswordOptions.t) (length : Z) : bool :=
  let activeSets := activeSetsOf options in
  let targetDistribution := calculateTargetDistribution activeSets length in
  forallb (fun type =>
             if existsb (fun s => bool_decide (CharacterSet.type s = type)) activeSets
             then (1 <=? typeCount targetDistribution type)
                  && (length / 5 <=? typeCount targetDistribution type)
             else typeCount targetDistribution type =? 0)
          distributionKeys.

Module RequiredPasswordGenerationOptions.
(** [Required<PasswordGenerationOptions>], what [normalizeOptions]
    returns. *)
Record t : Type := Build {
  keywords : list jsstring;
  length : Z;
  options : PasswordOptions.t;
  masterSalt : option jsstring;
  iterations : Z
}.
End RequiredPasswordGenerationOptions.

(** [PasswordGenerator.normalizeOptions]: [||] replaces a length or an
    iteration count of 0 and an empty salt by the default. *)
Definition normalizeOptions (options : PasswordGenerationOptions.t)
  : RequiredPasswordGenerationOptions.t :=
  {| RequiredPasswordGenerationOptions.keywords :=
       PasswordGenerationOptions.keywords options;
     RequiredPasswordGenerationOptions.length :=
       orNumber (PasswordGenerationOptions.length options)
                (SecurityConfig.defaultPasswordLength SECURITY_CONFIG);
     RequiredPasswordGenerationOptions.options :=
       mergeOptions (PasswordGenerationOptions.options options);
     RequiredPasswordGenerationOptions.masterSalt :=
       match PasswordGenerationOptions.masterSalt options with
       | Some (c :: s) => Some (c :: s)
       | _ => SecurityConfig.masterSalt SECURITY_CONFIG
       end;
     RequiredPasswordGenerationOptions.iterations :=
       orNumber (PasswordGenerationOptions.iterations options)
                (SecurityConfig.hashIterations SECURITY_CONFIG) |}.

(** [PasswordGenerator.validateGenerationOptions]. *)
Definition validateGenerationOptions (options : RequiredPasswordGenerationOptions.t)
  : result unit :=
  validateAllInputs (RequiredPasswordGenerationOptions.keywords options)
                    (RequiredPasswordGenerationOptions.length options)
                    (RequiredPasswordGenerationOptions.options options)
                    (RequiredPasswordGenerationOptions.masterSalt options).

(** [PasswordGenerator.validateOptions]; neither call inside the [try]
    throws. *)
Definition validateOptions (options : PasswordGenerationOptions.t) : result unit :=
  validateGenerationOptions (normalizeOptions options).

Module InputValidator.
(** [InputValidator.validatePasswordOptions] on the caller's object: the
    flags that are absent take their defaults before the test. *)
Definition validatePasswordOptions (options : PartialPasswordOptions.t) : result unit :=
  validatePasswordOptions (mergeOptions options).
End InputValidator.

(** ** analysis/password-analyzer.ts *)

(** The analyzer iterates a password as the generator's metrics do: see
    [codePoints], [countCodePoints] and [typeOfCodePoint] above. *)

(** [PasswordAnalyzer.calculateMaxAllowedRepetitions]. *)
Definition calculateMaxAllowedRepetitions (length : Z) : Z :=
  if length <=? 8 then 2
  else if length <=? 16 then Z.max 2 (length / 6)
  else if length <=? 32 then Z.max 2 (length / 8)
  else Z.max 3 (length / 10).

Module CharacterDiversityMetrics.
(** [maxRepetitions] is [None] for [-Infinity], which [Math.max] gives for
    no argument. *)
Record t : Type := Build {
  totalUniqueCharacters : Z;
  maxRepetitions : option Z;
  averageRepetitions : float;
  diversityRatio : float;
  repetitionScore : Z;
  varietyScore : float
}.
End CharacterDiversityMetrics.

(** [PasswordAnalyzer.analyzeCharacterDiversity]. *)
Definition analyzeCharacterDiversity (password : jsstring) : CharacterDiversityMetrics.t :=
  if decide (length password = 0%nat) then
    {| CharacterDiversityMetrics.totalUniqueCharacters := 0;
       CharacterDiversityMetrics.maxRepetitions := Some 0;
       CharacterDiversityMetrics.averageRepetitions := 0;
       CharacterDiversityMetrics.diversityRatio := 0;
       CharacterDiversityMetrics.repetitionScore := 0;
       CharacterDiversityMetrics.varietyScore := 0 |}
  else
    let charCount := countCodePoints password in
    let repetitionCounts := charCount.*2 in
    let totalUniqueCharacters := Z.of_nat (length charCount) in
    let maxRepetitions := mathMax repetitionCounts in
    let averageRepetitions :=
      PrimFloat.div (Z_to_float (foldl Z.add 0 repetitionCounts))
                    (Z_to_float (Z.of_nat (length repetitionCounts))) in
    let diversityRatio :=
      PrimFloat.div (Z_to_float totalUniqueCharacters)
                    (Z_to_float (Z.of_nat (length password))) in
    let maxAllowedRepetitions :=
      calculateMaxAllowedRepetitions (Z.of_nat (length password)) in
    let repetitionScore :=
      match maxRepetitions with
      | Some m =>
          if m <=? maxAllowedRepetitions then 100
          else Z.max 0 (100 - (m - maxAllowedRepetitions) * 20)
      | None => 100
      end in
    let varietyScore := mathRound (PrimFloat.mul diversityRatio 100) in
    {| CharacterDiversityMetrics.totalUniqueCharacters := totalUniqueCharacters;
       CharacterDiversityMetrics.maxRepetitions := maxRepetitions;
       CharacterDiversityMetrics.averageRepetitions :=
         PrimFloat.div (mathRound (PrimFloat.mul averageRepetitions 100)) 100;
       CharacterDiversityMetrics.diversityRatio :=
         PrimFloat.div (mathRound (PrimFloat.mul diversityRatio 1000)) 1000;
       CharacterDiversityMetrics.repetitionScore := repetitionScore;
       CharacterDiversityMetrics.varietyScore := varietyScore |}.

Inductive RepetitionQuality : Type := Excellent | Good | Fair | Poor.

Module RepetitionViolation.
Record t : Type := Build {
  character : jsstring;
  count : Z;
  maxAllowed : Z
}.
End RepetitionViolation.

Module RepetitionAnalysis.
Record t : Type := Build {
  hasExcessiveRepetition : bool;
  maxAllowedRepetitions : Z;
  repetitionViolations : list RepetitionViolation.t;
  repetitionQuality : RepetitionQuality
}.
End RepetitionAnalysis.

(** One turn of the loop over [charCount.entries()]: the running maximum
    and the violations pushed so far. *)
Definition checkEntry (maxAllowedRepetitions : Z)
    (state : Z * list RepetitionViolation.t) (entry : jsstring * Z)
  : Z * list RepetitionViolation.t :=
  let '(maxActualRepetitions, repetitionViolations) := state in
  let '(char, count) := entry in
  (if maxActualRepetitions <? count then count else maxActualRepetitions,
   if maxAllowedRepetitions <? count
   then repetitionViolations
        ++ [RepetitionViolation.Build char count maxAllowedRepetitions]
   else repetitionViolations).

(** [PasswordAnalyzer.analyzeRepetitionPattern]. *)
Definition analyzeRepetitionPattern (password : jsstring) : RepetitionAnalysis.t :=
  let charCount := countCodePoints password in
  let maxAllowedRepetitions :=
    calculateMaxAllowedRepetitions (Z.of_nat (length password)) in
  let '(maxActualRepetitions, repetitionViolations) :=
    foldl (checkEntry maxAllowedRepetitions) (0, []) charCount in
  let hasExcessiveRepetition := (0 <? length repetitionViolations)%nat in
  let repetitionQuality :=
    if maxActualRepetitions <=? Z.max 1 (maxAllowedRepetitions - 1) then Excellent
    else if maxActualRepetitions <=? maxAllowedRepetitions then Good
    else if maxActualRepetitions <=? maxAllowedRepetitions + 1 then Fair
    else Poor in
  {| RepetitionAnalysis.hasExcessiveRepetition := hasExcessiveRepetition;
     RepetitionAnalysis.maxAllowedRepetitions := maxAllowedRepetitions;
     RepetitionAnalysis.repetitionViolations := repetitionViolations;
     RepetitionAnalysis.repetitionQuality := repetitionQuality |}.

Module CharacterTypeCounts.
Record t : Type := Build {
  uppercase : Z;
  lowercase : Z;
  numbers : Z;
  symbols : Z;
  total : Z
}.
End CharacterTypeCounts.

(** [PasswordAnalyzer.countCharacterTypes]; [total] is [password.length],
    the number of code units. *)
Definition countCharacterTypes (password : jsstring) : CharacterTypeCounts.t :=
  let counts :=
    foldl (fun d char =>
             let type := typeOfCodePoint char in
             setTypeCount d type (typeCount d type + 1))
          (TargetDistribution.Build 0 0 0 0) (codePoints password) in
  {| CharacterTypeCounts.uppercase := TargetDistribution.uppercase counts;
     CharacterTypeCounts.lowercase := TargetDistribution.lowercase counts;
     CharacterTypeCounts.numbers := TargetDistribution.numbers counts;
     CharacterTypeCounts.symbols := TargetDistribution.symbols counts;
     CharacterTypeCounts.total := Z.of_nat (length password) |}.

(** [PasswordAnalyzer.hasSequentialCharacters]: the loop looks at the code
    units [i], [i + 1], [i + 2] for every [i] below [length - 2] and returns
    at the first ascending run. *)
Fixpoint hasSequentialCharacters (password : jsstring) : bool :=
  match password with
  | char1 :: rest =>
      match rest with
      | char2 :: char3 :: _ =>
          if ((char2 =? char1 + 1) && (char3 =? char2 + 1))%N then true
          else hasSequentialCharacters rest
      | _ => false
      end
  | [] => false
  end.

(** [PasswordAnalyzer.hasRepeatedCharacters]: the loop compares the code
    units [i] and [i + 1] for every [i] below [length - 1]. *)
Fixpoint hasRepeatedCharacters (password : jsstring) : bool :=
  match password with
  | char1 :: rest =>
      match rest with
      | char2 :: _ =>
          if (char1 =? char2)%N then true else hasRepeatedCharacters rest
      | [] => false
      end
  | [] => false
  end.

(** The number of times the code point [char] occurs in a password. *)
Definition codePointOccurrences (char : jsstring) (password : jsstring) : Z :=
  Z.of_nat (length (filter (fun c => c = char) (codePoints password))).

(** ** config.ts: the pinned test vectors *)

Module TestVectorInput.
(** [options] and [masterSalt] are optional; the pinned vectors leave them
    out. *)
Record t : Type := Build {
  keywords : list jsstring;
  length : Z;
  options : option PartialPasswordOptions.t;
  masterSalt : option jsstring
}.
End TestVectorInput.

Module ExpectedDiversity.
Record t : Type := Build {
  totalUniqueCharacters : Z;
  maxRepetitions : Z;
  diversityRatio : float
}.
End ExpectedDiversity.

Module ExpectedOutput.
Record t : Type := Build {
  password : jsstring;
  hashPrefix : jsstring;
  characterDiversity : ExpectedDiversity.t
}.
End ExpectedOutput.

Module TestVector.
(** [timestamp] is [environment.timestamp]. *)
Record t : Type := Build {
  input : TestVectorInput.t;
  expectedOutput : ExpectedOutput.t;
  timestamp : Z
}.
End TestVector.

Definition ALGORITHM_TEST_VECTORS : list TestVector.t :=
  [ TestVector.Build
      (TestVectorInput.Build [lit "test"] 16 None None)
      (ExpectedOutput.Build (lit "Bu9]T_0Yi&p09.Hg") (lit "465e349bf20ac009")
         (ExpectedDiversity.Build 14 2 0x1.cp-1%float))
      1704067200000;
    TestVector.Build
      (TestVectorInput.Build [lit "github.com"; lit "user@email.com"] 16 None None)
      (ExpectedOutput.Build (lit "Vk!]XmK0G25<m3$p") (lit "0e593aaaaaac049e")
         (ExpectedDiversity.Build 15 2 0x1.e04189374bc6ap-1%float))
      1704067200000;
    TestVector.Build
      (TestVectorInput.Build [lit "diversity-test"] 32 None None)
      (ExpectedOutput.Build (lit "$Ueqo0MyJyMz6DyjMJd6;Gw62h]<9*h%")
         (lit "461f4d98bee7922b")
         (ExpectedDiversity.Build 24 3 0x1.8p-1%float))
      1704067200000 ].

(** [ALGORITHM_VERSION.version]. *)
Definition ALGORITHM_VERSION_version : jsstring := lit "1.0.2".

(** ** crypto/hash-generator.ts: the compatibility checks *)

Module HashPrefix.
Record t : Type := Build {
  expected : jsstring;
  actual : jsstring
}.
End HashPrefix.

Module TestVectorResult.
Record t : Type := Build {
  vectorIndex : Z;
  input : TestVectorInput.t;
  expected : jsstring;
  actual : jsstring;
  hashPrefix : HashPrefix.t;
  passed : bool;
  error : option string
}.
End TestVectorResult.

Module Environment.
(** [navigator.userAgent] and [process.version], each [undefined] where the
    platform has no such object, and the reading of [Date.now()]. *)
Record t : Type := Build {
  userAgent : option jsstring;
  nodeVersion : option jsstring;
  timestamp : Z
}.
End Environment.

Module CompatibilityResult.
Record t : Type := Build {
  isCompatible : bool;
  algorithmVersion : jsstring;
  testedVectors : Z;
  passedVectors : Z;
  failedVectors : list TestVectorResult.t;
  environment : Environment.t
}.
End CompatibilityResult.

Section CompatibilityChecks.

Variable encode : jsstring -> list byte.
Variable digest : list byte -> list byte.

(** One turn of the loop of [validateAlgorithmCompatibility]: the results
    pushed so far and [passedCount]. [clock n] is what the [n]-th call of
    [Date.now()] returns: the first one is made for the environment, the
    next ones inside [generateHash]. *)
Definition checkVector (clock : nat -> Z) (state : list TestVectorResult.t * Z)
    (indexed : Z * TestVector.t) : list TestVectorResult.t * Z :=
  let '(results, passedCount) := state in
  let '(i, vector) := indexed in
  let expected := ExpectedOutput.hashPrefix (TestVector.expectedOutput vector) in
  match generateHash encode digest (clock (S (Z.to_nat i)))
          (HashOptions.Build
             (TestVectorInput.keywords (TestVector.input vector))
             (TestVectorInput.masterSalt (TestVector.input vector))
             (Some (SecurityConfig.hashIterations SECURITY_CONFIG))) with
  | Ok hashResult =>
      let actualHashPrefix := take 16 (HashResult.hash hashResult) in
      let passed := bool_decide (actualHashPrefix = expected) in
      (results
       ++ [TestVectorResult.Build i (TestVector.input vector) expected actualHashPrefix
             (HashPrefix.Build expected actualHashPrefix) passed None],
       if passed then passedCount + 1 else passedCount)
  | Throw message =>
      (results
       ++ [TestVectorResult.Build i (TestVector.input vector) expected []
             (HashPrefix.Build expected []) false (Some message)],
       passedCount)
  end.

(** [HashGenerator.validateAlgorithmCompatibility]. *)
Definition validateAlgorithmCompatibility (userAgent nodeVersion : option jsstring)
    (clock : nat -> Z) : CompatibilityResult.t :=
  let environment := Environment.Build userAgent nodeVersion (clock 0%nat) in
  let '(results, passedCount) :=
    foldl (checkVector clock) ([], 0)
          (zip (seqZ 0 (Z.of_nat (length ALGORITHM_TEST_VECTORS)))
               ALGORITHM_TEST_VECTORS) in
  let failedVectors :=
    filter (fun r => TestVectorResult.passed r = false) results in
  {| CompatibilityResult.isCompatible := bool_decide (length failedVectors = 0%nat);
     CompatibilityResult.algorithmVersion := ALGORITHM_VERSION_version;
     CompatibilityResult.testedVectors := Z.of_nat (length ALGORITHM_TEST_VECTORS);
     CompatibilityResult.passedVectors := passedCount;
     CompatibilityResult.failedVectors := failedVectors;
     CompatibilityResult.environment := environment |}.

(** [HashGenerator.quickCompatibilityCheck]. *)
Definition quickCompatibilityCheck (now : Z) : bool :=
  match ALGORITHM_TEST_VECTORS with
  | testVector :: _ =>
      match generateHash encode digest now
              (HashOptions.Build
                 (TestVectorInput.keywords (TestVector.input testVector))
                 (TestVectorInput.masterSalt (TestVector.input testVector))
                 None) with
      | Ok hashResult =>
          bool_decide (take 16 (HashResult.hash hashResult)
                       = ExpectedOutput.hashPrefix (TestVector.expectedOutput testVector))
      | Throw _ => false
      end
  | [] => false
  end.

End CompatibilityChecks.

(** * Properties *)

(** ** The digest deriver *)

Lemma hexEncode_byte (b : byte) :
  padStart2 (toString16 (Byte.to_N b)) = hexOfByte b.
Proof. destruct b; reflexivity. Qed.

Lemma hexEncode_lowercase (bytes : list byte) :
  hexEncode bytes = mjoin (hexOfByte <$> bytes).
Proof.
  unfold hexEncode. f_equal.
  induction bytes as [|b bytes IH]; [reflexivity|].
  rewrite !fmap_cons, hexEncode_byte, IH. reflexivity.
Qed.

Section DigestDeriver.

Variable encode : jsstring -> list byte.
Variable digest : list byte -> list byte.

Lemma hashIteration_message salt joined (i : nat) material :
  hashIteration encode digest salt joined (Z.of_nat i) material
  = mjoin (hexOfByte <$> digest (encode (iterationMessage salt joined i material))).
Proof.
  unfold hashIteration, iterationMessage. rewrite hexEncode_lowercase.
  destruct salt as [[|c s]|]; reflexivity.
Qed.

(** The loop, entered at counter [k] with the material of [k] iterations,
    leaves the material of [k + n] iterations after [n] more turns. *)
Lemma hashLoop_digestMaterial salt joined (n k : nat) :
  hashLoop encode digest n salt joined (Z.of_nat k)
           (digestMaterial encode digest salt joined k)
  = digestMaterial encode digest salt joined (k + n).
Proof.
  revert k. induction n as [|n IH]; intros k; simpl.
  - rewrite Nat.add_0_r. reflexivity.
  - rewrite hashIteration_message.
    replace (Z.of_nat k + 1) with (Z.of_nat (S k)) by lia.
    change (mjoin _) with (digestMaterial encode digest salt joined (S k)).
    rewrite IH. f_equal. lia.
Qed.

Lemma generateHash_unfold now keyword rest salt iterations :
  generateHash encode digest now
    (HashOptions.Build (keyword :: rest) salt iterations)
  = Ok (HashResult.Build
          (hashLoop encode digest
             (Z.to_nat (default 1000 iterations)) salt
             (normalizedKeywords (keyword :: rest)) 0
             (normalizedKeywords (keyword :: rest)))
          (default 1000 iterations) now).
Proof.
  unfold generateHash, validateInputs, normalizedKeywords.
  cbn [HashOptions.keywords HashOptions.masterSalt HashOptions.iterations
       SECURITY_CONFIG SecurityConfig.hashIterations SecurityConfig.masterSalt].
  destruct salt; reflexivity.
Qed.

(** C2. For every non-empty keyword array, salt and iteration count [n],
    [generateHash] returns the digest material of [n] iterations: it starts
    from the normalized keywords joined with [|]; iteration [i] joins the
    salt (when present and not empty), [iter-<i>], the joined input and the
    current material with [|], hashes the message and hex-encodes the
    bytes in lowercase; the material after the last iteration is the
    [hash] field. *)
Theorem generateHash_derivation now keyword rest salt (n : nat) :
  generateHash encode digest now
    (HashOptions.Build (keyword :: rest) salt (Some (Z.of_nat n)))
  = Ok (HashResult.Build
          (digestMaterial encode digest salt
             (normalizedKeywords (keyword :: rest)) n)
          (Z.of_nat n) now).
Proof.
  rewrite generateHash_unfold.
  change (default 1000 (Some (Z.of_nat n))) with (Z.of_nat n).
  rewrite Nat2Z.id.
  pose proof (hashLoop_digestMaterial salt
                (normalizedKeywords (keyword :: rest)) n 0) as H.
  change (Z.of_nat 0) with 0 in H. cbn [digestMaterial Nat.add] in H.
  rewrite H. reflexivity.
Qed.

(** C10. With [iterations = 0] the loop never runs and the [hash] field is
    the normalized, [|]-joined keyword string itself; for the keyword
    [Test] it is the plain text [test], which is not a hexadecimal
    digest. *)
Theorem generateHash_zero_iterations now keyword rest salt :
  generateHash encode digest now
    (HashOptions.Build (keyword :: rest) salt (Some 0))
  = Ok (HashResult.Build (normalizedKeywords (keyword :: rest)) 0 now)
  /\ normalizedKeywords [lit "Test"] = lit "test"
  /\ ~ isDigest (lit "test").
Proof.
  split; [|split].
  - rewrite generateHash_unfold. reflexivity.
  - reflexivity.
  - intros [_ H]. vm_compute in H. discriminate.
Qed.

(** C3 (the code does not do this). [generateHash] neither rejects the
    keyword array [["ab"]], whose normalized content has two characters,
    nor the array [["  "]], which is empty after the blank keywords are
    dropped: for every salt and iteration count it returns a hash. Nor does
    the validation in front of it: [generatePassword] on [["ab"]] with
    default options returns a password. *)
Theorem generateHash_accepts_short_input now salt iterations :
  isThrow (generateHash encode digest now
             (HashOptions.Build [lit "ab"] salt iterations)) = false
  /\ isThrow (generateHash encode digest now
                (HashOptions.Build [lit "  "] salt iterations)) = false
  /\ normalizedKeywords [lit "ab"] = lit "ab"
  /\ normalizedKeywords [lit "  "] = []
  /\ (forall clock,
        isThrow (generatePassword encode digest clock
                   (PasswordGenerationOptions.Build [lit "ab"] None
                      (PartialPasswordOptions.Build None None None None)
                      None None)) = false).
Proof.
  rewrite !generateHash_unfold.
  split; [reflexivity|]. split; [reflexivity|]. split; [reflexivity|].
  split; [reflexivity|].
  intros clock. unfold generatePassword.
  cbn [PasswordGenerationOptions.keywords PasswordGenerationOptions.length
       PasswordGenerationOptions.options PasswordGenerationOptions.masterSalt
       PasswordGenerationOptions.iterations].
  change (validateAllInputs _ _ _ _) with (Ok tt : result unit).
  cbv iota beta. rewrite generateHash_unfold. cbv iota beta.
  unfold hashToPassword.
  change ((orNumber None (SecurityConfig.defaultPasswordLength SECURITY_CONFIG) <? 0)
          || (4294967295
              <? orNumber None (SecurityConfig.defaultPasswordLength SECURITY_CONFIG)))
    with false.
  reflexivity.
Qed.

(** C1. The hash does not depend on when it is computed: two calls of
    [generateHash] with the same options agree on everything but the time
    stamp, and two calls of [generatePassword] with the same options agree
    on the password, on its diversity metrics and on its distribution,
    whatever the clock reads during either call. *)
Theorem generation_deterministic :
  (forall now1 now2 options,
      match generateHash encode digest now1 options,
            generateHash encode digest now2 options with
      | Ok r1, Ok r2 =>
          HashResult.hash r1 = HashResult.hash r2
          /\ HashResult.iterations r1 = HashResult.iterations r2
      | Throw e1, Throw e2 => e1 = e2
      | _, _ => False
      end)
  /\ (forall clock1 clock2 options,
      match generatePassword encode digest clock1 options,
            generatePassword encode digest clock2 options with
      | Ok r1, Ok r2 =>
          PasswordGenerationResult.password r1 = PasswordGenerationResult.password r2
          /\ PasswordGenerationResult.characterDiversity r1
             = PasswordGenerationResult.characterDiversity r2
          /\ PasswordGenerationResult.characterDistribution r1
             = PasswordGenerationResult.characterDistribution r2
      | Throw e1, Throw e2 => e1 = e2
      | _, _ => False
      end).
Proof.
  split.
  - intros now1 now2 options. unfold generateHash.
    destruct (validateInputs (HashOptions.keywords options)); [|reflexivity].
    split; reflexivity.
  - intros clock1 clock2 options. unfold generatePassword.
    destruct (validateAllInputs _ _ _ _); [|reflexivity].
    unfold generateHash.
    destruct (validateInputs _); [|reflexivity].
    cbn [HashResult.hash HashResult.iterations HashOptions.keywords
         HashOptions.masterSalt HashOptions.iterations].
    destruct (hashToPassword _ _ _); [|reflexivity].
    repeat split; reflexivity.
Qed.

End DigestDeriver.

(** C4 (the code does not do this). [normalizeInput] trims and lowercases
    and nothing else: the keyword [Café] (C, a, f, U+00E9) comes out as
    [café], with its accented letter, and not as [cafe]. *)
Theorem normalizeInput_keeps_diacritics :
  normalizeInput [67; 97; 102; 233]%N = [99; 97; 102; 233]%N
  /\ normalizeInput [67; 97; 102; 233]%N <> lit "cafe".
Proof. split; [reflexivity | discriminate]. Qed.

(** ** The deterministic generator *)

Lemma isLowerHex_units (c : N) : isLowerHex c = true -> c ∈ lowerHexUnits.
Proof.
  intros H. unfold lowerHexUnits. apply list_elem_of_filter. split; [exact H|].
  apply list_elem_of_fmap. exists (N.to_nat c). split; [symmetry; apply N2Nat.id|].
  apply elem_of_seq. unfold isLowerHex in H.
  rewrite orb_true_iff, !andb_true_iff, !N.leb_le in H. lia.
Qed.

Lemma threeDigitsParse_all :
  forallb (fun c1 => forallb (fun c2 => forallb (threeDigitsParse c1 c2)
     lowerHexUnits) lowerHexUnits) lowerHexUnits = true.
Proof. vm_compute. reflexivity. Qed.

(** Three lowercase hexadecimal digits parse to their base-16 value. *)
Lemma parseInt16_digits (c1 c2 c3 : N) :
  isLowerHex c1 = true -> isLowerHex c2 = true -> isLowerHex c3 = true ->
  exists d1 d2 d3,
    hexValue c1 = Some d1 /\ hexValue c2 = Some d2 /\ hexValue c3 = Some d3
    /\ 0 <= d1 < 16 /\ 0 <= d2 < 16 /\ 0 <= d3 < 16
    /\ parseInt16 [c1; c2; c3] = Some (256 * d1 + 16 * d2 + d3).
Proof.
  intros H1 H2 H3.
  pose proof threeDigitsParse_all as A.
  rewrite forallb_forall in A.
  specialize (A c1 (proj1 (list_elem_of_In _ _) (isLowerHex_units _ H1))).
  rewrite forallb_forall in A.
  specialize (A c2 (proj1 (list_elem_of_In _ _) (isLowerHex_units _ H2))).
  rewrite forallb_forall in A.
  specialize (A c3 (proj1 (list_elem_of_In _ _) (isLowerHex_units _ H3))).
  unfold threeDigitsParse in A.
  destruct (hexValue c1) as [d1|]; [|discriminate].
  destruct (hexValue c2) as [d2|]; [|discriminate].
  destruct (hexValue c3) as [d3|]; [|discriminate].
  exists d1, d2, d3.
  repeat (apply andb_prop in A; destruct A as [A ?]).
  apply bool_decide_eq_true in A.
  repeat split; try reflexivity; try lia; exact A.
Qed.

Lemma arrayGet_inside (hash : jsstring) (index : Z) :
  0 <= index < Z.of_nat (length hash) ->
  exists c, hash !! Z.to_nat index = Some c /\ arrayGet hash index = Some c.
Proof.
  intros H. destruct (lookup_lt_is_Some_2 hash (Z.to_nat index)) as [c Hc]; [lia|].
  exists c. split; [exact Hc|]. unfold arrayGet.
  destruct (Z.ltb_spec index 0); [lia|]. exact Hc.
Qed.

(** What one draw reads and returns, for a non-empty hash. *)
Lemma getHashValue_reads (hash : jsstring) (seed offset : Z) :
  hash <> [] -> 0 <= seed -> 0 <= offset ->
  let L := Z.of_nat (length hash) in
  exists c1 c2 c3,
    hash !! Z.to_nat ((offset + seed) mod L) = Some c1
    /\ hash !! Z.to_nat ((offset + seed + 1) mod L) = Some c2
    /\ hash !! Z.to_nat ((offset + seed + 2) mod L) = Some c3
    /\ getHashValue hash seed offset
       = (orOne (parseInt16 [c1; c2; c3]), (offset + 3) mod L).
Proof.
  intros Hne Hseed Hoff L.
  assert (0 < L) as HL by (unfold L; destruct hash; [congruence | simpl; lia]).
  unfold getHashValue, jsRem. fold L.
  destruct (Z.eqb_spec L 0) as [?|_]; [lia|].
  rewrite !Z.rem_mod_nonneg by lia.
  destruct (arrayGet_inside hash ((offset + seed) mod L)) as (c1 & E1 & A1);
    [apply Z.mod_pos_bound; lia|].
  destruct (arrayGet_inside hash ((offset + seed + 1) mod L)) as (c2 & E2 & A2);
    [apply Z.mod_pos_bound; lia|].
  destruct (arrayGet_inside hash ((offset + seed + 2) mod L)) as (c3 & E3 & A3);
    [apply Z.mod_pos_bound; lia|].
  exists c1, c2, c3. rewrite A1, A2, A3. auto.
Qed.

Lemma isDigest_lookup (hash : jsstring) (i : nat) (c : N) :
  isDigest hash -> hash !! i = Some c -> isLowerHex c = true.
Proof.
  intros [_ H] Hi. rewrite forallb_forall in H. apply H.
  apply list_elem_of_In. eapply list_elem_of_lookup_2. exact Hi.
Qed.

(** On a digest every draw lies between 1 and 4095, and the cursor stays
    inside the digest. *)
Lemma getHashValue_digest_range (hash : jsstring) (seed offset : Z) :
  isDigest hash -> 0 <= seed -> 0 <= offset ->
  1 <= (getHashValue hash seed offset).1 <= 4095
  /\ 0 <= (getHashValue hash seed offset).2.
Proof.
  intros Hd Hseed Hoff.
  destruct (getHashValue_reads hash seed offset (proj1 Hd) Hseed Hoff)
    as (c1 & c2 & c3 & E1 & E2 & E3 & E).
  rewrite E. simpl.
  destruct (parseInt16_digits c1 c2 c3) as (d1 & d2 & d3 & _ & _ & _ & ? & ? & ? & P);
    eauto using isDigest_lookup.
  rewrite P. split.
  - unfold orOne. destruct (256 * d1 + 16 * d2 + d3) eqn:V; lia.
  - apply Z.mod_pos_bound. destruct Hd as [Hne _].
    destruct hash; [congruence | simpl; lia].
Qed.

(** *** The passes see the generator only through its draws *)

Section GeneratorSimulation.

Context {G1 G2 : Type}.
Variable draw1 : Z -> G1 -> Z * G1.
Variable draw2 : Z -> G2 -> Z * G2.
Variable R : G1 -> G2 -> Prop.

Hypothesis draw_sim : forall seed g1 g2,
  R g1 g2 ->
  (draw1 seed g1).1 = (draw2 seed g2).1
  /\ R (draw1 seed g1).2 (draw2 seed g2).2.

Ltac draw_both seed g1 g2 HR :=
  let h1 := fresh "h1" in let h2 := fresh "h2" in
  let g1' := fresh "g1'" in let g2' := fresh "g2'" in
  let E := fresh "E" in let HR' := fresh "HR'" in
  destruct (draw_sim seed g1 g2 HR) as [E HR'];
  destruct (draw1 seed g1) as [h1 g1'];
  destruct (draw2 seed g2) as [h2 g2'];
  simpl in E, HR'; subst h2.

Lemma select_sim availableChars usage maxRepetitions seed g1 g2 :
  R g1 g2 ->
  (selectCharacterWithRepetitionControl draw1 availableChars usage
     maxRepetitions seed g1).1
  = (selectCharacterWithRepetitionControl draw2 availableChars usage
       maxRepetitions seed g2).1
  /\ R (selectCharacterWithRepetitionControl draw1 availableChars usage
          maxRepetitions seed g1).2
       (selectCharacterWithRepetitionControl draw2 availableChars usage
          maxRepetitions seed g2).2.
Proof.
  intros HR. unfold selectCharacterWithRepetitionControl.
  destruct (decide _).
  - draw_both seed g1 g2 HR. auto.
  - draw_both (seed + 1000) g1 g2 HR. auto.
Qed.

Lemma probePosition_sim fuel code i length used attempts g1 g2 :
  R g1 g2 ->
  (probePosition draw1 fuel code i length used attempts g1).1
  = (probePosition draw2 fuel code i length used attempts g2).1
  /\ R (probePosition draw1 fuel code i length used attempts g1).2
       (probePosition draw2 fuel code i length used attempts g2).2.
Proof.
  revert attempts g1 g2.
  induction fuel as [|fuel IH]; intros attempts g1 g2 HR; simpl.
  - draw_both (code * 1000 + i * 100 + attempts) g1 g2 HR. auto.
  - draw_both (code * 1000 + i * 100 + attempts) g1 g2 HR.
    destruct (_ && _); [apply IH; assumption | auto].
Qed.

Lemma placeSlot_sim set length maxRepetitions s1 s2 i :
  stateSim R s1 s2 ->
  stateSim R (placeSlot draw1 set length maxRepetitions s1 i)
             (placeSlot draw2 set length maxRepetitions s2 i).
Proof.
  intros (Hp & Hu & Hc & HR). unfold placeSlot. rewrite <- Hp, <- Hu, <- Hc.
  destruct (probePosition_sim (Z.to_nat (length * 2))
              (typeCode (CharacterSet.type set)) i length (usedPositions s1) 0
              _ _ HR) as [E HR'].
  destruct (probePosition draw1 _ _ _ _ _ _ _) as [[p1 a1] g1'].
  destruct (probePosition draw2 _ _ _ _ _ _ _) as [[p2 a2] g2'].
  simpl in E, HR'. injection E as -> ->.
  destruct (bool_decide _).
  - repeat split; assumption.
  - destruct (select_sim (CharacterSet.chars set) (characterUsage s1)
                maxRepetitions
                (typeCode (CharacterSet.type set) * 2000 + i * 300)
                _ _ HR') as [E HR''].
    destruct (selectCharacterWithRepetitionControl draw1 _ _ _ _ _) as [c1 h1].
    destruct (selectCharacterWithRepetitionControl draw2 _ _ _ _ _) as [c2 h2].
    simpl in E, HR''. subst c2. repeat split; assumption.
Qed.

Lemma foldl_sim {A : Type} (f1 : MapperState (G := G1) -> A -> MapperState (G := G1))
    (f2 : MapperState (G := G2) -> A -> MapperState (G := G2)) (l : list A) :
  (forall s1 s2 x, stateSim R s1 s2 -> stateSim R (f1 s1 x) (f2 s2 x)) ->
  forall s1 s2, stateSim R s1 s2 -> stateSim R (foldl f1 s1 l) (foldl f2 s2 l).
Proof.
  intros Hf. induction l as [|x l IH]; intros s1 s2 Hs; simpl; auto.
Qed.

Lemma fillPosition_sim activeSets length maxRepetitions s1 s2 i :
  stateSim R s1 s2 ->
  stateSim R (fillPosition draw1 activeSets length maxRepetitions s1 i)
             (fillPosition draw2 activeSets length maxRepetitions s2 i).
Proof.
  intros (Hp & Hu & Hc & HR). unfold fillPosition. rewrite <- Hp, <- Hu, <- Hc.
  destruct (bool_decide _); [repeat split; assumption|].
  draw_both (i * 500) (generator s1) (generator s2) HR.
  destruct (selectSet activeSets length h1) as [selectedSet|];
    [|repeat split; assumption].
  destruct (select_sim (CharacterSet.chars selectedSet) (characterUsage s1)
              maxRepetitions (i * 600) _ _ HR') as [E HR''].
  destruct (selectCharacterWithRepetitionControl draw1 _ _ _ _ _) as [c1 k1].
  destruct (selectCharacterWithRepetitionControl draw2 _ _ _ _ _) as [c2 k2].
  simpl in E, HR''. subst c2. repeat split; assumption.
Qed.

Lemma shuffleStep_sim s1 s2 i :
  stateSim R s1 s2 ->
  stateSim R (shuffleStep draw1 s1 i) (shuffleStep draw2 s2 i).
Proof.
  intros (Hp & Hu & Hc & HR). unfold shuffleStep. rewrite <- Hp, <- Hu, <- Hc.
  draw_both (i * 400) (generator s1) (generator s2) HR.
  repeat split; assumption.
Qed.

(** Run over two generators that answer every draw alike, the three
    passes build the same password array. *)
Lemma runPasses_sim g1 g2 length options :
  R g1 g2 ->
  stateSim R (runPasses draw1 g1 length options)
             (runPasses draw2 g2 length options).
Proof.
  intros HR. unfold runPasses, shufflePassword, fillRemainingPositions,
    fillPasswordWithDistribution.
  apply foldl_sim; [intros; apply shuffleStep_sim; assumption|].
  apply foldl_sim; [intros; apply fillPosition_sim; assumption|].
  apply foldl_sim.
  - intros s1 s2 set Hs. unfold placeSet.
    apply foldl_sim; [intros; apply placeSlot_sim; assumption | assumption].
  - repeat split; assumption.
Qed.

End GeneratorSimulation.

(** C5. A draw [getHashValue(seed)] on a non-empty hash of length [L] reads
    the three characters at [(offset + seed) mod L], [(offset + seed + 1)
    mod L] and [(offset + seed + 2) mod L], moves the cursor to [(offset + 3)
    mod L] whatever the seed, and returns their value as a hexadecimal
    number, or 1 when that value is 0 or the characters are no hexadecimal
    number; on a digest the value is [256 d1 + 16 d2 + d3] for the three
    digits read. Placement, character selection, fill and shuffle use the
    generator through its draws only: any generator that answers every draw
    like [getHashValue] gives the same password (and the same error for a
    length that is no array length). *)
Theorem getHashValue_contract (hash : jsstring) (seed offset : Z) :
  hash <> [] -> 0 <= seed -> 0 <= offset ->
  let L := Z.of_nat (length hash) in
  (exists c1 c2 c3,
      hash !! Z.to_nat ((offset + seed) mod L) = Some c1
      /\ hash !! Z.to_nat ((offset + seed + 1) mod L) = Some c2
      /\ hash !! Z.to_nat ((offset + seed + 2) mod L) = Some c3
      /\ (getHashValue hash seed offset).2 = (offset + 3) mod L
      /\ (getHashValue hash seed offset).1
         = match parseInt16 [c1; c2; c3] with
           | Some 0 | None => 1
           | Some v => v
           end
      /\ (isDigest hash ->
          exists d1 d2 d3,
            hexValue c1 = Some d1 /\ hexValue c2 = Some d2 /\ hexValue c3 = Some d3
            /\ parseInt16 [c1; c2; c3] = Some (256 * d1 + 16 * d2 + d3)))
  /\ (forall (G : Type) (draw : Z -> G -> Z * G) (R : Z -> G -> Prop) (g : G),
        (forall s o g', R o g' ->
           (getHashValue hash s o).1 = (draw s g').1
           /\ R (getHashValue hash s o).2 (draw s g').2) ->
        R 0 g ->
        forall length options,
          hashToPassword hash length options
          = if (length <? 0) || (4294967295 <? length)
            then Throw "Invalid array length"
            else Ok (arrayJoin (password (runPasses draw g length options)) length)).
Proof.
  intros Hne Hseed Hoff L. split.
  - destruct (getHashValue_reads hash seed offset Hne Hseed Hoff)
      as (c1 & c2 & c3 & E1 & E2 & E3 & E).
    exists c1, c2, c3. fold L in E. rewrite E. simpl.
    repeat split; try assumption.
    intros Hd.
    destruct (parseInt16_digits c1 c2 c3) as (d1 & d2 & d3 & ? & ? & ? & _ & _ & _ & P);
      eauto 10 using isDigest_lookup.
  - intros G draw R g Hsim HR length options.
    unfold hashToPassword.
    destruct ((length <? 0) || (4294967295 <? length)); [reflexivity|].
    pose proof (runPasses_sim (getHashValue hash) draw R Hsim 0 g length options HR)
      as (Hp & _).
    change (afterShuffle hash length options)
      with (runPasses (getHashValue hash) 0 length options).
    rewrite Hp. reflexivity.
Qed.

Lemma getHashValue_contract_witness :
  testDigest <> [] /\ 0 <= 7 /\ 0 <= 126
  /\ (getHashValue testDigest 7 126).2 = 1
  /\ hashToPassword testDigest 16 DEFAULT_PASSWORD_OPTIONS
     = Ok (arrayJoin (password (runPasses (getHashValue testDigest) 0 16
                                  DEFAULT_PASSWORD_OPTIONS)) 16).
Proof.
  assert (testDigest <> []) as Hne by (vm_compute; discriminate).
  destruct (getHashValue_contract testDigest 7 126 Hne ltac:(lia) ltac:(lia))
    as [(c1 & c2 & c3 & _ & _ & _ & Hcursor & _) Honly].
  split; [exact Hne|]. split; [lia|]. split; [lia|]. split.
  - rewrite Hcursor. vm_compute. reflexivity.
  - rewrite (Honly Z (getHashValue testDigest) eq 0); [reflexivity| |reflexivity].
    intros s o g' <-. split; reflexivity.
Defined.

(** ** The target distribution *)

Lemma typeCount_setTypeCount (d : TargetDistribution.t) (t u : CharType) (n : Z) :
  typeCount (setTypeCount d t n) u = if decide (u = t) then n else typeCount d u.
Proof. destruct t, u; reflexivity. Qed.

(** [lastLargest] names a class with the largest count, and every class after
    it in the iteration order has a strictly smaller count. *)
Lemma lastLargest_spec (d : TargetDistribution.t) :
  (forall u, typeCount d u <= typeCount d (lastLargest d))
  /\ (forall u, typeIndex (lastLargest d) < typeIndex u ->
                typeCount d u < typeCount d (lastLargest d)).
Proof.
  destruct d as [a b c e]. unfold lastLargest, isLargest, distributionKeys.
  cbn [rev app List.filter forallb typeCount TargetDistribution.uppercase
       TargetDistribution.lowercase TargetDistribution.numbers
       TargetDistribution.symbols].
  rewrite !Z.leb_refl, !andb_true_r. cbn [andb].
  destruct (Z.leb_spec a e), (Z.leb_spec b e), (Z.leb_spec c e); cbn [andb List.hd];
    try (split; intros []; cbn; lia).
  all: destruct (Z.leb_spec a c), (Z.leb_spec b c), (Z.leb_spec e c);
    cbn [andb List.hd]; try (split; intros []; cbn; lia).
  all: destruct (Z.leb_spec a b), (Z.leb_spec c b), (Z.leb_spec e b);
    cbn [andb List.hd]; try (split; intros []; cbn; lia).
  all: destruct (Z.leb_spec b a), (Z.leb_spec c a), (Z.leb_spec e a);
    cbn [andb List.hd]; try (split; intros []; cbn; lia).
  all: lia.
Qed.

Lemma distributionChecked_all :
  forallb (fun options => forallb (distributionChecked options) (seqZ 0 1025))
          allOptions = true.
Proof. vm_compute. reflexivity. Qed.

Lemma allOptions_complete (options : PasswordOptions.t) : In options allOptions.
Proof. destruct options as [[] [] [] []]; cbn; tauto. Qed.

(** C7 (amended). For every class configuration and every length up to 1024,
    the counts before the remainder are those of the length-selected profile
    ([floor(length * weight)], or the equal split when fewer than four
    classes are active); the remainder [length - sum(counts)] is not
    negative and goes entirely to one class with the largest count, the last
    such class in class-iteration order on ties; the result sums to the
    requested length. *)
Theorem targetDistribution_sum (options : PasswordOptions.t) (length : Z) :
  0 <= length <= 1024 ->
  let base := profileDistribution options length in
  let d := calculateTargetDistribution (activeSetsOf options) length in
  let t := lastLargest base in
  (forall u, typeCount base u <= typeCount base t)
  /\ (forall u, typeIndex t < typeIndex u -> typeCount base u < typeCount base t)
  /\ 0 <= length - totalCount base
  /\ (forall u, typeCount d u
                = typeCount base u
                  + (if decide (u = t) then length - totalCount base else 0))
  /\ totalCount d = length.
Proof.
  intros Hlen base d t.
  pose proof distributionChecked_all as A.
  rewrite forallb_forall in A. specialize (A options (allOptions_complete options)).
  rewrite forallb_forall in A.
  assert (In length (seqZ 0 1025)) as Hin
    by (apply list_elem_of_In, elem_of_seqZ; lia).
  specialize (A length Hin). unfold distributionChecked in A.
  apply andb_prop in A. destruct A as [A Hsum].
  apply andb_prop in A. destruct A as [Heq Hrem].
  apply bool_decide_eq_true in Heq. apply Z.leb_le in Hrem. apply Z.eqb_eq in Hsum.
  fold base in Heq, Hrem. fold d in Heq, Hsum.
  destruct (lastLargest_spec base) as [Hmax Hlast].
  split; [exact Hmax|]. split; [exact Hlast|]. split; [exact Hrem|].
  split; [|exact Hsum].
  intros u. rewrite Heq. unfold withRemainder. fold t.
  destruct (Z.ltb_spec 0 (length - totalCount base)).
  - rewrite typeCount_setTypeCount. destruct (decide (u = t)); [subst u|]; lia.
  - destruct (decide (u = t)); lia.
Qed.

Lemma targetDistribution_sum_witness :
  0 <= 9 <= 1024
  /\ totalCount (calculateTargetDistribution (activeSetsOf DEFAULT_PASSWORD_OPTIONS) 9) = 9
  /\ typeCount (calculateTargetDistribution (activeSetsOf DEFAULT_PASSWORD_OPTIONS) 9)
               symbols
     = typeCount (profileDistribution DEFAULT_PASSWORD_OPTIONS 9) symbols
       + (if decide (symbols = lastLargest (profileDistribution DEFAULT_PASSWORD_OPTIONS 9))
          then 9 - totalCount (profileDistribution DEFAULT_PASSWORD_OPTIONS 9) else 0).
Proof.
  assert (0 <= 9 <= 1024) as H by lia.
  destruct (targetDistribution_sum DEFAULT_PASSWORD_OPTIONS 9 H)
    as (_ & _ & _ & Hcount & Hsum).
  split; [exact H|]. split; [exact Hsum | exact (Hcount symbols)].
Defined.

(** C7 as stated fails: with all four classes and length 9 every class gets
    2 and the remainder 1 goes to [symbols], the last of the tied classes,
    where the stated rule gives it to [uppercase], the first. *)
Lemma targetDistribution_tie_counterexample :
  calculateTargetDistribution (activeSetsOf DEFAULT_PASSWORD_OPTIONS) 9
  = TargetDistribution.Build 2 2 2 3
  /\ claimedTargetDistribution DEFAULT_PASSWORD_OPTIONS 9
     = TargetDistribution.Build 3 2 2 2
  /\ calculateTargetDistribution (activeSetsOf DEFAULT_PASSWORD_OPTIONS) 9
     <> claimedTargetDistribution DEFAULT_PASSWORD_OPTIONS 9.
Proof.
  split; [vm_compute; reflexivity|]. split; [vm_compute; reflexivity|].
  vm_compute. discriminate.
Qed.

(** Up to length 179 the binary64 products floor to the exact percentages. *)
Lemma floorMul_exact (length : Z) :
  0 <= length <= 179 ->
  floorMul length PASSWORD_DISTRIBUTION_CONFIG.w020 = length * 20 / 100
  /\ floorMul length PASSWORD_DISTRIBUTION_CONFIG.w025 = length * 25 / 100
  /\ floorMul length PASSWORD_DISTRIBUTION_CONFIG.w035 = length * 35 / 100.
Proof.
  intros H.
  assert (forallb (fun l =>
            (floorMul l PASSWORD_DISTRIBUTION_CONFIG.w020 =? l * 20 / 100)
            && (floorMul l PASSWORD_DISTRIBUTION_CONFIG.w025 =? l * 25 / 100)
            && (floorMul l PASSWORD_DISTRIBUTION_CONFIG.w035 =? l * 35 / 100))
            (seqZ 0 180) = true) as A by (vm_compute; reflexivity).
  rewrite forallb_forall in A.
  specialize (A length ltac:(apply list_elem_of_In, elem_of_seqZ; lia)).
  apply andb_prop in A. destruct A as [A A3].
  apply andb_prop in A. destruct A as [A1 A2].
  apply Z.eqb_eq in A1, A2, A3. auto.
Qed.

(** ** Counting the characters of the password array *)

Lemma countOcc_nil (x : option N) : countOcc x [] = 0.
Proof. reflexivity. Qed.

Lemma countOcc_cons (x y : option N) (l : list (option N)) :
  countOcc x (y :: l) = (if decide (y = x) then 1 else 0) + countOcc x l.
Proof.
  unfold countOcc. rewrite filter_cons.
  destruct (decide (y = x)); simpl; lia.
Qed.

Lemma countOcc_nonneg (x : option N) (l : list (option N)) : 0 <= countOcc x l.
Proof. unfold countOcc. lia. Qed.

(** Writing [y] over the cell [i], which held [old]. *)
Lemma countOcc_insert (x y old : option N) (l : list (option N)) (i : nat) :
  l !! i = Some old ->
  countOcc x (<[i := y]> l)
  = countOcc x l - (if decide (old = x) then 1 else 0)
    + (if decide (y = x) then 1 else 0).
Proof.
  revert i. induction l as [|z l IH]; intros i Hi; [discriminate|].
  destruct i as [|i]; simpl in Hi |- *.
  - injection Hi as ->. rewrite !countOcc_cons. lia.
  - rewrite !countOcc_cons, (IH i Hi). lia.
Qed.

Lemma poolSum_nil (pool : list N) : poolSum pool [] = 0.
Proof. induction pool as [|c pool IH]; simpl; [reflexivity|]. rewrite IH. reflexivity. Qed.

Lemma poolSum_cons (pool : list N) (y : option N) (l : list (option N)) :
  poolSum pool (y :: l) = poolSum pool [y] + poolSum pool l.
Proof.
  induction pool as [|c pool IH]; simpl; [reflexivity|].
  rewrite IH, !countOcc_cons, countOcc_nil. lia.
Qed.

Lemma poolSum_single (pool : list N) (y : option N) :
  NoDup pool -> 0 <= poolSum pool [y] <= 1.
Proof.
  induction 1 as [|c pool Hc Hnd IH]; simpl; [lia|].
  rewrite countOcc_cons, countOcc_nil.
  destruct (decide (y = Some c)) as [->|]; [|lia].
  assert (poolSum pool [Some c] = 0) as ->; [|lia].
  clear IH Hnd. induction pool as [|d pool IH]; simpl; [reflexivity|].
  rewrite countOcc_cons, countOcc_nil.
  destruct (decide (Some c = Some d)) as [E|_].
  - injection E as ->. exfalso. apply Hc. left.
  - rewrite IH; [reflexivity|]. intros H. apply Hc. right. exact H.
Qed.

(** Distinct characters occupy distinct cells. *)
Lemma poolSum_le_length (pool : list N) (l : list (option N)) :
  NoDup pool -> poolSum pool l <= Z.of_nat (length l).
Proof.
  intros Hnd. induction l as [|y l IH]; [rewrite poolSum_nil; simpl; lia|].
  rewrite poolSum_cons. pose proof (poolSum_single pool y Hnd). simpl length. lia.
Qed.

Lemma poolSum_ge (pool : list N) (l : list (option N)) (m : Z) :
  (forall c, c ∈ pool -> m <= countOcc (Some c) l) ->
  Z.of_nat (length pool) * m <= poolSum pool l.
Proof.
  induction pool as [|c pool IH]; intros H; simpl; [lia|].
  assert (m <= countOcc (Some c) l) by (apply H; left).
  assert (Z.of_nat (length pool) * m <= poolSum pool l)
    by (apply IH; intros d Hd; apply H; right; exact Hd).
  lia.
Qed.

Lemma length_cells (password : gmap Z N) (length : Z) :
  List.length (cells password length) = Z.to_nat length.
Proof. unfold cells. rewrite length_fmap, length_seqZ. reflexivity. Qed.

Lemma cells_lookup (password : gmap Z N) (length k : Z) :
  0 <= k < length ->
  cells password length !! Z.to_nat k = Some (password !! k).
Proof.
  intros H. unfold cells. rewrite list_lookup_fmap, lookup_seqZ_lt by lia.
  simpl. f_equal. f_equal. lia.
Qed.

Lemma cells_arraySet (password : gmap Z N) (length k : Z) (v : option N) :
  0 <= k < length ->
  cells (arraySet password k v) length = <[Z.to_nat k := v]> (cells password length).
Proof.
  intros H. apply list_eq. intros i. unfold cells, arraySet.
  destruct (decide (i = Z.to_nat k)) as [->|Hne].
  - rewrite list_lookup_insert_eq by (rewrite length_fmap, length_seqZ; lia).
    rewrite list_lookup_fmap, lookup_seqZ_lt by lia. simpl.
    replace (0 + Z.of_nat (Z.to_nat k)) with k by lia.
    rewrite lookup_partial_alter. rewrite decide_True by reflexivity. reflexivity.
  - rewrite list_lookup_insert_ne by congruence.
    rewrite !list_lookup_fmap.
    destruct (seqZ 0 length !! i) as [j|] eqn:E; [|reflexivity]. simpl.
    apply lookup_seqZ in E. destruct E as [-> _].
    rewrite lookup_partial_alter. rewrite decide_False by lia. reflexivity.
Qed.

Lemma occurrences_omap (c : N) (l : list (option N)) :
  occurrences c (omap id l) = countOcc (Some c) l.
Proof.
  unfold occurrences. induction l as [|y l IH]; [reflexivity|].
  rewrite countOcc_cons. destruct y as [d|].
  - change (omap id (Some d :: l)) with (d :: omap id l).
    rewrite filter_cons. destruct (decide (d = c)) as [->|Hne].
    + rewrite decide_True by reflexivity. simpl length. lia.
    + rewrite decide_False by congruence. lia.
  - change (omap id (None :: l)) with (omap (M := list) id l).
    rewrite decide_False by discriminate. lia.
Qed.

Lemma arrayJoin_cells (password : gmap Z N) (length : Z) :
  arrayJoin password length = omap id (cells password length).
Proof.
  unfold arrayJoin, cells. generalize (seqZ 0 length). intros l.
  induction l as [|i l IH]; [reflexivity|].
  change (omap (fun i => password !! i) (i :: l))
    with (match password !! i with
          | Some c => c :: omap (fun i => password !! i) l
          | None => omap (fun i => password !! i) l
          end).
  rewrite IH. rewrite fmap_cons. destruct (password !! i); reflexivity.
Qed.

(** What the joined password counts is what the cells hold. *)
Lemma occurrences_arrayJoin (c : N) (password : gmap Z N) (length : Z) :
  occurrences c (arrayJoin password length) = countOcc (Some c) (cells password length).
Proof. rewrite arrayJoin_cells. apply occurrences_omap. Qed.

(** ** The invariant of the three passes *)

Lemma jsRem_range (h n : Z) : 0 <= h -> 0 < n -> 0 <= jsRem h n < n.
Proof.
  intros Hh Hn. unfold jsRem. rewrite Z.rem_mod_nonneg by lia.
  apply Z.mod_pos_bound. lia.
Qed.

(** A non-negative draw, reduced modulo the size of a non-empty list,
    indexes one of its elements. *)
Lemma arrayGet_rem {A : Type} (l : list A) (h : Z) :
  0 <= h -> l <> [] ->
  exists x, arrayGet l (jsRem h (Z.of_nat (length l))) = Some x /\ x ∈ l.
Proof.
  intros Hh Hl.
  assert (0 < Z.of_nat (length l)) by (destruct l; [congruence | simpl; lia]).
  pose proof (jsRem_range h (Z.of_nat (length l)) Hh ltac:(lia)) as Hr.
  unfold arrayGet. destruct (Z.ltb_spec (jsRem h (Z.of_nat (length l))) 0); [lia|].
  destruct (lookup_lt_is_Some_2 l (Z.to_nat (jsRem h (Z.of_nat (length l)))))
    as [x Hx]; [lia|].
  exists x. split; [exact Hx|]. eapply list_elem_of_lookup_2. exact Hx.
Qed.

Lemma foldl_min_spec (l : list Z) (a : Z) :
  (foldl Z.min a l = a \/ foldl Z.min a l ∈ l)
  /\ foldl Z.min a l <= a
  /\ (forall x, x ∈ l -> foldl Z.min a l <= x).
Proof.
  revert a. induction l as [|y l IH]; intros a; simpl.
  - split; [left; reflexivity|]. split; [lia|]. intros x Hx. inversion Hx.
  - destruct (IH (Z.min a y)) as (Hin & Hle & Hall). split; [|split].
    + destruct Hin as [E|Hin]; [|right; right; exact Hin].
      rewrite E. destruct (Z.min_spec a y) as [[_ ->]|[_ ->]];
        [left; reflexivity | right; left].
    + lia.
    + intros x Hx. apply elem_of_cons in Hx. destruct Hx as [->|Hx]; [lia|].
      apply Hall. exact Hx.
Qed.

Lemma mathMin_spec (l : list Z) :
  l <> [] ->
  exists m, mathMin l = Some m /\ m ∈ l /\ (forall x, x ∈ l -> m <= x).
Proof.
  destruct l as [|a l]; [congruence|]. intros _. simpl.
  destruct (foldl_min_spec l a) as (Hin & Hle & Hall).
  exists (foldl Z.min a l). split; [reflexivity|]. split.
  - destruct Hin as [->|Hin]; [left | right; exact Hin].
  - intros x Hx. apply elem_of_cons in Hx. destruct Hx as [->|Hx]; [lia|].
    apply Hall. exact Hx.
Qed.

Lemma usageOf_recordUse (usage : gmap N Z) (c d : N) :
  usageOf (recordUse usage (Some c)) d
  = if decide (d = c) then usageOf usage c + 1 else usageOf usage d.
Proof.
  unfold recordUse, usageOf at 1.
  destruct (decide (d = c)) as [->|Hne].
  - rewrite lookup_insert_eq. reflexivity.
  - rewrite lookup_insert_ne by congruence. reflexivity.
Qed.

Lemma firstFree_Some (len : Z) (used : gset Z) (j : Z) :
  firstFree len used = Some j -> 0 <= j < len /\ j ∉ used.
Proof.
  unfold firstFree. intros H. apply find_some in H. destruct H as [Hin Hfree].
  apply list_elem_of_In, elem_of_seqZ in Hin.
  apply bool_decide_eq_true in Hfree. split; [lia | exact Hfree].
Qed.

Lemma firstFree_None (len : Z) (used : gset Z) :
  firstFree len used = None -> forall j, 0 <= j < len -> j ∈ used.
Proof.
  unfold firstFree. intros H j Hj.
  pose proof (find_none _ _ H j) as Hn.
  assert (In j (seqZ 0 len)) as Hin by (apply list_elem_of_In, elem_of_seqZ; lia).
  specialize (Hn Hin). apply bool_decide_eq_false in Hn.
  destruct (decide (j ∈ used)); [assumption | contradiction].
Qed.

Section MapperInvariant.

Context {G : Type}.
Variable draw : Z -> G -> Z * G.

(** The states of the generator that can be reached, and what a draw from
    one of them is known to give: a non-negative value. *)
Variable good : G -> Prop.
Hypothesis draw_good : forall seed g,
  0 <= seed -> good g -> 0 <= (draw seed g).1 /\ good (draw seed g).2.

Variable len : Z.
Variable maxRep : Z.
Hypothesis len_pos : 0 < len.
Hypothesis maxRep_nonneg : 0 <= maxRep.
Hypothesis budget_room : len < 10 * (maxRep + 1).

Local Abbreviation Inv := (Inv good len maxRep).
Local Abbreviation PlaceInv := (PlaceInv good len maxRep).
Local Abbreviation FillInv := (FillInv good len maxRep).
Local Abbreviation ShuffleInv := (ShuffleInv good len).

(** The selection always returns a character of the pool, taken before it
    has exceeded the budget. *)
Lemma select_ok (pool : list N) (usage : gmap N Z) (l : list (option N))
    (seed : Z) (g : G) :
  goodPool pool -> good g -> 0 <= seed ->
  (forall c, usageOf usage c = countOcc (Some c) l) ->
  Z.of_nat (length l) <= len ->
  exists c g',
    selectCharacterWithRepetitionControl draw pool usage maxRep seed g = (Some c, g')
    /\ good g' /\ c ∈ pool /\ usageOf usage c <= maxRep.
Proof.
  intros [Hnd Hsize] Hg Hseed Husage Hl.
  unfold selectCharacterWithRepetitionControl.
  destruct (decide _) as [Hsome|Hnone].
  - destruct (draw_good seed g Hseed Hg) as [Hh Hg'].
    destruct (draw seed g) as [h g']. simpl in Hh, Hg'.
    destruct (arrayGet_rem
                (filter (fun char => usageOf usage char < maxRep) pool) h Hh)
      as (c & Hc & Hin); [intros E; rewrite E in Hsome; simpl in Hsome; lia|].
    apply list_elem_of_filter in Hin. destruct Hin as [Hlt Hin].
    exists c, g'. rewrite Hc. repeat split; try assumption. lia.
  - assert (forall c, c ∈ pool -> maxRep <= usageOf usage c) as Hall.
    { intros c Hc. destruct (Z.lt_ge_cases (usageOf usage c) maxRep) as [Hlt|]; [|lia].
      exfalso. apply Hnone.
      assert (c ∈ filter (fun char => usageOf usage char < maxRep) pool) as Hin
        by (apply list_elem_of_filter; split; assumption).
      destruct (filter _ pool); [inversion Hin | simpl; lia]. }
    assert (pool <> []) as Hpool by (intros E; rewrite E in Hsize; simpl in Hsize; lia).
    destruct (mathMin_spec (usageOf usage <$> pool)) as (m & Hm & Hmin & Hle);
      [destruct pool; [congruence | discriminate]|].
    rewrite Hm.
    apply list_elem_of_fmap in Hmin. destruct Hmin as (c0 & Hc0 & Hc0in).
    assert (0 <= seed + 1000) as Hseed' by lia.
    destruct (draw_good (seed + 1000) g Hseed' Hg) as [Hh Hg'].
    destruct (draw (seed + 1000) g) as [h g']. simpl in Hh, Hg'.
    destruct (arrayGet_rem
                (filter (fun char => Some (usageOf usage char) = Some m) pool) h Hh)
      as (c & Hc & Hin).
    { intros E.
      assert (c0 ∈ filter (fun char => Some (usageOf usage char) = Some m) pool) as Hin
        by (apply list_elem_of_filter; split; [congruence | assumption]).
      rewrite E in Hin. inversion Hin. }
    apply list_elem_of_filter in Hin. destruct Hin as [Heq Hin].
    injection Heq as Heq.
    exists c, g'. rewrite Hc. repeat split; try assumption.
    (* the least used character cannot be over the budget: the pool would
       fill more cells than the array has *)
    destruct (Z.le_gt_cases (usageOf usage c) maxRep) as [|Hover]; [assumption|].
    exfalso.
    assert (Z.of_nat (length pool) * (maxRep + 1) <= poolSum pool l) as Hlow.
    { apply poolSum_ge. intros d Hd. rewrite <- Husage.
      assert (m <= usageOf usage d)
        by (apply Hle, list_elem_of_fmap; exists d; split; [reflexivity | assumption]).
      lia. }
    pose proof (poolSum_le_length pool l Hnd) as Hup.
    assert (10 * (maxRep + 1) <= Z.of_nat (length pool) * (maxRep + 1))
      by (apply Z.mul_le_mono_nonneg_r; lia).
    lia.
Qed.

Lemma Inv_generator (st : MapperState (G := G)) (g : G) :
  Inv st -> good g ->
  Inv (MkState (password st) (usedPositions st) (characterUsage st) g).
Proof. intros (_ & H2 & H3 & H4) Hg. exact (conj Hg (conj H2 (conj H3 H4))). Qed.

(** Writing a selected character into a hole keeps the invariant. *)
Lemma Inv_write (st : MapperState (G := G)) (p : Z) (c : N) (used : gset Z) (g : G) :
  Inv st -> good g -> 0 <= p < len -> password st !! p = None ->
  usageOf (characterUsage st) c <= maxRep ->
  Inv (MkState (arraySet (password st) p (Some c)) used
               (recordUse (characterUsage st) (Some c)) g).
Proof.
  intros (_ & Hkeys & Hcount & Hmax) Hg Hp Hhole Hc.
  split; [exact Hg|]. split; [|split]; cbn [password characterUsage].
  - intros k Hk. unfold arraySet in Hk. rewrite lookup_partial_alter in Hk.
    destruct (decide (p = k)); [lia | apply Hkeys; exact Hk].
  - intros d. rewrite usageOf_recordUse, cells_arraySet by exact Hp.
    rewrite (countOcc_insert _ _ None)
      by (rewrite cells_lookup by exact Hp; rewrite Hhole; reflexivity).
    rewrite !Hcount.
    destruct (decide (None = Some d)) as [?|_]; [discriminate|].
    destruct (decide (d = c)) as [->|Hne].
    + destruct (decide (Some c = Some c)); [lia | congruence].
    + destruct (decide (Some c = Some d)); [congruence | lia].
  - intros d. rewrite usageOf_recordUse.
    destruct (decide (d = c)); [lia | apply Hmax].
Qed.

(** The probe ends on a position of the array; unless it used up its
    [2 * len] attempts, the position is free. *)
Lemma probePosition_ok (fuel : nat) (code i : Z) (used : gset Z) (attempts : Z) (g : G) :
  good g -> 0 <= code * 1000 + i * 100 -> 0 <= attempts ->
  len * 2 <= attempts + Z.of_nat fuel + 1 ->
  exists p a g',
    probePosition draw fuel code i len used attempts g = (p, a, g')
    /\ good g' /\ 0 <= p < len /\ (p ∉ used \/ len * 2 <= a).
Proof.
  revert attempts g. induction fuel as [|fuel IH]; intros attempts g Hg Hseed Ha Hfuel;
    simpl.
  - destruct (draw_good (code * 1000 + i * 100 + attempts) g ltac:(lia) Hg) as [Hh Hg'].
    destruct (draw _ g) as [h g']. simpl in Hh, Hg'.
    exists (jsRem h len), (attempts + 1), g'.
    split; [reflexivity|]. split; [exact Hg'|].
    split; [apply jsRem_range; lia | right; lia].
  - destruct (draw_good (code * 1000 + i * 100 + attempts) g ltac:(lia) Hg) as [Hh Hg'].
    destruct (draw _ g) as [h g']. simpl in Hh, Hg'.
    destruct (bool_decide (jsRem h len ∈ used) && (attempts + 1 <? len * 2)) eqn:E.
    + apply IH; [assumption | assumption | lia | lia].
    + exists (jsRem h len), (attempts + 1), g'.
      split; [reflexivity|]. split; [exact Hg'|].
      split; [apply jsRem_range; lia|].
      apply andb_false_iff in E. destruct E as [E|E].
      * left. apply bool_decide_eq_false in E. exact E.
      * right. apply Z.ltb_ge in E. lia.
Qed.

Lemma typeCode_nonneg (t : CharType) : 0 <= typeCode t.
Proof. destruct t; simpl; lia. Qed.

Lemma placeSlot_ok (set : CharacterSet.t) (st : MapperState (G := G)) (i : Z) :
  goodPool (CharacterSet.chars set) -> 0 <= i -> PlaceInv st ->
  PlaceInv (placeSlot draw set len maxRep st i).
Proof.
  intros Hpool Hi [HInv Hused]. unfold placeSlot.
  pose proof (typeCode_nonneg (CharacterSet.type set)) as Hcode.
  destruct (probePosition_ok (Z.to_nat (len * 2)) (typeCode (CharacterSet.type set))
              i (usedPositions st) 0 (generator st))
    as (p & a & g' & E & Hg' & Hp & _);
    [apply HInv | lia | lia | lia |].
  rewrite E.
  set (position := if len * 2 <=? a
                   then default p (firstFree len (usedPositions st)) else p).
  assert (0 <= position < len) as Hpos.
  { unfold position. destruct (len * 2 <=? a); [|exact Hp].
    destruct (firstFree len (usedPositions st)) as [j|] eqn:Ej; [|exact Hp].
    apply firstFree_Some in Ej. simpl. lia. }
  destruct (bool_decide (position ∈ usedPositions st)) eqn:Efree.
  - split; [apply Inv_generator; assumption | exact Hused].
  - apply bool_decide_eq_false in Efree.
    assert (password st !! position = None) as Hhole.
    { destruct (password st !! position) eqn:Ep; [|reflexivity].
      exfalso. apply Efree, Hused. eauto. }
    pose proof HInv as (Hg & Hkeys & Hcount & Hmax).
    destruct (select_ok (CharacterSet.chars set) (characterUsage st)
                (cells (password st) len)
                (typeCode (CharacterSet.type set) * 2000 + i * 300) g')
      as (c & g'' & Es & Hg'' & Hc & Hle);
      [assumption | assumption | lia | assumption | rewrite length_cells; lia |].
    rewrite Es. split.
    + apply Inv_write; assumption.
    + intros k. cbn [usedPositions password]. unfold arraySet.
      rewrite lookup_partial_alter, elem_of_union, elem_of_singleton, Hused.
      destruct (decide (position = k)) as [->|Hne].
      * split; [eauto | left; reflexivity].
      * split; [intros [->|H]; [congruence | exact H] | right; assumption].
Qed.

Lemma foldl_preserves {A S : Type} (P : S -> Prop) (f : S -> A -> S) (l : list A) :
  (forall st x, x ∈ l -> P st -> P (f st x)) ->
  forall st, P st -> P (foldl f st l).
Proof.
  induction l as [|x l IH]; intros Hf st Hst; simpl; [exact Hst|].
  apply IH.
  - intros st' y Hy. apply Hf. right. exact Hy.
  - apply Hf; [left | exact Hst].
Qed.

Lemma placement_ok (activeSets : list CharacterSet.t)
    (targetDistribution : TargetDistribution.t) (st : MapperState (G := G)) :
  (forall set, set ∈ activeSets -> goodPool (CharacterSet.chars set)) ->
  PlaceInv st ->
  PlaceInv (fillPasswordWithDistribution draw activeSets targetDistribution
              len maxRep st).
Proof.
  intros Hpools Hst. unfold fillPasswordWithDistribution.
  apply foldl_preserves; [|exact Hst].
  intros st' set Hset Hst'. unfold placeSet.
  apply foldl_preserves; [|exact Hst'].
  intros st'' i Hi Hst''. apply elem_of_seqZ in Hi.
  apply placeSlot_ok; [apply Hpools; exact Hset | lia | exact Hst''].
Qed.

Lemma pickSet_elem (sets : list CharacterSet.t) (setWeights : list Z)
    (selectedWeight : Z) (set : CharacterSet.t) :
  pickSet sets setWeights selectedWeight = Some set -> set ∈ sets.
Proof.
  revert setWeights selectedWeight.
  induction sets as [|s sets IH]; intros [|w ws] r H; simpl in H; try discriminate.
  destruct (r - w <=? 0).
  - injection H as ->. left.
  - right. eapply IH. exact H.
Qed.

Lemma selectSet_elem (activeSets : list CharacterSet.t) (h : Z) :
  activeSets <> [] ->
  exists set, selectSet activeSets len h = Some set /\ set ∈ activeSets.
Proof.
  intros Hne. unfold selectSet. destruct activeSets as [|first rest]; [congruence|].
  destruct (pickSet (first :: rest) _ _) as [set|] eqn:E.
  - exists set. split; [reflexivity|]. eapply pickSet_elem. exact E.
  - exists first. split; [reflexivity | left].
Qed.

Lemma fillPosition_ok (activeSets : list CharacterSet.t)
    (st0 st : MapperState (G := G)) (i : Z) :
  activeSets <> [] ->
  (forall set, set ∈ activeSets -> goodPool (CharacterSet.chars set)) ->
  0 <= i < len -> FillInv st0 i st ->
  FillInv st0 (i + 1) (fillPosition draw activeSets len maxRep st i).
Proof.
  intros Hne Hpools Hi (HInv & Hused & Hfilled & Hkept). unfold fillPosition.
  rewrite Hused.
  destruct (bool_decide (i ∈ usedPositions st0)) eqn:Ei.
  - apply bool_decide_eq_true in Ei.
    split; [exact HInv|]. split; [exact Hused|]. split; [|exact Hkept].
    intros k. rewrite Hfilled. split; intros [Hk Hc]; (split; [exact Hk|]).
    + destruct Hc; [left; assumption | right; lia].
    + destruct Hc as [Hc|Hc]; [left; assumption|].
      destruct (decide (k = i)) as [->|]; [left; assumption | right; lia].
  - apply bool_decide_eq_false in Ei.
    pose proof HInv as (Hg & Hkeys & Hcount & Hmax).
    destruct (draw_good (i * 500) (generator st) ltac:(lia) Hg) as [Hh Hg'].
    destruct (draw (i * 500) (generator st)) as [h g']. simpl in Hh, Hg'.
    destruct (selectSet_elem activeSets h Hne) as (set & Eset & Hset).
    rewrite Eset.
    destruct (select_ok (CharacterSet.chars set) (characterUsage st)
                (cells (password st) len) (i * 600) g')
      as (c & g'' & Es & Hg'' & Hc & Hle);
      [apply Hpools; exact Hset | assumption | lia | assumption
      | rewrite length_cells; lia |].
    rewrite Es.
    assert (password st !! i = None) as Hhole.
    { destruct (password st !! i) eqn:Ep; [|reflexivity].
      exfalso. assert (is_Some (password st !! i)) as HS by (rewrite Ep; eauto).
      apply Hfilled in HS. destruct HS as [_ [?|?]]; [contradiction | lia]. }
    split; [apply Inv_write; assumption|].
    split; [reflexivity|]. cbn [password]. unfold arraySet. split.
    + intros k. rewrite lookup_partial_alter.
      destruct (decide (i = k)) as [->|Hne'].
      * split; [intros _; split; [lia | right; lia] | eauto].
      * rewrite Hfilled. split; intros [Hk Hcase]; (split; [exact Hk|]);
          (destruct Hcase; [left; assumption | right; lia]).
    + intros k Hk. rewrite lookup_partial_alter.
      destruct (decide (i = k)) as [->|]; [contradiction|]. apply Hkept. exact Hk.
Qed.

Lemma fill_prefix_ok (activeSets : list CharacterSet.t)
    (st0 : MapperState (G := G)) (n : nat) :
  activeSets <> [] ->
  (forall set, set ∈ activeSets -> goodPool (CharacterSet.chars set)) ->
  PlaceInv st0 -> Z.of_nat n <= len ->
  FillInv st0 (Z.of_nat n)
    (foldl (fillPosition draw activeSets len maxRep) st0 (seqZ 0 (Z.of_nat n))).
Proof.
  intros Hne Hpools [HInv Hused] Hn. induction n as [|n IH].
  - simpl. split; [exact HInv|]. split; [reflexivity|]. split; [|reflexivity].
    intros k. rewrite <- Hused. split.
    + intros Hk. split; [|left; exact Hk].
      destruct HInv as (_ & Hkeys & _). apply Hkeys. apply Hused. exact Hk.
    + intros [Hr [Hk|Hk]]; [exact Hk | lia].
  - rewrite seqZ_S, foldl_app. simpl foldl.
    replace (Z.of_nat (S n)) with (Z.of_nat n + 1) by lia.
    replace (0 + Z.of_nat n) with (Z.of_nat n) by lia.
    apply fillPosition_ok; [assumption | assumption | lia | apply IH; lia].
Qed.

(** When the fill pass returns, every position of the array is written. *)
Lemma fill_ok (activeSets : list CharacterSet.t) (st0 : MapperState (G := G)) :
  activeSets <> [] ->
  (forall set, set ∈ activeSets -> goodPool (CharacterSet.chars set)) ->
  PlaceInv st0 ->
  FillInv st0 len (fillRemainingPositions draw activeSets len maxRep st0).
Proof.
  intros Hne Hpools Hst0. unfold fillRemainingPositions.
  pose proof (fill_prefix_ok activeSets st0 (Z.to_nat len) Hne Hpools Hst0) as H.
  rewrite Z2Nat.id in H by lia. apply H. lia.
Qed.

Lemma shuffleStep_ok (st0 st : MapperState (G := G)) (i : Z) :
  1 <= i < len -> ShuffleInv st0 st -> ShuffleInv st0 (shuffleStep draw st i).
Proof.
  intros Hi (Hg & Hfilled & Hcount). unfold shuffleStep.
  destruct (draw_good (i * 400) (generator st) ltac:(lia) Hg) as [Hh Hg'].
  destruct (draw (i * 400) (generator st)) as [h g']. simpl in Hh, Hg'.
  pose proof (jsRem_range h (i + 1) Hh ltac:(lia)) as Hj.
  set (j := jsRem h (i + 1)) in *.
  split; [exact Hg'|]. cbn [password]. split.
  - intros k Hk. unfold arraySet. rewrite !lookup_partial_alter.
    destruct (decide (j = k)); [apply Hfilled; lia|].
    destruct (decide (i = k)); [apply Hfilled; lia | apply Hfilled; exact Hk].
  - intros x. rewrite <- Hcount.
    rewrite !cells_arraySet by lia.
    rewrite (countOcc_insert _ _ (password st !! j)).
    + rewrite (countOcc_insert _ _ (password st !! i))
        by (apply cells_lookup; lia).
      lia.
    + destruct (decide (Z.to_nat i = Z.to_nat j)) as [E|Hne].
      * rewrite <- E. apply list_lookup_insert_eq. rewrite length_cells. lia.
      * rewrite list_lookup_insert_ne by exact Hne. apply cells_lookup. lia.
Qed.

Lemma shuffle_ok (st : MapperState (G := G)) :
  good (generator st) ->
  (forall k, 0 <= k < len -> is_Some (password st !! k)) ->
  ShuffleInv st (shufflePassword draw len st).
Proof.
  intros Hg Hfilled. unfold shufflePassword.
  apply foldl_preserves.
  - intros st' i Hi Hst'. apply elem_of_reverse, elem_of_seqZ in Hi.
    apply shuffleStep_ok; [lia | exact Hst'].
  - split; [exact Hg|]. split; [exact Hfilled | reflexivity].
Qed.

Lemma countOcc_cells_empty (c : N) : countOcc (Some c) (cells ∅ len) = 0.
Proof.
  unfold cells. generalize (seqZ 0 len). intros l.
  induction l as [|i l IH]; [reflexivity|].
  rewrite fmap_cons, countOcc_cons, IH, lookup_empty.
  destruct (decide (None = Some c)); [discriminate | reflexivity].
Qed.

Lemma initial_PlaceInv (g : G) : good g -> PlaceInv (MkState ∅ ∅ ∅ g).
Proof.
  intros Hg. split; [split; [exact Hg|split; [|split]]|]; cbn.
  - intros k [x Hx]. rewrite lookup_empty in Hx. discriminate.
  - intros c. rewrite countOcc_cells_empty. reflexivity.
  - intros c. unfold usageOf. rewrite lookup_empty. simpl. lia.
  - intros k. rewrite lookup_empty. split; [intros H; inversion H|].
    intros [x Hx]. discriminate.
Qed.

(** The three passes, run from the initial state: every position is written
    before the shuffle and after it, what the placement wrote is not
    touched by the fill, and no character occurs more than [maxRep + 1]
    times. *)
Lemma passes_ok (activeSets : list CharacterSet.t)
    (targetDistribution : TargetDistribution.t) (g : G) :
  activeSets <> [] ->
  (forall set, set ∈ activeSets -> goodPool (CharacterSet.chars set)) ->
  good g ->
  let placed := fillPasswordWithDistribution draw activeSets targetDistribution
                  len maxRep (MkState ∅ ∅ ∅ g) in
  let filled := fillRemainingPositions draw activeSets len maxRep placed in
  let shuffled := shufflePassword draw len filled in
  (forall k, 0 <= k < len -> is_Some (password filled !! k))
  /\ (forall k, k ∈ usedPositions placed ->
                is_Some (password placed !! k)
                /\ password filled !! k = password placed !! k)
  /\ (forall k, 0 <= k < len -> is_Some (password shuffled !! k))
  /\ (forall c, countOcc (Some c) (cells (password shuffled) len) <= maxRep + 1).
Proof.
  intros Hne Hpools Hg placed filled shuffled.
  assert (PlaceInv placed) as Hplaced
    by (apply placement_ok; [exact Hpools | apply initial_PlaceInv; exact Hg]).
  destruct (fill_ok activeSets placed Hne Hpools Hplaced)
    as (HInv & _ & Hfilled & Hkept). fold filled in HInv, Hfilled, Hkept.
  assert (forall k, 0 <= k < len -> is_Some (password filled !! k)) as Hall.
  { intros k Hk. apply Hfilled. split; [exact Hk|].
    destruct (decide (k ∈ usedPositions placed)); [left; assumption | right; lia]. }
  destruct (shuffle_ok filled (proj1 HInv) Hall) as (_ & Hall' & Hsame).
  fold shuffled in Hall', Hsame.
  split; [exact Hall|]. split; [|split; [exact Hall'|]].
  - intros k Hk. split; [apply Hplaced; exact Hk | apply Hkept; exact Hk].
  - intros c. rewrite Hsame. destruct HInv as (_ & _ & Hcount & Hmax).
    rewrite <- Hcount. apply Hmax.
Qed.

End MapperInvariant.

(** ** The mapper on a digest *)

Lemma calculateMaxRepetitions_budget (length : Z) :
  calculateMaxRepetitions length = RepetitionBudget length.
Proof.
  unfold calculateMaxRepetitions, RepetitionBudget.
  destruct (Z.leb_spec length 8), (decide (length <= 8)); try lia.
  destruct (Z.leb_spec length 16), (decide (length <= 16)); try lia.
  destruct (Z.leb_spec length 32), (decide (length <= 32)); try lia.
Qed.

Lemma calculateMaxRepetitions_room (length : Z) :
  2 <= calculateMaxRepetitions length
  /\ length < 10 * (calculateMaxRepetitions length + 1).
Proof.
  unfold calculateMaxRepetitions.
  pose proof (Z.div_mod length 8 ltac:(lia)).
  pose proof (Z.mod_pos_bound length 8 ltac:(lia)).
  pose proof (Z.div_mod length 10 ltac:(lia)).
  pose proof (Z.mod_pos_bound length 10 ltac:(lia)).
  destruct (Z.leb_spec length 8); [lia|].
  destruct (Z.leb_spec length 16); [lia|].
  destruct (Z.leb_spec length 32); lia.
Qed.

Lemma activeSetsOf_nonempty (options : PasswordOptions.t) : activeSetsOf options <> [].
Proof. destruct options as [[] [] [] []]; discriminate. Qed.

Lemma activeSetsOf_subset (options : PasswordOptions.t) (set : CharacterSet.t) :
  set ∈ activeSetsOf options -> set ∈ allSets.
Proof.
  destruct options as [[] [] [] []]; unfold activeSetsOf, allSets;
    cbn [PasswordOptions.includeUppercase PasswordOptions.includeLowercase
         PasswordOptions.includeNumbers PasswordOptions.includeSymbols app];
    rewrite !elem_of_cons, ?elem_of_nil; tauto.
Qed.

Lemma goodPool_checked (pool : list N) :
  bool_decide (NoDup pool) && (10 <=? length pool)%nat = true -> goodPool pool.
Proof.
  intros H. apply andb_prop in H. destruct H as [H1 H2]. split.
  - apply bool_decide_eq_true in H1. exact H1.
  - apply Nat.leb_le in H2. exact H2.
Qed.

Lemma allSets_goodPool (set : CharacterSet.t) :
  set ∈ allSets -> goodPool (CharacterSet.chars set).
Proof.
  unfold allSets. rewrite !elem_of_cons, elem_of_nil.
  intros [->|[->|[->|[->|[]]]]]; apply goodPool_checked; vm_compute; reflexivity.
Qed.

Lemma activeSetsOf_goodPool (options : PasswordOptions.t) (set : CharacterSet.t) :
  set ∈ activeSetsOf options -> goodPool (CharacterSet.chars set).
Proof. intros H. apply allSets_goodPool, (activeSetsOf_subset options). exact H. Qed.

Lemma digest_draw_good (hash : jsstring) :
  isDigest hash ->
  forall seed offset, 0 <= seed -> 0 <= offset ->
    0 <= (getHashValue hash seed offset).1 /\ 0 <= (getHashValue hash seed offset).2.
Proof.
  intros Hd seed offset Hs Ho.
  destruct (getHashValue_digest_range hash seed offset Hd Hs Ho). lia.
Qed.

(** All cells written: the joined password has the requested length. *)
Lemma length_arrayJoin (password : gmap Z N) (length : Z) :
  (forall k, 0 <= k < length -> is_Some (password !! k)) ->
  Z.of_nat (List.length (arrayJoin password length)) = Z.max 0 length.
Proof.
  intros Hall. unfold arrayJoin.
  assert (forall k, k ∈ seqZ 0 length -> is_Some (password !! k)) as H
    by (intros k Hk; apply elem_of_seqZ in Hk; apply Hall; lia).
  rewrite <- (Z2Nat.id (Z.max 0 length)) by lia.
  replace (Z.to_nat (Z.max 0 length)) with (List.length (seqZ 0 length))
    by (rewrite length_seqZ; lia).
  f_equal. revert H. generalize (seqZ 0 length). intros l H.
  induction l as [|i l IH]; [reflexivity|].
  destruct (H i ltac:(left)) as [c Hc].
  change (omap (fun i => password !! i) (i :: l))
    with (match password !! i with
          | Some c => c :: omap (fun i => password !! i) l
          | None => omap (fun i => password !! i) l
          end).
  rewrite Hc. simpl. f_equal. apply IH. intros k Hk. apply H. right. exact Hk.
Qed.

(** On a digest, for any positive length and any class configuration: the
    facts of [passes_ok] about the states of [hashToPassword]. *)
Lemma hashToPassword_passes (hash : jsstring) (length : Z) (options : PasswordOptions.t) :
  isDigest hash -> 0 < length ->
  (forall k, 0 <= k < length -> is_Some (password (afterFill hash length options) !! k))
  /\ (forall k, k ∈ usedPositions (afterPlacement hash length options) ->
        is_Some (password (afterPlacement hash length options) !! k)
        /\ password (afterFill hash length options) !! k
           = password (afterPlacement hash length options) !! k)
  /\ (forall k, 0 <= k < length ->
        is_Some (password (afterShuffle hash length options) !! k))
  /\ (forall c, countOcc (Some c) (cells (password (afterShuffle hash length options))
                                         length)
                <= calculateMaxRepetitions length + 1).
Proof.
  intros Hd Hlen.
  destruct (calculateMaxRepetitions_room length) as [Hb Hroom].
  apply (passes_ok (getHashValue hash) (fun o => 0 <= o)
           (digest_draw_good hash Hd) length (calculateMaxRepetitions length)
           Hlen ltac:(lia) Hroom (activeSetsOf options)
           (calculateTargetDistribution (activeSetsOf options) length) 0
           (activeSetsOf_nonempty options) (activeSetsOf_goodPool options)).
  lia.
Qed.

Lemma hashToPassword_Ok (hash : jsstring) (length : Z) (options : PasswordOptions.t) :
  0 <= length <= 4294967295 ->
  hashToPassword hash length options
  = Ok (arrayJoin (password (afterShuffle hash length options)) length).
Proof.
  intros H. unfold hashToPassword.
  destruct (Z.ltb_spec length 0); [lia|].
  destruct (Z.ltb_spec 4294967295 length); [lia | reflexivity].
Qed.

(** ** The diversity metrics *)

Lemma occurrences_cons (c char : N) (s : jsstring) :
  occurrences c (char :: s) = (if decide (char = c) then 1 else 0) + occurrences c s.
Proof.
  unfold occurrences. rewrite filter_cons.
  destruct (decide (char = c)); simpl length; lia.
Qed.

Lemma occurrences_nonneg (c : N) (s : jsstring) : 0 <= occurrences c s.
Proof. unfold occurrences. lia. Qed.

Lemma foldl_max_spec (l : list Z) (a : Z) :
  (foldl Z.max a l = a \/ foldl Z.max a l ∈ l)
  /\ a <= foldl Z.max a l
  /\ (forall x, x ∈ l -> x <= foldl Z.max a l).
Proof.
  revert a. induction l as [|y l IH]; intros a; simpl.
  - split; [left; reflexivity|]. split; [lia|]. intros x Hx. inversion Hx.
  - destruct (IH (Z.max a y)) as (Hin & Hle & Hall). split; [|split].
    + destruct Hin as [E|Hin]; [|right; right; exact Hin].
      rewrite E. destruct (Z.max_spec a y) as [[_ ->]|[_ ->]];
        [right; left | left; reflexivity].
    + lia.
    + intros x Hx. apply elem_of_cons in Hx. destruct Hx as [->|Hx]; [lia|].
      apply Hall. exact Hx.
Qed.

(** *** Code points and the [charCount] map *)

Lemma codePoints_ind (P : jsstring -> Prop) :
  P [] ->
  (forall c, P [c]) ->
  (forall c d rest,
     isHighSurrogate c && isLowSurrogate d = true -> P rest -> P (c :: d :: rest)) ->
  (forall c d rest,
     isHighSurrogate c && isLowSurrogate d = false -> P (d :: rest) ->
     P (c :: d :: rest)) ->
  forall s, P s.
Proof.
  intros H0 H1 H2 H3 s.
  assert (forall n (s : jsstring), (length s <= n)%nat -> P s) as H.
  { induction n as [|n IH]; intros [|c [|d rest]] Hlen; simpl in Hlen;
      try exact H0; try apply H1; try lia.
    destruct (isHighSurrogate c && isLowSurrogate d) eqn:E.
    - apply H2; [exact E|]. apply IH. lia.
    - apply H3; [exact E|]. apply IH. simpl. lia. }
  apply (H (length s)). lia.
Qed.

Lemma codePoints_pair (c d : N) (rest : jsstring) :
  isHighSurrogate c && isLowSurrogate d = true ->
  codePoints (c :: d :: rest) = [c; d] :: codePoints rest.
Proof. intros E. simpl. rewrite E. reflexivity. Qed.

Lemma codePoints_single (c d : N) (rest : jsstring) :
  isHighSurrogate c && isLowSurrogate d = false ->
  codePoints (c :: d :: rest) = [c] :: codePoints (d :: rest).
Proof. intros E. cbn [codePoints]. rewrite E. reflexivity. Qed.

(** The code points, put back together, are the string. *)
Lemma codePoints_join (s : jsstring) : mjoin (codePoints s) = s.
Proof.
  induction s as [|c|c d rest E IH|c d rest E IH] using codePoints_ind;
    [reflexivity | reflexivity | |].
  - rewrite codePoints_pair by exact E.
    change (mjoin ([c; d] :: codePoints rest)) with ([c; d] ++ mjoin (codePoints rest)).
    rewrite IH. reflexivity.
  - rewrite codePoints_single by exact E.
    change (mjoin ([c] :: codePoints (d :: rest)))
      with ([c] ++ mjoin (codePoints (d :: rest))).
    rewrite IH. reflexivity.
Qed.

Lemma codePoints_length (s : jsstring) : (length (codePoints s) <= length s)%nat.
Proof.
  induction s as [|c|c d rest E IH|c d rest E IH] using codePoints_ind;
    [simpl; lia | simpl; lia | |].
  - rewrite codePoints_pair by exact E. simpl in *. lia.
  - rewrite codePoints_single by exact E. simpl in *. lia.
Qed.

(** A string without a high surrogate is iterated code unit by code unit. *)
Lemma codePoints_units (s : jsstring) :
  (forall c, c ∈ s -> isHighSurrogate c = false) ->
  codePoints s = (fun c => [c]) <$> s.
Proof.
  induction s as [|c|c d rest E IH|c d rest E IH] using codePoints_ind; intros H;
    [reflexivity | reflexivity | |].
  - exfalso. apply andb_prop in E. destruct E as [E _].
    rewrite (H c ltac:(left)) in E. discriminate.
  - rewrite codePoints_single by exact E. rewrite IH; [reflexivity|].
    intros x Hx. apply H. right. exact Hx.
Qed.

Lemma codePoints_nonempty (password : jsstring) :
  password <> [] -> exists char, char ∈ codePoints password.
Proof.
  destruct password as [|c [|d rest]]; [congruence | |]; intros _.
  - exists [c]. left.
  - cbn [codePoints]. destruct (isHighSurrogate c && isLowSurrogate d); eexists; left.
Qed.

Lemma countTypes_from (l : list jsstring) (d : TargetDistribution.t) :
  totalCount
    (foldl (fun d char =>
              let type := typeOfCodePoint char in
              setTypeCount d type (typeCount d type + 1)) d l)
  = totalCount d + Z.of_nat (length l).
Proof.
  revert d. induction l as [|c l IH]; intros d; [simpl; lia|].
  simpl foldl. rewrite IH.
  destruct d as [a b e f]. destruct (typeOfCodePoint c); unfold totalCount; simpl; lia.
Qed.

Lemma countTypes_type_from (l : list jsstring) (d : TargetDistribution.t)
    (type : CharType) :
  typeCount
    (foldl (fun d char =>
              let type := typeOfCodePoint char in
              setTypeCount d type (typeCount d type + 1)) d l) type
  = typeCount d type
    + Z.of_nat (length (filter (fun char => typeOfCodePoint char = type) l)).
Proof.
  revert d. induction l as [|c l IH]; intros d; [simpl; lia|].
  simpl foldl. rewrite IH, filter_cons, typeCount_setTypeCount.
  destruct (decide (typeOfCodePoint c = type)) as [E|Hne].
  - rewrite decide_True by congruence. simpl length. rewrite E. lia.
  - rewrite decide_False by congruence. lia.
Qed.

Lemma typeOfCodePoint_unit (c : N) : typeOfCodePoint [c] = charClass c.
Proof.
  unfold typeOfCodePoint, testRange, charClass. simpl. rewrite !orb_false_r.
  reflexivity.
Qed.

Lemma mapGet_cons (k : jsstring) (v : Z) (m : list (jsstring * Z)) (key : jsstring) :
  mapGet ((k, v) :: m) key = if decide (k = key) then Some v else mapGet m key.
Proof.
  unfold mapGet. simpl. destruct (decide (k = key)) as [E|Hne].
  - rewrite bool_decide_eq_true_2 by exact E. reflexivity.
  - rewrite bool_decide_eq_false_2 by exact Hne. reflexivity.
Qed.

Lemma mapGet_mapSet (m : list (jsstring * Z)) (k : jsstring) (v : Z) (key : jsstring) :
  mapGet (mapSet m k v) key = if decide (key = k) then Some v else mapGet m key.
Proof.
  induction m as [|[k1 v1] m IH]; simpl.
  - rewrite mapGet_cons. destruct (decide (k = key)), (decide (key = k));
      congruence || reflexivity.
  - destruct (decide (k1 = k)) as [->|Hne].
    + rewrite bool_decide_eq_true_2 by reflexivity. rewrite !mapGet_cons.
      destruct (decide (k = key)), (decide (key = k)); congruence || reflexivity.
    + rewrite bool_decide_eq_false_2 by exact Hne. rewrite !mapGet_cons, IH.
      destruct (decide (k1 = key)), (decide (key = k)); congruence || reflexivity.
Qed.

Lemma mapGet_None (m : list (jsstring * Z)) (key : jsstring) :
  mapGet m key = None <-> key ∉ m.*1.
Proof.
  induction m as [|[k v] m IH]; [split; [intros _ H; inversion H | reflexivity]|].
  rewrite mapGet_cons, fmap_cons, not_elem_of_cons. simpl.
  destruct (decide (k = key)) as [->|Hne].
  - split; [discriminate | intros [H _]; congruence].
  - rewrite IH. split; [intros H; split; [congruence | exact H] | intros [_ H]; exact H].
Qed.

Lemma mapSet_keys (m : list (jsstring * Z)) (k : jsstring) (v : Z) :
  (mapSet m k v).*1 = if decide (k ∈ m.*1) then m.*1 else m.*1 ++ [k].
Proof.
  induction m as [|[k1 v1] m IH]; simpl.
  - destruct (decide (k ∈ [])) as [H|_]; [inversion H | reflexivity].
  - destruct (decide (k1 = k)) as [->|Hne].
    + rewrite bool_decide_eq_true_2 by reflexivity.
      rewrite decide_True by left. reflexivity.
    + rewrite bool_decide_eq_false_2 by exact Hne. rewrite fmap_cons, IH. simpl.
      destruct (decide (k ∈ m.*1)) as [Hin|Hnin].
      * rewrite decide_True by (right; exact Hin). reflexivity.
      * rewrite decide_False; [reflexivity|].
        intros H. apply elem_of_cons in H. destruct H as [E|H]; [congruence|].
        contradiction.
Qed.

(** With distinct keys, the entries are the pairs that [get] returns. *)
Lemma mapGet_entry (m : list (jsstring * Z)) (k : jsstring) (v : Z) :
  NoDup m.*1 -> (k, v) ∈ m <-> mapGet m k = Some v.
Proof.
  induction m as [|[k1 v1] m IH]; intros Hnd.
  - split; [inversion 1 | discriminate].
  - rewrite fmap_cons in Hnd. apply NoDup_cons in Hnd. destruct Hnd as [Hk1 Hnd].
    rewrite elem_of_cons, mapGet_cons, (IH Hnd). simpl in Hk1.
    destruct (decide (k1 = k)) as [->|Hne].
    + split; [intros [[= ->]|H]; [reflexivity|] | intros [= ->]; left; reflexivity].
      exfalso. apply Hk1. apply mapGet_None in Hk1 as E. congruence.
    + split; [intros [[= ? ?]|H]; [congruence | exact H] | intros H; right; exact H].
Qed.

(** The map after counting the code points [l] on top of [m]. *)
Lemma countFrom_get (l : list jsstring) (m : list (jsstring * Z)) (key : jsstring) :
  default 0 (mapGet (foldl (fun charCount char =>
                              mapSet charCount char
                                     (default 0 (mapGet charCount char) + 1)) m l) key)
  = default 0 (mapGet m key) + Z.of_nat (length (filter (fun c => c = key) l)).
Proof.
  revert m. induction l as [|c l IH]; intros m; [simpl; lia|].
  simpl foldl. rewrite IH, mapGet_mapSet, filter_cons.
  destruct (decide (key = c)) as [->|Hne].
  - rewrite decide_True by reflexivity. simpl. lia.
  - rewrite decide_False by congruence. lia.
Qed.

Lemma countFrom_keys (l : list jsstring) (m : list (jsstring * Z)) :
  NoDup m.*1 ->
  let m' := foldl (fun charCount char =>
                     mapSet charCount char (default 0 (mapGet charCount char) + 1))
                  m l in
  NoDup m'.*1 /\ forall key, key ∈ m'.*1 <-> key ∈ m.*1 \/ key ∈ l.
Proof.
  revert m. induction l as [|c l IH]; intros m Hnd; simpl.
  - split; [exact Hnd|]. intros key. split; [auto | intros [H|H]; [exact H | inversion H]].
  - destruct (IH (mapSet m c (default 0 (mapGet m c) + 1))) as [Hnd' Hkeys].
    + rewrite mapSet_keys. destruct (decide (c ∈ m.*1)); [exact Hnd|].
      apply NoDup_app. split; [exact Hnd|]. split; [|apply NoDup_singleton].
      intros x Hx Hx'. apply list_elem_of_singleton in Hx'. congruence.
    + split; [exact Hnd'|]. intros key. rewrite Hkeys, mapSet_keys, elem_of_cons.
      destruct (decide (c ∈ m.*1)) as [Hin|Hnin].
      * split; [intros [H|H]; auto | intros [H|[->|H]]; auto].
      * rewrite elem_of_app, list_elem_of_singleton.
        split; [intros [[H|H]|H]; auto | intros [H|[H|H]]; auto].
Qed.

(** The entries of [charCount]: one for each code point of the password,
    with the number of its occurrences. *)
Lemma countCodePoints_spec (password : jsstring) :
  NoDup (countCodePoints password).*1
  /\ (forall char, char ∈ (countCodePoints password).*1 <-> char ∈ codePoints password)
  /\ (forall char count,
        (char, count) ∈ countCodePoints password
        <-> char ∈ codePoints password
            /\ count = codePointOccurrences char password).
Proof.
  unfold countCodePoints, codePointOccurrences.
  destruct (countFrom_keys (codePoints password) [] (NoDup_nil_2)) as [Hnd Hkeys].
  cbv zeta in Hnd, Hkeys.
  split; [exact Hnd|]. split.
  { intros char. rewrite Hkeys. split; [intros [H|H]; [inversion H | exact H] | auto]. }
  intros char count. rewrite (mapGet_entry _ _ _ Hnd).
  pose proof (countFrom_get (codePoints password) [] char) as Hget.
  change (default 0 (mapGet [] char)) with 0 in Hget. rewrite Z.add_0_l in Hget.
  split.
  - intros E. rewrite E in Hget. simpl in Hget. split; [|exact Hget].
    assert (char ∈ (foldl (fun charCount char0 =>
                             mapSet charCount char0
                                    (default 0 (mapGet charCount char0) + 1))
                          [] (codePoints password)).*1) as Hin.
    { destruct (decide (char ∈ (foldl (fun charCount char0 =>
                             mapSet charCount char0
                                    (default 0 (mapGet charCount char0) + 1))
                          [] (codePoints password)).*1)) as [H|H]; [exact H|].
      apply mapGet_None in H. congruence. }
    apply Hkeys in Hin. destruct Hin as [H|H]; [inversion H | exact H].
  - intros [Hin ->].
    destruct (mapGet _ char) as [v|] eqn:E; [simpl in Hget; congruence|].
    exfalso. apply mapGet_None in E. apply E, Hkeys. right. exact Hin.
Qed.

Lemma codePointOccurrences_nonneg (char password : jsstring) :
  0 <= codePointOccurrences char password.
Proof. unfold codePointOccurrences. lia. Qed.

Lemma codePointOccurrences_pos (char password : jsstring) :
  0 < codePointOccurrences char password <-> char ∈ codePoints password.
Proof.
  unfold codePointOccurrences. split.
  - intros H. destruct (filter _ (codePoints password)) as [|x l] eqn:E;
      [simpl in H; lia|].
    assert (x ∈ filter (fun c => c = char) (codePoints password)) as Hx
      by (rewrite E; left).
    apply list_elem_of_filter in Hx. destruct Hx as [-> Hx]. exact Hx.
  - intros H.
    assert (char ∈ filter (fun c => c = char) (codePoints password)) as Hx
      by (apply list_elem_of_filter; auto).
    destruct (filter _ (codePoints password)); [inversion Hx | simpl; lia].
Qed.

(** The largest count of the map: an upper bound of every code point's
    occurrences, reached by one of them unless the password is empty. *)
Lemma maxActual_spec (password : jsstring) :
  let maxActual := foldl Z.max 0 (countCodePoints password).*2 in
  (forall char, codePointOccurrences char password <= maxActual)
  /\ (maxActual = 0 /\ password = []
      \/ exists char, char ∈ codePoints password
                      /\ maxActual = codePointOccurrences char password).
Proof.
  intros maxActual.
  destruct (countCodePoints_spec password) as (Hnd & Hkeys & Hentries).
  destruct (foldl_max_spec (countCodePoints password).*2 0) as (Hcase & Hge & Hub).
  fold maxActual in Hcase, Hge, Hub. split.
  - intros char.
    destruct (decide (char ∈ codePoints password)) as [Hin|Hnin].
    + apply Hub. apply list_elem_of_fmap.
      exists (char, codePointOccurrences char password). split; [reflexivity|].
      apply Hentries. auto.
    + pose proof (codePointOccurrences_nonneg char password).
      destruct (Z.lt_ge_cases 0 (codePointOccurrences char password)) as [Hpos|]; [|lia].
      apply codePointOccurrences_pos in Hpos. contradiction.
  - destruct Hcase as [E|Hin].
    + destruct (decide (password = [])) as [Hnil|Hne]; [left; auto|].
      right. destruct (codePoints_nonempty password Hne) as [char Hc].
      * exists char. split; [exact Hc|].
        assert (codePointOccurrences char password <= maxActual) as Hle.
        { apply Hub. apply list_elem_of_fmap.
          exists (char, codePointOccurrences char password). split; [reflexivity|].
          apply Hentries. auto. }
        apply codePointOccurrences_pos in Hc. lia.
    + right. apply list_elem_of_fmap in Hin. destruct Hin as ([char count] & E & Hin).
      apply Hentries in Hin. destruct Hin as [Hc ->]. exists char. auto.
Qed.

Lemma mathMax_foldl (l : list Z) :
  l <> [] -> (forall x, x ∈ l -> 0 <= x) -> mathMax l = Some (foldl Z.max 0 l).
Proof.
  destruct l as [|c rest]; [congruence|]. intros _ H. simpl.
  rewrite Z.max_r by (apply H; left). reflexivity.
Qed.

(** A code point begins with a code unit of the string, and occurs as a
    code point no more often than that code unit occurs. *)
Lemma codePoints_cons (password char : jsstring) :
  char ∈ codePoints password -> exists c tail, char = c :: tail.
Proof.
  induction password as [|c|c d rest E IH|c d rest E IH] using codePoints_ind.
  - inversion 1.
  - intros H. apply list_elem_of_singleton in H. eauto.
  - rewrite codePoints_pair by exact E. intros H. apply elem_of_cons in H.
    destruct H as [->|H]; eauto.
  - rewrite codePoints_single by exact E. intros H. apply elem_of_cons in H.
    destruct H as [->|H]; eauto.
Qed.

Lemma codePointOccurrences_le (c : N) (tail password : jsstring) :
  codePointOccurrences (c :: tail) password <= occurrences c password.
Proof.
  unfold codePointOccurrences.
  induction password as [|c0|c0 d rest E IH|c0 d rest E IH] using codePoints_ind.
  - unfold occurrences. simpl. lia.
  - cbn [codePoints]. rewrite filter_cons, filter_nil, occurrences_cons.
    pose proof (occurrences_nonneg c []).
    destruct (decide ([c0] = c :: tail)) as [E|_];
      [|rewrite length_nil; destruct (decide (c0 = c)); lia].
    injection E as -> _. rewrite decide_True by reflexivity.
    rewrite length_cons, length_nil. lia.
  - rewrite codePoints_pair by exact E. rewrite filter_cons, !occurrences_cons.
    destruct (decide ([c0; d] = c :: tail)) as [E'|_].
    + injection E' as -> _. rewrite decide_True by reflexivity.
      rewrite length_cons. destruct (decide (d = c)); lia.
    + destruct (decide (c0 = c)), (decide (d = c)); lia.
  - rewrite codePoints_single by exact E. rewrite filter_cons, occurrences_cons.
    destruct (decide ([c0] = c :: tail)) as [E'|_].
    + injection E' as -> _. rewrite decide_True by reflexivity.
      rewrite length_cons. lia.
    + destruct (decide (c0 = c)); lia.
Qed.

Lemma codePointOccurrences_bounded (password : jsstring) (bound : Z) :
  0 <= bound ->
  (forall c, occurrences c password <= bound) ->
  forall char, codePointOccurrences char password <= bound.
Proof.
  intros H0 Hb char.
  destruct (Z.lt_ge_cases 0 (codePointOccurrences char password)) as [Hpos|]; [|lia].
  apply codePointOccurrences_pos in Hpos.
  destruct (codePoints_cons _ _ Hpos) as (c & tail & ->).
  pose proof (codePointOccurrences_le c tail password). specialize (Hb c). lia.
Qed.

(** The metrics of [calculateCharacterDiversity] on a password that is not
    empty. *)
Lemma calculateCharacterDiversity_unfold (password : jsstring) :
  password <> [] ->
  CharacterDiversity.totalUniqueCharacters (calculateCharacterDiversity password)
  = Z.of_nat (length (countCodePoints password))
  /\ CharacterDiversity.maxRepetitions (calculateCharacterDiversity password)
     = Some (foldl Z.max 0 (countCodePoints password).*2).
Proof.
  intros Hne. unfold calculateCharacterDiversity.
  cbn [CharacterDiversity.totalUniqueCharacters CharacterDiversity.maxRepetitions].
  split; [reflexivity|]. apply mathMax_foldl.
  - destruct (codePoints_nonempty password Hne) as [char Hc].
    assert ((char, codePointOccurrences char password) ∈ countCodePoints password)
      as Hin by (apply countCodePoints_spec; auto).
    intros E. apply fmap_nil_inv in E. rewrite E in Hin. inversion Hin.
  - intros x Hx. apply list_elem_of_fmap in Hx. destruct Hx as ([char v] & -> & Hin).
    apply countCodePoints_spec in Hin. destruct Hin as [_ ->].
    apply codePointOccurrences_nonneg.
Qed.

(** If no code unit occurs more than [bound] times in a password, its
    [maxRepetitions] metric is at most [bound]. *)
Lemma maxRepetitions_bound (password : jsstring) (bound : Z) :
  password <> [] ->
  (forall c, occurrences c password <= bound) ->
  exists m,
    CharacterDiversity.maxRepetitions (calculateCharacterDiversity password) = Some m
    /\ m <= bound.
Proof.
  intros Hne Hb.
  destruct (calculateCharacterDiversity_unfold password Hne) as [_ Hm].
  eexists. split; [exact Hm|].
  destruct (maxActual_spec password) as [_ [[_ E]|(char & Hc & ->)]]; [congruence|].
  destruct (codePoints_cons password char Hc) as (c & tail & ->).
  pose proof (codePointOccurrences_le c tail password). specialize (Hb c). lia.
Qed.

(** A list has at most [m] elements for each of its distinct elements when
    none occurs more than [m] times. *)
Lemma filter_filter_length {A : Type} (P Q : A -> Prop)
    `{forall x, Decision (P x)} `{forall x, Decision (Q x)} (l : list A) :
  (length (filter P (filter Q l)) <= length (filter P l))%nat.
Proof.
  induction l as [|x l IH]; [reflexivity|].
  rewrite !filter_cons. destruct (decide (Q x)), (decide (P x));
    rewrite ?filter_cons; try rewrite decide_True by assumption;
    try rewrite decide_False by assumption; simpl; lia.
Qed.

Lemma length_le_keys (l keys : list jsstring) (m : Z) :
  NoDup keys ->
  (forall x, x ∈ l -> x ∈ keys) ->
  (forall x, Z.of_nat (length (filter (fun y => y = x) l)) <= m) ->
  Z.of_nat (length l) <= Z.of_nat (length keys) * m.
Proof.
  intros Hnd. revert l. induction Hnd as [|k ks Hk Hnd IH]; intros l Hin Hm.
  - destruct l as [|x l]; [simpl; lia|]. specialize (Hin x ltac:(left)). inversion Hin.
  - pose proof (filter_app_complement (fun y => y = k) l) as Hp.
    apply Permutation_length in Hp. rewrite length_app in Hp.
    specialize (IH (filter (fun y => ~ y = k) l)).
    assert (Z.of_nat (length (filter (fun y => ~ y = k) l)) <= Z.of_nat (length ks) * m)
      as Hrest.
    { apply IH.
      - intros x Hx. apply list_elem_of_filter in Hx. destruct Hx as [Hne Hx].
        specialize (Hin x Hx). apply elem_of_cons in Hin. destruct Hin; congruence.
      - intros x. pose proof (filter_filter_length (fun y => y = x) (fun y => ~ y = k) l).
        specialize (Hm x). lia. }
    specialize (Hm k). simpl length. lia.
Qed.

Lemma distinct_bound (password : jsstring) (m : Z) :
  (forall char, codePointOccurrences char password <= m) ->
  Z.of_nat (length (codePoints password))
  <= Z.of_nat (length (countCodePoints password)) * m.
Proof.
  intros Hm. destruct (countCodePoints_spec password) as (Hnd & Hkeys & _).
  rewrite <- (length_fmap fst (countCodePoints password)).
  apply length_le_keys; [exact Hnd | intros x Hx; apply Hkeys; exact Hx | exact Hm].
Qed.

(** [totalUniqueCharacters] is the number of distinct code points. *)
Lemma countCodePoints_length (password : jsstring) :
  length (countCodePoints password) = length (remove_dups (codePoints password)).
Proof.
  destruct (countCodePoints_spec password) as (Hnd & Hkeys & _).
  rewrite <- (length_fmap fst).
  apply Permutation_length, NoDup_Permutation; [exact Hnd | apply NoDup_remove_dups|].
  intros char. rewrite Hkeys, elem_of_remove_dups. reflexivity.
Qed.

(** On a string without a high surrogate the distribution counts the code
    units. *)
Lemma calculateActualDistribution_units (password : jsstring) :
  (forall c, c ∈ password -> isHighSurrogate c = false) ->
  calculateActualDistribution password
  = foldl (fun d char =>
             let type := charClass char in
             setTypeCount d type (typeCount d type + 1))
          (TargetDistribution.Build 0 0 0 0) password.
Proof.
  intros Hs. unfold calculateActualDistribution.
  rewrite (codePoints_units password Hs).
  generalize (TargetDistribution.Build 0 0 0 0). clear Hs.
  induction password as [|c s IH]; intros d; [reflexivity|].
  rewrite fmap_cons. simpl foldl. rewrite typeOfCodePoint_unit. apply IH.
Qed.

(** ** The repetition bound *)

(** C6. For every digest, every length from 8 to 128 and every class
    configuration, [hashToPassword] returns a password of the requested
    length in which no character occurs more than [RepetitionBudget(length)
    + 1] times, so that its [maxRepetitions] metric is at most that; the
    budget the code computes is the [RepetitionBudget] of the
    specification. *)
Theorem repetition_bound (hash : jsstring) (length : Z) (options : PasswordOptions.t) :
  isDigest hash -> 8 <= length <= 128 ->
  calculateMaxRepetitions length = RepetitionBudget length
  /\ exists pw,
       hashToPassword hash length options = Ok pw
       /\ Z.of_nat (List.length pw) = length
       /\ (forall c, occurrences c pw <= RepetitionBudget length + 1)
       /\ exists m,
            CharacterDiversity.maxRepetitions (calculateCharacterDiversity pw) = Some m
            /\ m <= RepetitionBudget length + 1.
Proof.
  intros Hd Hlen. split; [apply calculateMaxRepetitions_budget|].
  destruct (hashToPassword_passes hash length options Hd ltac:(lia))
    as (_ & _ & Hall & Hcount).
  eexists. split; [apply hashToPassword_Ok; lia|].
  assert (Z.of_nat (List.length
            (arrayJoin (password (afterShuffle hash length options)) length)) = length)
    as Hlength by (rewrite length_arrayJoin by exact Hall; lia).
  assert (forall c, occurrences c
            (arrayJoin (password (afterShuffle hash length options)) length)
            <= RepetitionBudget length + 1) as Hocc.
  { intros c. rewrite occurrences_arrayJoin, <- calculateMaxRepetitions_budget.
    apply Hcount. }
  split; [exact Hlength|]. split; [exact Hocc|].
  apply maxRepetitions_bound; [|exact Hocc].
  intros E. rewrite E in Hlength. simpl in Hlength. lia.
Qed.


Lemma repetition_bound_witness :
  isDigest testDigest /\ 8 <= 16 <= 128
  /\ exists pw,
       hashToPassword testDigest 16 DEFAULT_PASSWORD_OPTIONS = Ok pw
       /\ forall c, occurrences c pw <= RepetitionBudget 16 + 1.
Proof.
  assert (isDigest testDigest) as Hd
    by (split; [vm_compute; discriminate | vm_compute; reflexivity]).
  assert (8 <= 16 <= 128) as Hlen by lia.
  destruct (repetition_bound testDigest 16 DEFAULT_PASSWORD_OPTIONS Hd Hlen)
    as (_ & pw & Hpw & _ & Hocc & _).
  split; [exact Hd|]. split; [exact Hlen|].
  exists pw. split; [exact Hpw | exact Hocc].
Defined.

(** ** The fill pass *)




Lemma sumWeights_app (length : Z) (l1 l2 : list CharacterSet.t) :
  sumWeights length (l1 ++ l2) = sumWeights length l1 + sumWeights length l2.
Proof. induction l1 as [|s l1 IH]; simpl; [reflexivity|]. rewrite IH. lia. Qed.



Section FillPass.

Context {G : Type}.
Variable draw : Z -> G -> Z * G.




End FillPass.

Lemma afterPlacement_inv (hash : jsstring) (length : Z) (options : PasswordOptions.t) :
  isDigest hash -> 0 < length ->
  PlaceInv cursorOk length (calculateMaxRepetitions length)
           (afterPlacement hash length options).
Proof.
  intros Hd Hlen. destruct (calculateMaxRepetitions_room length) as [Hb Hroom].
  unfold afterPlacement.
  apply (placement_ok (getHashValue hash) cursorOk (digest_draw_good hash Hd)
           length (calculateMaxRepetitions length) Hlen ltac:(lia) Hroom).
  - apply activeSetsOf_goodPool.
  - apply initial_PlaceInv; [lia | unfold cursorOk; lia].
Qed.





(** ** Four classes: the budget itself is kept *)

Lemma poolSum_insert_hole (pool : list N) (l : list (option N)) (i : nat) (c : N) :
  l !! i = Some None ->
  poolSum pool (<[i := Some c]> l) = poolSum pool l + poolSum pool [Some c].
Proof.
  intros Hi. induction pool as [|d pool IH]; simpl; [lia|].
  rewrite IH, (countOcc_insert _ _ None) by exact Hi.
  rewrite countOcc_cons, countOcc_nil.
  destruct (decide (None = Some d)); [discriminate|]. lia.
Qed.

Lemma poolSum_nonneg (pool : list N) (l : list (option N)) : 0 <= poolSum pool l.
Proof.
  induction pool as [|d pool IH]; simpl; [lia|].
  pose proof (countOcc_nonneg (Some d) l). lia.
Qed.

(** A pool none of whose characters is in the cells fills no cell. *)
Lemma poolSum_absent (pool : list N) (l : list (option N)) :
  (forall c, c ∈ pool -> Some c ∉ l) -> poolSum pool l = 0.
Proof.
  intros H. induction pool as [|d pool IH]; simpl; [reflexivity|].
  rewrite IH by (intros c Hc; apply H; right; exact Hc).
  assert (countOcc (Some d) l = 0) as ->; [|reflexivity].
  unfold countOcc.
  destruct (filter (fun y => y = Some d) l) as [|x f] eqn:E; [reflexivity|].
  exfalso. apply (H d ltac:(left)).
  assert (x ∈ filter (fun y => y = Some d) l) as Hx by (rewrite E; left).
  apply list_elem_of_filter in Hx. destruct Hx as [-> Hx]. exact Hx.
Qed.

Lemma poolSum_single_in (pool : list N) (c : N) :
  c ∈ pool -> 1 <= poolSum pool [Some c].
Proof.
  induction pool as [|d pool IH]; intros Hc; [inversion Hc|].
  simpl. rewrite countOcc_cons, countOcc_nil.
  pose proof (poolSum_nonneg pool [Some c]).
  apply elem_of_cons in Hc. destruct Hc as [->|Hc].
  - rewrite decide_True by reflexivity. lia.
  - specialize (IH Hc). destruct (decide (Some c = Some d)); lia.
Qed.

Lemma cells_elem (password : gmap Z N) (len : Z) (x : option N) :
  x ∈ cells password len -> exists k, 0 <= k < len /\ password !! k = x.
Proof.
  unfold cells. intros H. apply list_elem_of_fmap in H.
  destruct H as (k & -> & Hk). apply elem_of_seqZ in Hk.
  exists k. split; [lia | reflexivity].
Qed.

Section SelectionUnderLimit.

Context {G : Type}.
Variable draw : Z -> G -> Z * G.
Variable good : G -> Prop.
Hypothesis draw_good : forall seed g,
  0 <= seed -> good g -> 0 <= (draw seed g).1 /\ good (draw seed g).2.

(** When some character of the pool is under the limit, the selection
    returns one that is. *)
Lemma select_under (pool : list N) (usage : gmap N Z) (maxRep seed : Z) (g : G)
    (c0 : N) :
  good g -> 0 <= seed -> c0 ∈ pool -> usageOf usage c0 < maxRep ->
  exists c g',
    selectCharacterWithRepetitionControl draw pool usage maxRep seed g = (Some c, g')
    /\ good g' /\ c ∈ pool /\ usageOf usage c < maxRep.
Proof.
  intros Hg Hseed Hc0 Hlt. unfold selectCharacterWithRepetitionControl.
  assert (c0 ∈ filter (fun char => usageOf usage char < maxRep) pool) as Hin0
    by (apply list_elem_of_filter; split; assumption).
  destruct (decide _) as [Hsome|Hnone].
  - destruct (draw_good seed g Hseed Hg) as [Hh Hg'].
    destruct (draw seed g) as [h g']. simpl in Hh, Hg'.
    destruct (arrayGet_rem
                (filter (fun char => usageOf usage char < maxRep) pool) h Hh)
      as (c & Hc & Hin); [intros E; rewrite E in Hin0; inversion Hin0|].
    apply list_elem_of_filter in Hin. destruct Hin as [Hlt' Hin].
    exists c, g'. rewrite Hc. auto.
  - exfalso. apply Hnone.
    destruct (filter _ pool); [inversion Hin0 | simpl; lia].
Qed.

End SelectionUnderLimit.

Lemma used_full (len : Z) (used : gset Z) :
  (forall j, 0 <= j < len -> j ∈ used) -> len <= Z.of_nat (size used).
Proof.
  intros H.
  assert (list_to_set (seqZ 0 len) ⊆ used) as Hsub.
  { intros j Hj. apply elem_of_list_to_set, elem_of_seqZ in Hj. apply H. lia. }
  apply subseteq_size in Hsub.
  rewrite size_list_to_set in Hsub by apply NoDup_seqZ.
  rewrite length_seqZ in Hsub. lia.
Qed.

Lemma used_all (len : Z) (used : gset Z) :
  (forall j, j ∈ used -> 0 <= j < len) -> Z.of_nat (size used) = len ->
  forall j, 0 <= j < len -> j ∈ used.
Proof.
  intros Hrange Hsize j Hj.
  assert (used ⊆ list_to_set (seqZ 0 len)) as Hsub.
  { intros k Hk. apply elem_of_list_to_set, elem_of_seqZ. specialize (Hrange k Hk). lia. }
  assert (used = list_to_set (seqZ 0 len)) as ->.
  { apply set_subseteq_size_eq; [exact Hsub|].
    rewrite size_list_to_set by apply NoDup_seqZ. rewrite length_seqZ. lia. }
  apply elem_of_list_to_set, elem_of_seqZ. lia.
Qed.

Section TightPlacement.

Context {G : Type}.
Variable draw : Z -> G -> Z * G.
Variable good : G -> Prop.
Hypothesis draw_good : forall seed g,
  0 <= seed -> good g -> 0 <= (draw seed g).1 /\ good (draw seed g).2.

Variable len : Z.
Variable maxRep : Z.
Hypothesis len_pos : 0 < len.
Hypothesis maxRep_nonneg : 0 <= maxRep.
Hypothesis budget_room : len < 10 * (maxRep + 1).

Local Abbreviation Tight := (Tight good len maxRep).

(** A slot that still has a free position and a character under the limit:
    the state it leaves. *)
Lemma placeSlot_eq (s : CharacterSet.t) (st : MapperState (G := G)) (i : Z) :
  goodPool (CharacterSet.chars s) -> 0 <= i ->
  PlaceInv good len maxRep st ->
  Z.of_nat (size (usedPositions st)) < len ->
  poolSum (CharacterSet.chars s) (cells (password st) len)
    < Z.of_nat (length (CharacterSet.chars s)) * maxRep ->
  exists position c g,
    placeSlot draw s len maxRep st i
    = MkState (arraySet (password st) position (Some c))
              (({[position]} : gset Z) ∪ usedPositions st)
              (recordUse (characterUsage st) (Some c)) g
    /\ 0 <= position < len /\ (position ∉ usedPositions st)
    /\ c ∈ CharacterSet.chars s /\ usageOf (characterUsage st) c < maxRep.
Proof.
  intros Hpool Hi [HInv Hused] Hsize Hsum. unfold placeSlot.
  pose proof (typeCode_nonneg (CharacterSet.type s)) as Hcode.
  destruct (probePosition_ok draw good draw_good len len_pos
              (Z.to_nat (len * 2)) (typeCode (CharacterSet.type s))
              i (usedPositions st) 0 (generator st))
    as (p & a & g' & E & Hg' & Hp & Hfree);
    [apply HInv | lia | lia | lia |].
  rewrite E.
  set (position := if len * 2 <=? a
                   then default p (firstFree len (usedPositions st)) else p).
  assert (0 <= position < len /\ position ∉ usedPositions st) as [Hpos Hnew].
  { unfold position. destruct (Z.leb_spec (len * 2) a) as [Hex|Hin].
    - destruct (firstFree len (usedPositions st)) as [j|] eqn:Ej.
      + apply firstFree_Some in Ej. simpl. exact Ej.
      + exfalso. pose proof (used_full len _ (firstFree_None _ _ Ej)). lia.
    - split; [exact Hp|]. destruct Hfree as [Hfree|Hfree]; [exact Hfree | lia]. }
  rewrite bool_decide_eq_false_2 by exact Hnew.
  pose proof HInv as (Hg & Hkeys & Hcount & Hmax).
  assert (exists c0, c0 ∈ CharacterSet.chars s
                     /\ usageOf (characterUsage st) c0 < maxRep) as (c0 & Hc0 & Hlt).
  { destruct (filter (fun char => usageOf (characterUsage st) char < maxRep)
                     (CharacterSet.chars s)) as [|c0 f] eqn:Ef.
    - exfalso.
      assert (Z.of_nat (length (CharacterSet.chars s)) * maxRep
              <= poolSum (CharacterSet.chars s) (cells (password st) len)); [|lia].
      apply poolSum_ge. intros d Hd. rewrite <- Hcount.
      destruct (Z.lt_ge_cases (usageOf (characterUsage st) d) maxRep) as [Hlt|]; [|lia].
      assert (d ∈ filter (fun char => usageOf (characterUsage st) char < maxRep)
                         (CharacterSet.chars s)) as Hin
        by (apply list_elem_of_filter; split; assumption).
      rewrite Ef in Hin. inversion Hin.
    - assert (c0 ∈ filter (fun char => usageOf (characterUsage st) char < maxRep)
                          (CharacterSet.chars s)) as Hin by (rewrite Ef; left).
      apply list_elem_of_filter in Hin. exists c0. tauto. }
  destruct (select_under draw good draw_good (CharacterSet.chars s)
              (characterUsage st) maxRep
              (typeCode (CharacterSet.type s) * 2000 + i * 300) g' c0)
    as (c & g'' & Es & _ & Hc & Hlt'); [assumption | lia | assumption | assumption |].
  rewrite Es. exists position, c, g''. auto.
Qed.

Lemma placeSlot_tight (pre : list CharacterSet.t) (s : CharacterSet.t)
    (st : MapperState (G := G)) (i n : Z) :
  goodPool (CharacterSet.chars s) -> 0 <= i ->
  i < Z.of_nat (length (CharacterSet.chars s)) * maxRep -> n < len ->
  Tight (pre ++ [s]) n st ->
  poolSum (CharacterSet.chars s) (cells (password st) len) <= i ->
  Tight (pre ++ [s]) (n + 1) (placeSlot draw s len maxRep st i)
  /\ poolSum (CharacterSet.chars s)
             (cells (password (placeSlot draw s len maxRep st i)) len) <= i + 1.
Proof.
  intros Hpool Hi Hroom Hn (HPlace & Hmax & Hwritten & Hsize) Hsum.
  pose proof (placeSlot_ok draw good draw_good len maxRep len_pos maxRep_nonneg
                budget_room s st i Hpool Hi HPlace) as HPlace'.
  destruct (placeSlot_eq s st i Hpool Hi HPlace ltac:(lia) ltac:(lia))
    as (position & c & g & E & Hpos & Hnew & Hc & Hlt).
  rewrite E in HPlace' |- *. cbn [password usedPositions characterUsage].
  assert (password st !! position = None) as Hhole.
  { destruct HPlace as [_ Hused].
    destruct (password st !! position) eqn:Ep; [|reflexivity].
    exfalso. apply Hnew, Hused. eauto. }
  split; [split; [exact HPlace'|split; [|split]]|].
  - intros d. cbn [characterUsage]. rewrite usageOf_recordUse.
    destruct (decide (d = c)); [lia | apply Hmax].
  - intros k x. cbn [password]. unfold arraySet. rewrite lookup_partial_alter.
    destruct (decide (position = k)).
    + intros Hx. injection Hx as <-. exists s. split; [|exact Hc].
      apply elem_of_app. right. left.
    + apply Hwritten.
  - cbn [usedPositions].
    rewrite size_union by (apply disjoint_singleton_l; exact Hnew).
    rewrite size_singleton. lia.
  - rewrite cells_arraySet by exact Hpos.
    rewrite poolSum_insert_hole
      by (rewrite cells_lookup by exact Hpos; rewrite Hhole; reflexivity).
    pose proof (poolSum_single (CharacterSet.chars s) (Some c) (proj1 Hpool)). lia.
Qed.

Lemma Tight_weaken (pre : list CharacterSet.t) (s : CharacterSet.t) (n : Z)
    (st : MapperState (G := G)) :
  Tight pre n st -> Tight (pre ++ [s]) n st.
Proof.
  intros (H1 & H2 & H3 & H4). split; [exact H1|]. split; [exact H2|].
  split; [|exact H4].
  intros k c Hk. destruct (H3 k c Hk) as (s' & Hs' & Hc).
  exists s'. split; [apply elem_of_app; left; exact Hs' | exact Hc].
Qed.

Lemma placeSet_tight (targetDistribution : TargetDistribution.t)
    (pre : list CharacterSet.t) (s : CharacterSet.t)
    (st : MapperState (G := G)) (n : Z) :
  goodPool (CharacterSet.chars s) ->
  typeCount targetDistribution (CharacterSet.type s)
    <= Z.of_nat (length (CharacterSet.chars s)) * maxRep ->
  n + Z.max 0 (typeCount targetDistribution (CharacterSet.type s)) <= len ->
  (forall s' c, s' ∈ pre -> c ∈ CharacterSet.chars s' -> c ∉ CharacterSet.chars s) ->
  Tight pre n st ->
  Tight (pre ++ [s])
        (n + Z.max 0 (typeCount targetDistribution (CharacterSet.type s)))
        (placeSet draw targetDistribution len maxRep st s).
Proof.
  intros Hpool Htarget Hn Hdisj Hst. unfold placeSet.
  set (target := typeCount targetDistribution (CharacterSet.type s)) in *.
  assert (forall m : nat, Z.of_nat m <= Z.max 0 target ->
            Tight (pre ++ [s]) (n + Z.of_nat m)
                  (foldl (placeSlot draw s len maxRep) st (seqZ 0 (Z.of_nat m)))
            /\ poolSum (CharacterSet.chars s)
                 (cells (password (foldl (placeSlot draw s len maxRep) st
                                         (seqZ 0 (Z.of_nat m)))) len)
               <= Z.of_nat m) as Hloop.
  { induction m as [|m IH]; intros Hm.
    - change (Z.of_nat 0) with 0. rewrite Z.add_0_r. simpl foldl.
      split; [apply Tight_weaken; exact Hst|].
      rewrite poolSum_absent; [lia|].
      intros c Hc Hin. apply cells_elem in Hin. destruct Hin as (k & _ & Hk).
      destruct Hst as (_ & _ & Hwritten & _).
      destruct (Hwritten k c Hk) as (s' & Hs' & Hc').
      exact (Hdisj s' c Hs' Hc' Hc).
    - destruct (IH ltac:(lia)) as [HT Hsum].
      rewrite seqZ_S, foldl_app. simpl foldl.
      replace (0 + Z.of_nat m) with (Z.of_nat m) by lia.
      replace (n + Z.of_nat (S m)) with (n + Z.of_nat m + 1) by lia.
      replace (Z.of_nat (S m)) with (Z.of_nat m + 1) by lia.
      apply placeSlot_tight; try assumption; lia. }
  destruct (Z.le_gt_cases target 0) as [Hle|Hgt].
  - replace (seqZ 0 target) with (@nil Z)
      by (unfold seqZ; replace (Z.to_nat target) with 0%nat by lia; reflexivity).
    simpl. replace (n + Z.max 0 target) with n by lia.
    apply Tight_weaken. exact Hst.
  - specialize (Hloop (Z.to_nat target) ltac:(lia)).
    rewrite Z2Nat.id in Hloop by lia.
    replace (Z.max 0 target) with target by lia. apply Hloop.
Qed.

Lemma slots_nonneg (targetDistribution : TargetDistribution.t)
    (sets : list CharacterSet.t) : 0 <= slots targetDistribution sets.
Proof. induction sets as [|s sets IH]; simpl; lia. Qed.

Lemma placement_tight (targetDistribution : TargetDistribution.t)
    (post pre : list CharacterSet.t) (st : MapperState (G := G)) (n : Z) :
  (forall s, s ∈ post ->
     goodPool (CharacterSet.chars s)
     /\ typeCount targetDistribution (CharacterSet.type s)
        <= Z.of_nat (length (CharacterSet.chars s)) * maxRep) ->
  disjointAfter pre post ->
  n + slots targetDistribution post <= len ->
  Tight pre n st ->
  Tight (pre ++ post) (n + slots targetDistribution post)
        (fillPasswordWithDistribution draw post targetDistribution len maxRep st).
Proof.
  unfold fillPasswordWithDistribution.
  revert pre st n. induction post as [|s post IH]; intros pre st n Hsets Hdisj Hn Hst.
  - simpl. rewrite app_nil_r. replace (n + 0) with n by lia. exact Hst.
  - simpl in Hn, Hdisj |- *. destruct Hdisj as [Hd Hdisj].
    destruct (Hsets s ltac:(left)) as [Hpool Htarget].
    pose proof (slots_nonneg targetDistribution post).
    replace (pre ++ s :: post) with ((pre ++ [s]) ++ post)
      by (rewrite <- app_assoc; reflexivity).
    replace (n + (Z.max 0 (typeCount targetDistribution (CharacterSet.type s))
                  + slots targetDistribution post))
      with (n + Z.max 0 (typeCount targetDistribution (CharacterSet.type s))
            + slots targetDistribution post) by lia.
    apply IH.
    + intros s' Hs'. apply Hsets. right. exact Hs'.
    + exact Hdisj.
    + lia.
    + apply placeSet_tight; try assumption. lia.
Qed.

(** With every position used, the fill pass changes nothing. *)
Lemma fill_noop (activeSets : list CharacterSet.t) (st : MapperState (G := G)) :
  (forall k, 0 <= k < len -> k ∈ usedPositions st) ->
  fillRemainingPositions draw activeSets len maxRep st = st.
Proof.
  intros Hall. unfold fillRemainingPositions.
  assert (forall l, (forall k, k ∈ l -> 0 <= k < len) ->
            foldl (fillPosition draw activeSets len maxRep) st l = st) as H.
  { induction l as [|i l IH]; intros Hl; [reflexivity|].
    simpl. unfold fillPosition at 2.
    rewrite bool_decide_eq_true_2 by (apply Hall, Hl; left).
    apply IH. intros k Hk. apply Hl. right. exact Hk. }
  apply H. intros k Hk. apply elem_of_seqZ in Hk. lia.
Qed.

(** When the placement pass has a slot for every position, a pool large
    enough for each class and pools that share no character: the shuffled
    array is full and no character occurs more than [maxRep] times. *)
Lemma passes_tight (activeSets : list CharacterSet.t)
    (targetDistribution : TargetDistribution.t) (g : G) :
  (forall s, s ∈ activeSets ->
     goodPool (CharacterSet.chars s)
     /\ typeCount targetDistribution (CharacterSet.type s)
        <= Z.of_nat (length (CharacterSet.chars s)) * maxRep) ->
  disjointAfter [] activeSets ->
  slots targetDistribution activeSets = len ->
  good g ->
  let shuffled :=
    shufflePassword draw len
      (fillRemainingPositions draw activeSets len maxRep
         (fillPasswordWithDistribution draw activeSets targetDistribution
            len maxRep (MkState ∅ ∅ ∅ g))) in
  (forall k, 0 <= k < len -> is_Some (password shuffled !! k))
  /\ (forall c, countOcc (Some c) (cells (password shuffled) len) <= maxRep).
Proof.
  intros Hsets Hdisj Hslots Hg.
  pose proof (placement_tight targetDistribution activeSets [] (MkState ∅ ∅ ∅ g) 0
                Hsets Hdisj ltac:(lia)) as HT.
  destruct HT as ([HInv Hused] & Hmax & _ & Hsize).
  { split; [apply initial_PlaceInv; assumption|].
    split; [intros c; unfold usageOf; cbn; rewrite lookup_empty; simpl; lia|].
    split; [intros k c Hk; cbn in Hk; rewrite lookup_empty in Hk; discriminate|].
    cbn. rewrite size_empty. reflexivity. }
  set (placed := fillPasswordWithDistribution draw activeSets targetDistribution
                   len maxRep (MkState ∅ ∅ ∅ g)) in *.
  assert (forall k, 0 <= k < len -> k ∈ usedPositions placed) as Hall.
  { apply used_all; [|lia]. intros j Hj. apply HInv, Hused. exact Hj. }
  intros shuffled. unfold shuffled. rewrite fill_noop by exact Hall.
  destruct (shuffle_ok draw good draw_good len len_pos placed (proj1 HInv))
    as (_ & Hfilled & Hsame).
  { intros k Hk. apply Hused, Hall. exact Hk. }
  split; [exact Hfilled|].
  intros c. rewrite Hsame. destruct HInv as (_ & _ & Hcount & _).
  rewrite <- Hcount. apply Hmax.
Qed.

End TightPlacement.

Lemma countOcc_Some (c : N) (s : jsstring) :
  countOcc (Some c) (Some <$> s) = occurrences c s.
Proof.
  induction s as [|d s IH]; [reflexivity|].
  rewrite fmap_cons, countOcc_cons, occurrences_cons, IH.
  destruct (decide (d = c)) as [->|Hne].
  - rewrite decide_True by reflexivity. reflexivity.
  - rewrite decide_False by congruence. reflexivity.
Qed.

(** ** The diversity of four-class passwords *)

Lemma activeSetsOf_default : activeSetsOf DEFAULT_PASSWORD_OPTIONS = allSets.
Proof. reflexivity. Qed.

Lemma disjointChecked_spec (l1 l2 : list N) :
  disjointChecked l1 l2 = true -> forall c, c ∈ l1 -> c ∉ l2.
Proof.
  unfold disjointChecked. intros H c Hc. rewrite forallb_forall in H.
  specialize (H c (proj1 (list_elem_of_In _ _) Hc)).
  apply bool_decide_eq_true in H. exact H.
Qed.

Lemma allSets_disjoint : disjointAfter [] allSets.
Proof.
  unfold allSets. cbn [disjointAfter app].
  repeat split;
    intros s' c Hs'; rewrite ?elem_of_cons, ?elem_of_nil in Hs';
    repeat (destruct Hs' as [->|Hs']); try contradiction;
    apply disjointChecked_spec; vm_compute; reflexivity.
Qed.

Lemma tightChecked_all : forallb tightChecked (seqZ 8 121) = true.
Proof. vm_compute. reflexivity. Qed.

(** On a digest, with the default four classes, no character of the
    password occurs more often than the budget allows. *)
Lemma default_within_budget (hash : jsstring) (length : Z) :
  isDigest hash -> 8 <= length <= 128 ->
  (forall k, 0 <= k < length ->
     is_Some (password (afterShuffle hash length DEFAULT_PASSWORD_OPTIONS) !! k))
  /\ (forall c,
        countOcc (Some c)
          (cells (password (afterShuffle hash length DEFAULT_PASSWORD_OPTIONS)) length)
        <= calculateMaxRepetitions length).
Proof.
  intros Hd Hlen.
  destruct (calculateMaxRepetitions_room length) as [Hb Hroom].
  pose proof tightChecked_all as A. rewrite forallb_forall in A.
  specialize (A length ltac:(apply list_elem_of_In, elem_of_seqZ; lia)).
  unfold tightChecked in A. apply andb_prop in A. destruct A as [Hslots Htargets].
  apply Z.eqb_eq in Hslots. rewrite forallb_forall in Htargets.
  unfold afterShuffle, afterFill, afterPlacement, initialState.
  rewrite activeSetsOf_default.
  apply (passes_tight (getHashValue hash) cursorOk (digest_draw_good hash Hd)
           length (calculateMaxRepetitions length) ltac:(lia) ltac:(lia) Hroom
           allSets (calculateTargetDistribution allSets length) 0).
  - intros s Hs. split; [apply allSets_goodPool; exact Hs|].
    apply Z.leb_le, Htargets, list_elem_of_In. exact Hs.
  - exact allSets_disjoint.
  - exact Hslots.
  - unfold cursorOk. lia.
Qed.

(** C9. The floor of 0.4 is not kept: the digest of 128 zeros, mapped to
    length 24 with the default four classes, gives a password of 8 distinct
    characters, a ratio of one third, which is also what the metadata
    reports. [generatePassword] reaches this input: with an iteration count
    of -1 the keyword of 128 zeros is mapped without being hashed. *)
Theorem diversity_below_floor :
  isDigest zeroDigest /\ 8 <= 24 <= 128
  /\ (exists pw,
        hashToPassword zeroDigest 24 DEFAULT_PASSWORD_OPTIONS = Ok pw
        /\ pw = lit "BBCCCbbbccc111222@@@###B"
        /\ CharacterDiversity.totalUniqueCharacters (calculateCharacterDiversity pw) = 8
        /\ ~ (2 * 24
              <= 5 * CharacterDiversity.totalUniqueCharacters
                       (calculateCharacterDiversity pw))
        /\ PrimFloat.ltb
             (CharacterDiversity.diversityRatio (calculateCharacterDiversity pw))
             0x1.999999999999ap-2 = true)
  /\ (forall (encode : jsstring -> list byte) (digest : list byte -> list byte)
             (clock : nat -> Z),
        exists r,
          generatePassword encode digest clock
            (PasswordGenerationOptions.Build [zeroDigest] (Some 24)
               (PartialPasswordOptions.Build None None None None) None (Some (-1)))
          = Ok r
          /\ PasswordGenerationResult.password r = lit "BBCCCbbbccc111222@@@###B"
          /\ CharacterDiversity.totalUniqueCharacters
               (PasswordGenerationResult.characterDiversity r) = 8).
Proof.
  split; [split; [vm_compute; discriminate | vm_compute; reflexivity]|].
  split; [lia|]. split.
  - eexists. split; [vm_compute; reflexivity|].
    split; [vm_compute; reflexivity|]. split; [vm_compute; reflexivity|].
    split; [vm_compute; intros H; apply H; reflexivity | vm_compute; reflexivity].
  - intros encode digest clock. eexists. split; [vm_compute; reflexivity|].
    split; vm_compute; reflexivity.
Qed.

(** ** The placement pass fills the array *)

Section PlacementCount.

Context {G : Type}.
Variable draw : Z -> G -> Z * G.
Variable good : G -> Prop.
Hypothesis draw_good : forall seed g,
  0 <= seed -> good g -> 0 <= (draw seed g).1 /\ good (draw seed g).2.

Variable len : Z.
Variable maxRep : Z.
Hypothesis len_pos : 0 < len.
Hypothesis maxRep_nonneg : 0 <= maxRep.
Hypothesis budget_room : len < 10 * (maxRep + 1).

Local Abbreviation PlaceInv := (PlaceInv good len maxRep).

(** While a position is free, a slot takes one: the probe finds it, or the
    linear scan does. *)
Lemma placeSlot_position (s : CharacterSet.t) (st : MapperState (G := G)) (i : Z) :
  0 <= i -> PlaceInv st -> Z.of_nat (size (usedPositions st)) < len ->
  exists position,
    0 <= position < len /\ (position ∉ usedPositions st)
    /\ usedPositions (placeSlot draw s len maxRep st i)
       = ({[position]} : gset Z) ∪ usedPositions st.
Proof.
  intros Hi [HInv Hused] Hsize. unfold placeSlot.
  pose proof (typeCode_nonneg (CharacterSet.type s)) as Hcode.
  destruct (probePosition_ok draw good draw_good len len_pos
              (Z.to_nat (len * 2)) (typeCode (CharacterSet.type s))
              i (usedPositions st) 0 (generator st))
    as (p & a & g' & E & Hg' & Hp & Hfree);
    [apply HInv | lia | lia | lia |].
  rewrite E.
  set (position := if len * 2 <=? a
                   then default p (firstFree len (usedPositions st)) else p).
  assert (0 <= position < len /\ position ∉ usedPositions st) as [Hpos Hnew].
  { unfold position. destruct (Z.leb_spec (len * 2) a) as [Hex|Hin].
    - destruct (firstFree len (usedPositions st)) as [j|] eqn:Ej.
      + apply firstFree_Some in Ej. simpl. exact Ej.
      + exfalso. pose proof (used_full len _ (firstFree_None _ _ Ej)). lia.
    - split; [exact Hp|]. destruct Hfree as [Hfree|Hfree]; [exact Hfree | lia]. }
  rewrite bool_decide_eq_false_2 by exact Hnew.
  destruct (selectCharacterWithRepetitionControl draw _ _ _ _ _) as [c g''].
  exists position. auto.
Qed.

(** The placement pass uses one more position per slot, as long as the
    slots do not outnumber the positions. *)
Lemma placeSet_count (targetDistribution : TargetDistribution.t)
    (s : CharacterSet.t) (st : MapperState (G := G)) (n : Z) :
  goodPool (CharacterSet.chars s) ->
  n + Z.max 0 (typeCount targetDistribution (CharacterSet.type s)) <= len ->
  PlaceInv st -> Z.of_nat (size (usedPositions st)) = n ->
  PlaceInv (placeSet draw targetDistribution len maxRep st s)
  /\ Z.of_nat (size (usedPositions (placeSet draw targetDistribution len maxRep st s)))
     = n + Z.max 0 (typeCount targetDistribution (CharacterSet.type s)).
Proof.
  intros Hpool Hn Hst Hsize. unfold placeSet.
  set (target := typeCount targetDistribution (CharacterSet.type s)) in *.
  assert (forall m : nat, Z.of_nat m <= Z.max 0 target ->
            PlaceInv (foldl (placeSlot draw s len maxRep) st (seqZ 0 (Z.of_nat m)))
            /\ Z.of_nat (size (usedPositions
                 (foldl (placeSlot draw s len maxRep) st (seqZ 0 (Z.of_nat m)))))
               = n + Z.of_nat m) as Hloop.
  { induction m as [|m IH]; intros Hm.
    - change (Z.of_nat 0) with 0. rewrite Z.add_0_r. simpl foldl. auto.
    - destruct (IH ltac:(lia)) as [HP Hcount].
      rewrite seqZ_S, foldl_app. simpl foldl.
      replace (0 + Z.of_nat m) with (Z.of_nat m) by lia.
      split.
      + apply (placeSlot_ok draw good draw_good len maxRep len_pos maxRep_nonneg
                 budget_room); [exact Hpool | lia | exact HP].
      + destruct (placeSlot_position s _ (Z.of_nat m) ltac:(lia) HP ltac:(lia))
          as (position & _ & Hnew & E).
        rewrite E, size_union by (apply disjoint_singleton_l; exact Hnew).
        rewrite size_singleton. lia. }
  destruct (Z.le_gt_cases target 0) as [Hle|Hgt].
  - replace (seqZ 0 target) with (@nil Z)
      by (unfold seqZ; replace (Z.to_nat target) with 0%nat by lia; reflexivity).
    simpl. replace (n + Z.max 0 target) with n by lia. auto.
  - specialize (Hloop (Z.to_nat target) ltac:(lia)).
    rewrite Z2Nat.id in Hloop by lia.
    replace (Z.max 0 target) with target by lia. exact Hloop.
Qed.

Lemma placement_count (targetDistribution : TargetDistribution.t)
    (sets : list CharacterSet.t) (st : MapperState (G := G)) (n : Z) :
  (forall s, s ∈ sets -> goodPool (CharacterSet.chars s)) ->
  n + slots targetDistribution sets <= len ->
  PlaceInv st -> Z.of_nat (size (usedPositions st)) = n ->
  PlaceInv (fillPasswordWithDistribution draw sets targetDistribution len maxRep st)
  /\ Z.of_nat (size (usedPositions
        (fillPasswordWithDistribution draw sets targetDistribution len maxRep st)))
     = n + slots targetDistribution sets.
Proof.
  unfold fillPasswordWithDistribution.
  revert st n. induction sets as [|s sets IH]; intros st n Hpools Hn Hst Hsize.
  - simpl. rewrite Z.add_0_r. auto.
  - simpl in Hn |- *. pose proof (slots_nonneg targetDistribution sets).
    destruct (placeSet_count targetDistribution s st n) as [HP Hcount];
      [apply Hpools; left | lia | exact Hst | exact Hsize |].
    rewrite Z.add_assoc. apply IH.
    + intros s' Hs'. apply Hpools. right. exact Hs'.
    + lia.
    + exact HP.
    + exact Hcount.
Qed.

(** When the targets ask for as many slots as there are positions, the
    placement pass uses every position. *)
Lemma placement_full (targetDistribution : TargetDistribution.t)
    (sets : list CharacterSet.t) (g : G) :
  (forall s, s ∈ sets -> goodPool (CharacterSet.chars s)) ->
  slots targetDistribution sets = len -> good g ->
  forall k, 0 <= k < len ->
    k ∈ usedPositions (fillPasswordWithDistribution draw sets targetDistribution
                         len maxRep (MkState ∅ ∅ ∅ g)).
Proof.
  intros Hpools Hslots Hg.
  destruct (placement_count targetDistribution sets (MkState ∅ ∅ ∅ g) 0 Hpools
              ltac:(lia) (initial_PlaceInv good len maxRep maxRep_nonneg g Hg))
    as [[HInv Hused] Hsize]; [cbn; rewrite size_empty; reflexivity|].
  apply used_all; [|lia].
  intros j Hj. apply HInv, Hused. exact Hj.
Qed.

End PlacementCount.

Lemma slotsChecked_all :
  forallb (fun options => forallb (slotsChecked options) (seqZ 3 1022)) allOptions
  = true.
Proof. vm_compute. reflexivity. Qed.

(** On a digest, for every class configuration and every length from 3 to
    1024, the placement pass leaves no position empty: the fill pass has
    work only for the lengths 1 and 2. *)
Lemma placement_fills (hash : jsstring) (length : Z) (options : PasswordOptions.t) :
  isDigest hash -> 3 <= length <= 1024 ->
  (forall k, 0 <= k < length -> k ∈ usedPositions (afterPlacement hash length options))
  /\ afterFill hash length options = afterPlacement hash length options.
Proof.
  intros Hd Hlen.
  destruct (calculateMaxRepetitions_room length) as [Hb Hroom].
  pose proof slotsChecked_all as A. rewrite forallb_forall in A.
  specialize (A options (allOptions_complete options)). rewrite forallb_forall in A.
  specialize (A length ltac:(apply list_elem_of_In, elem_of_seqZ; lia)).
  apply Z.eqb_eq in A.
  assert (forall k, 0 <= k < length ->
            k ∈ usedPositions (afterPlacement hash length options)) as Hall.
  { unfold afterPlacement, initialState.
    apply (placement_full (getHashValue hash) cursorOk (digest_draw_good hash Hd)
             length (calculateMaxRepetitions length) ltac:(lia) ltac:(lia) Hroom
             (calculateTargetDistribution (activeSetsOf options) length)
             (activeSetsOf options) 0 (activeSetsOf_goodPool options) A).
    unfold cursorOk. lia. }
  split; [exact Hall|]. unfold afterFill. apply fill_noop. exact Hall.
Qed.

(** ** The pinned test vectors *)

(** The three vectors of [ALGORITHM_TEST_VECTORS]: from the digest that
    starts with the vector's [hashPrefix], [hashToPassword] gives the pinned
    password, with the pinned number of distinct characters and maximum
    repetition. *)
Example test_vector_1 :
  take 16 testDigest = lit "465e349bf20ac009"
  /\ hashToPassword testDigest 16 DEFAULT_PASSWORD_OPTIONS = Ok (lit "Bu9]T_0Yi&p09.Hg")
  /\ CharacterDiversity.totalUniqueCharacters
       (calculateCharacterDiversity (lit "Bu9]T_0Yi&p09.Hg")) = 14
  /\ CharacterDiversity.maxRepetitions
       (calculateCharacterDiversity (lit "Bu9]T_0Yi&p09.Hg")) = Some 2.
Proof. repeat split; vm_compute; reflexivity. Qed.

Example test_vector_2 :
  take 16 testDigest2 = lit "0e593aaaaaac049e"
  /\ hashToPassword testDigest2 16 DEFAULT_PASSWORD_OPTIONS = Ok (lit "Vk!]XmK0G25<m3$p")
  /\ CharacterDiversity.totalUniqueCharacters
       (calculateCharacterDiversity (lit "Vk!]XmK0G25<m3$p")) = 15
  /\ CharacterDiversity.maxRepetitions
       (calculateCharacterDiversity (lit "Vk!]XmK0G25<m3$p")) = Some 2.
Proof. repeat split; vm_compute; reflexivity. Qed.

Example test_vector_3 :
  take 16 testDigest3 = lit "461f4d98bee7922b"
  /\ hashToPassword testDigest3 32 DEFAULT_PASSWORD_OPTIONS
     = Ok (lit "$Ueqo0MyJyMz6DyjMJd6;Gw62h]<9*h%")
  /\ CharacterDiversity.totalUniqueCharacters
       (calculateCharacterDiversity (lit "$Ueqo0MyJyMz6DyjMJd6;Gw62h]<9*h%")) = 24
  /\ CharacterDiversity.maxRepetitions
       (calculateCharacterDiversity (lit "$Ueqo0MyJyMz6DyjMJd6;Gw62h]<9*h%")) = Some 3.
Proof. repeat split; vm_compute; reflexivity. Qed.

Lemma poolSum_hit (pool : list N) (c : N) :
  NoDup pool -> c ∈ pool -> poolSum pool [Some c] = 1.
Proof.
  intros Hnd Hc. pose proof (poolSum_single pool (Some c) Hnd).
  pose proof (poolSum_single_in pool c Hc). lia.
Qed.

Lemma poolSum_miss (pool : list N) (c : N) :
  c ∉ pool -> poolSum pool [Some c] = 0.
Proof.
  intros Hc. apply poolSum_absent. intros d Hd Hin.
  apply list_elem_of_singleton in Hin. injection Hin as ->. contradiction.
Qed.

Lemma poolSum_write (pool : list N) (password : gmap Z N) (len position : Z) (c : N) :
  0 <= position < len -> password !! position = None ->
  poolSum pool (cells (arraySet password position (Some c)) len)
  = poolSum pool (cells password len) + poolSum pool [Some c].
Proof.
  intros Hp Hhole. rewrite cells_arraySet by exact Hp.
  apply poolSum_insert_hole. rewrite cells_lookup by exact Hp. rewrite Hhole. reflexivity.
Qed.

Section ClassPlacement.

Context {G : Type}.
Variable draw : Z -> G -> Z * G.
Variable good : G -> Prop.
Hypothesis draw_good : forall seed g,
  0 <= seed -> good g -> 0 <= (draw seed g).1 /\ good (draw seed g).2.

Variable len : Z.
Variable maxRep : Z.
Hypothesis len_pos : 0 < len.
Hypothesis maxRep_nonneg : 0 <= maxRep.
Hypothesis budget_room : len < 10 * (maxRep + 1).

Local Abbreviation PlaceInv := (PlaceInv good len maxRep).
Local Abbreviation FillInv := (FillInv good len maxRep).

(** A slot of the placement pass writes one character of its class into a
    free position; it is skipped only when no position is free. *)
Lemma placeSlot_step (s : CharacterSet.t) (st : MapperState (G := G)) (i : Z) :
  goodPool (CharacterSet.chars s) -> 0 <= i -> PlaceInv st ->
  (exists g,
     placeSlot draw s len maxRep st i
     = MkState (password st) (usedPositions st) (characterUsage st) g
     /\ forall k, 0 <= k < len -> k ∈ usedPositions st)
  \/ (exists position c g,
        placeSlot draw s len maxRep st i
        = MkState (arraySet (password st) position (Some c))
                  (({[position]} : gset Z) ∪ usedPositions st)
                  (recordUse (characterUsage st) (Some c)) g
        /\ 0 <= position < len /\ (position ∉ usedPositions st)
        /\ c ∈ CharacterSet.chars s).
Proof.
  intros Hpool Hi [HInv Hused]. unfold placeSlot.
  pose proof (typeCode_nonneg (CharacterSet.type s)) as Hcode.
  destruct (probePosition_ok draw good draw_good len len_pos
              (Z.to_nat (len * 2)) (typeCode (CharacterSet.type s))
              i (usedPositions st) 0 (generator st))
    as (p & a & g' & E & Hg' & Hp & Hfree);
    [apply HInv | lia | lia | lia |].
  rewrite E.
  set (position := if len * 2 <=? a
                   then default p (firstFree len (usedPositions st)) else p).
  assert (0 <= position < len) as Hpos.
  { unfold position. destruct (len * 2 <=? a); [|exact Hp].
    destruct (firstFree len (usedPositions st)) as [j|] eqn:Ej; [|exact Hp].
    apply firstFree_Some in Ej. simpl. lia. }
  destruct (bool_decide (position ∈ usedPositions st)) eqn:Efree.
  - left. exists g'. split; [reflexivity|].
    apply bool_decide_eq_true in Efree. unfold position in Efree.
    destruct (Z.leb_spec (len * 2) a) as [Hex|Hin].
    + destruct (firstFree len (usedPositions st)) as [j|] eqn:Ej.
      * apply firstFree_Some in Ej. simpl in Efree. tauto.
      * apply firstFree_None. exact Ej.
    + destruct Hfree as [Hfree|Hfree]; [contradiction | lia].
  - right. apply bool_decide_eq_false in Efree.
    pose proof HInv as (Hg & Hkeys & Hcount & Hmax).
    destruct (select_ok draw good draw_good len maxRep maxRep_nonneg budget_room
                (CharacterSet.chars s) (characterUsage st)
                (cells (password st) len)
                (typeCode (CharacterSet.type s) * 2000 + i * 300) g')
      as (c & g'' & Es & Hg'' & Hc & Hle);
      [assumption | assumption | lia | assumption | rewrite length_cells; lia |].
    rewrite Es. exists position, c, g''. auto.
Qed.

(** The placement pass writes characters of the classes it is given only. *)
Lemma placeSlot_writtenIn (sets : list CharacterSet.t) (s : CharacterSet.t)
    (st : MapperState (G := G)) (i : Z) :
  s ∈ sets -> goodPool (CharacterSet.chars s) -> 0 <= i -> PlaceInv st ->
  writtenIn sets st -> writtenIn sets (placeSlot draw s len maxRep st i).
Proof.
  intros Hs Hpool Hi Hst Hw.
  destruct (placeSlot_step s st i Hpool Hi Hst)
    as [(g & -> & _)|(position & c & g & -> & _ & _ & Hc)]; [exact Hw|].
  intros k d. cbn [password]. unfold arraySet. rewrite lookup_partial_alter.
  destruct (decide (position = k)) as [_|_]; [|apply Hw].
  intros [= <-]. exists s. auto.
Qed.

Lemma placement_writtenIn (sets activeSets : list CharacterSet.t)
    (targetDistribution : TargetDistribution.t) (st : MapperState (G := G)) :
  (forall s, s ∈ activeSets -> s ∈ sets /\ goodPool (CharacterSet.chars s)) ->
  PlaceInv st -> writtenIn sets st ->
  writtenIn sets (fillPasswordWithDistribution draw activeSets targetDistribution
                    len maxRep st).
Proof.
  intros Hsets Hst Hw. unfold fillPasswordWithDistribution.
  apply (foldl_preserves (fun st => PlaceInv st /\ writtenIn sets st)); [|auto].
  intros st' s Hs Hst'. unfold placeSet. destruct (Hsets s Hs) as [Hin Hpool].
  apply (foldl_preserves (fun st => PlaceInv st /\ writtenIn sets st)); [|exact Hst'].
  intros st'' i Hi [HP HW]. apply elem_of_seqZ in Hi. split.
  - apply (placeSlot_ok draw good draw_good len maxRep len_pos maxRep_nonneg budget_room);
      [exact Hpool | lia | exact HP].
  - apply placeSlot_writtenIn; [exact Hin | exact Hpool | lia | exact HP | exact HW].
Qed.

(** A slot taken while a position is free adds one to the count of its own
    pool and nothing to the count of a pool that shares no character with
    it. *)
Lemma placeSlot_class (pool : list N) (s : CharacterSet.t)
    (st : MapperState (G := G)) (i n : Z) :
  goodPool (CharacterSet.chars s) -> NoDup pool ->
  (CharacterSet.chars s = pool \/ forall c, c ∈ CharacterSet.chars s -> c ∉ pool) ->
  0 <= i -> n < len ->
  PlaceInv st -> Z.of_nat (size (usedPositions st)) = n ->
  let st' := placeSlot draw s len maxRep st i in
  PlaceInv st'
  /\ Z.of_nat (size (usedPositions st')) = n + 1
  /\ poolSum pool (cells (password st') len)
     = poolSum pool (cells (password st) len)
       + (if decide (CharacterSet.chars s = pool) then 1 else 0).
Proof.
  intros Hpool Hnd Hcase Hi Hn Hst Hsize st'.
  split; [apply (placeSlot_ok draw good draw_good len maxRep len_pos maxRep_nonneg
                   budget_room); assumption|].
  subst st'.
  destruct (placeSlot_step s st i Hpool Hi Hst)
    as [(g & _ & Hfull)|(position & c & g & -> & Hpos & Hfree & Hc)].
  - exfalso. pose proof (used_full len _ Hfull). lia.
  - cbn [password usedPositions]. split.
    + rewrite size_union by (apply disjoint_singleton_l; exact Hfree).
      rewrite size_singleton. lia.
    + destruct Hst as [_ Hused].
      rewrite poolSum_write; [|exact Hpos|].
      * f_equal. destruct (decide (CharacterSet.chars s = pool)) as [E|Hne].
        -- apply poolSum_hit; [exact Hnd | rewrite <- E; exact Hc].
        -- apply poolSum_miss. destruct Hcase as [E|Hdis]; [contradiction|].
           apply Hdis. exact Hc.
      * destruct (password st !! position) eqn:Ep; [|reflexivity].
        exfalso. apply Hfree, Hused. eauto.
Qed.

Lemma placeSet_class (targetDistribution : TargetDistribution.t) (pool : list N)
    (s : CharacterSet.t) (st : MapperState (G := G)) (n : Z) :
  goodPool (CharacterSet.chars s) -> NoDup pool ->
  (CharacterSet.chars s = pool \/ forall c, c ∈ CharacterSet.chars s -> c ∉ pool) ->
  n + Z.max 0 (typeCount targetDistribution (CharacterSet.type s)) <= len ->
  PlaceInv st -> Z.of_nat (size (usedPositions st)) = n ->
  let st' := placeSet draw targetDistribution len maxRep st s in
  PlaceInv st'
  /\ Z.of_nat (size (usedPositions st'))
     = n + Z.max 0 (typeCount targetDistribution (CharacterSet.type s))
  /\ poolSum pool (cells (password st') len)
     = poolSum pool (cells (password st) len) + classSlots targetDistribution pool [s].
Proof.
  intros Hpool Hnd Hcase Hn Hst Hsize. unfold placeSet. cbn [classSlots foldr].
  set (target := typeCount targetDistribution (CharacterSet.type s)) in *.
  assert (forall m : nat, Z.of_nat m <= Z.max 0 target ->
            let st' := foldl (placeSlot draw s len maxRep) st (seqZ 0 (Z.of_nat m)) in
            PlaceInv st'
            /\ Z.of_nat (size (usedPositions st')) = n + Z.of_nat m
            /\ poolSum pool (cells (password st') len)
               = poolSum pool (cells (password st) len)
                 + (if decide (CharacterSet.chars s = pool) then Z.of_nat m else 0))
    as Hloop.
  { induction m as [|m IH]; intros Hm.
    - change (Z.of_nat 0) with 0. simpl. rewrite !Z.add_0_r.
      split; [exact Hst|]. split; [exact Hsize|].
      destruct (decide _); lia.
    - destruct (IH ltac:(lia)) as (HP & Hcount & Hsum).
      rewrite seqZ_S, foldl_app. simpl foldl.
      replace (0 + Z.of_nat m) with (Z.of_nat m) by lia.
      destruct (placeSlot_class pool s _ (Z.of_nat m) (n + Z.of_nat m)
                  Hpool Hnd Hcase ltac:(lia) ltac:(lia) HP Hcount)
        as (HP' & Hcount' & Hsum').
      split; [exact HP'|]. split; [lia|].
      rewrite Hsum', Hsum. destruct (decide _); lia. }
  destruct (Z.le_gt_cases target 0) as [Hle|Hgt].
  - replace (seqZ 0 target) with (@nil Z)
      by (unfold seqZ; replace (Z.to_nat target) with 0%nat by lia; reflexivity).
    simpl. replace (Z.max 0 target) with 0 by lia. rewrite !Z.add_0_r.
    split; [exact Hst|]. split; [exact Hsize|]. destruct (decide _); lia.
  - specialize (Hloop (Z.to_nat target) ltac:(lia)).
    rewrite Z2Nat.id in Hloop by lia.
    replace (Z.max 0 target) with target by lia.
    destruct Hloop as (HP & Hcount & Hsum).
    split; [exact HP|]. split; [exact Hcount|].
    rewrite Hsum. destruct (decide _); lia.
Qed.

(** The placement pass gives each class as many cells as its target asks
    for, as long as the targets fit the array. *)
Lemma placement_class (targetDistribution : TargetDistribution.t) (pool : list N)
    (sets : list CharacterSet.t) (st : MapperState (G := G)) (n : Z) :
  (forall s, s ∈ sets ->
     goodPool (CharacterSet.chars s)
     /\ (CharacterSet.chars s = pool \/ forall c, c ∈ CharacterSet.chars s -> c ∉ pool)) ->
  NoDup pool ->
  n + slots targetDistribution sets <= len ->
  PlaceInv st -> Z.of_nat (size (usedPositions st)) = n ->
  let st' := fillPasswordWithDistribution draw sets targetDistribution len maxRep st in
  PlaceInv st'
  /\ Z.of_nat (size (usedPositions st')) = n + slots targetDistribution sets
  /\ poolSum pool (cells (password st') len)
     = poolSum pool (cells (password st) len) + classSlots targetDistribution pool sets.
Proof.
  unfold fillPasswordWithDistribution.
  revert st n. induction sets as [|s sets IH]; intros st n Hsets Hnd Hn Hst Hsize.
  - simpl. rewrite !Z.add_0_r. auto.
  - simpl in Hn |- *. pose proof (slots_nonneg targetDistribution sets).
    destruct (Hsets s ltac:(left)) as [Hpool Hcase].
    destruct (placeSet_class targetDistribution pool s st n Hpool Hnd Hcase
                ltac:(lia) Hst Hsize) as (HP & Hcount & Hsum).
    destruct (IH (placeSet draw targetDistribution len maxRep st s)
                (n + Z.max 0 (typeCount targetDistribution (CharacterSet.type s))))
      as (HP' & Hcount' & Hsum'); [| exact Hnd | lia | exact HP | exact Hcount |].
    { intros s' Hs'. apply Hsets. right. exact Hs'. }
    split; [exact HP'|]. split; [lia|].
    rewrite Hsum', Hsum. cbn [classSlots foldr]. lia.
Qed.

(** A turn of the fill pass leaves a used position alone and writes a
    character of one of the active classes into a free one. *)
Lemma fillPosition_step (activeSets : list CharacterSet.t)
    (st0 st : MapperState (G := G)) (i : Z) :
  activeSets <> [] ->
  (forall set, set ∈ activeSets -> goodPool (CharacterSet.chars set)) ->
  0 <= i < len -> FillInv st0 i st ->
  (i ∈ usedPositions st0 /\ fillPosition draw activeSets len maxRep st i = st)
  \/ ((i ∉ usedPositions st0)
      /\ exists set c g,
           set ∈ activeSets /\ c ∈ CharacterSet.chars set
           /\ fillPosition draw activeSets len maxRep st i
              = MkState (arraySet (password st) i (Some c)) (usedPositions st)
                        (recordUse (characterUsage st) (Some c)) g).
Proof.
  intros Hne Hpools Hi (HInv & Hused & Hfilled & Hkept). unfold fillPosition.
  rewrite Hused.
  destruct (bool_decide (i ∈ usedPositions st0)) eqn:Ei.
  - left. apply bool_decide_eq_true in Ei. auto.
  - right. apply bool_decide_eq_false in Ei. split; [exact Ei|].
    pose proof HInv as (Hg & Hkeys & Hcount & Hmax).
    destruct (draw_good (i * 500) (generator st) ltac:(lia) Hg) as [Hh Hg'].
    destruct (draw (i * 500) (generator st)) as [h g']. simpl in Hh, Hg'.
    destruct (selectSet_elem len activeSets h Hne) as (set & Eset & Hset).
    rewrite Eset.
    destruct (select_ok draw good draw_good len maxRep maxRep_nonneg budget_room
                (CharacterSet.chars set) (characterUsage st)
                (cells (password st) len) (i * 600) g')
      as (c & g'' & Es & Hg'' & Hc & Hle);
      [apply Hpools; exact Hset | assumption | lia | assumption
      | rewrite length_cells; lia |].
    rewrite Es. exists set, c, g''. auto.
Qed.

Lemma fill_writtenIn (sets activeSets : list CharacterSet.t)
    (st0 : MapperState (G := G)) :
  activeSets <> [] ->
  (forall s, s ∈ activeSets -> s ∈ sets /\ goodPool (CharacterSet.chars s)) ->
  PlaceInv st0 -> writtenIn sets st0 ->
  writtenIn sets (fillRemainingPositions draw activeSets len maxRep st0).
Proof.
  intros Hne Hsets Hst0 Hw0. unfold fillRemainingPositions.
  assert (forall n : nat, Z.of_nat n <= len ->
            writtenIn sets
              (foldl (fillPosition draw activeSets len maxRep) st0
                     (seqZ 0 (Z.of_nat n)))) as Hloop.
  { induction n as [|n IH]; intros Hn; [exact Hw0|].
    rewrite seqZ_S, foldl_app. simpl foldl.
    replace (0 + Z.of_nat n) with (Z.of_nat n) by lia.
    pose proof (fill_prefix_ok draw good draw_good len maxRep len_pos maxRep_nonneg
                  budget_room activeSets st0 n Hne
                  (fun s Hs => proj2 (Hsets s Hs)) Hst0 ltac:(lia)) as HF.
    destruct (fillPosition_step activeSets st0 _ (Z.of_nat n) Hne
                (fun s Hs => proj2 (Hsets s Hs)) ltac:(lia) HF)
      as [[_ ->]|(_ & set & c & g & Hset & Hc & ->)]; [apply IH; lia|].
    intros k d. cbn [password]. unfold arraySet. rewrite lookup_partial_alter.
    destruct (decide (Z.of_nat n = k)) as [_|_]; [|apply IH; lia].
    intros [= <-]. exists set. split; [apply Hsets; exact Hset | exact Hc]. }
  specialize (Hloop (Z.to_nat len)). rewrite Z2Nat.id in Hloop by lia.
  apply Hloop. lia.
Qed.

End ClassPlacement.

Lemma countOcc_pos (x : option N) (l : list (option N)) :
  0 < countOcc x l <-> x ∈ l.
Proof.
  induction l as [|y l IH]; [rewrite countOcc_nil; split; [lia | inversion 1]|].
  rewrite countOcc_cons, elem_of_cons. pose proof (countOcc_nonneg x l).
  destruct (decide (y = x)) as [->|Hne].
  - split; [auto | lia].
  - rewrite Z.add_0_l, IH. split; [auto | intros [E|H']; [congruence | exact H']].
Qed.

Lemma poolSum_ext (pool : list N) (l1 l2 : list (option N)) :
  (forall c, countOcc (Some c) l1 = countOcc (Some c) l2) ->
  poolSum pool l1 = poolSum pool l2.
Proof.
  intros H. induction pool as [|c pool IH]; [reflexivity|].
  simpl. rewrite H, IH. reflexivity.
Qed.

(** The cells of an array without holes are the characters of its join. *)
Lemma cells_arrayJoin (password : gmap Z N) (length : Z) :
  (forall k, 0 <= k < length -> is_Some (password !! k)) ->
  cells password length = Some <$> arrayJoin password length.
Proof.
  intros Hall. unfold cells, arrayJoin.
  assert (forall k, k ∈ seqZ 0 length -> is_Some (password !! k)) as H
    by (intros k Hk; apply Hall; apply elem_of_seqZ in Hk; lia).
  revert H. generalize (seqZ 0 length). intros l.
  induction l as [|i l IH]; intros H; [reflexivity|].
  rewrite fmap_cons.
  change (omap (fun i => password !! i) (i :: l))
    with (match password !! i with
          | Some c => c :: omap (fun i => password !! i) l
          | None => omap (fun i => password !! i) l
          end).
  destruct (H i ltac:(left)) as [c Ec]. rewrite Ec, fmap_cons.
  f_equal. apply IH. intros k Hk. apply H. right. exact Hk.
Qed.

Lemma classChecked_all :
  forallb (fun options => forallb (classChecked options) (seqZ 3 1022)) allOptions
  = true.
Proof. vm_compute. reflexivity. Qed.

Lemma actualDistribution_from (s : jsstring) (d : TargetDistribution.t) (type : CharType) :
  typeCount
    (foldl (fun d char =>
              let type := charClass char in
              setTypeCount d type (typeCount d type + 1)) d s) type
  = typeCount d type
    + Z.of_nat (length (filter (fun c => charClass c = type) s)).
Proof.
  revert d. induction s as [|c s IH]; intros d; [simpl; lia|].
  simpl foldl. rewrite IH. rewrite filter_cons.
  rewrite typeCount_setTypeCount.
  destruct (decide (charClass c = type)) as [E|Hne].
  - rewrite decide_True by congruence. simpl length. rewrite E. lia.
  - rewrite decide_False by congruence. lia.
Qed.

Lemma occurrences_pos (c : N) (s : jsstring) : 0 < occurrences c s <-> c ∈ s.
Proof.
  rewrite <- countOcc_Some, countOcc_pos. split.
  - intros H. apply list_elem_of_fmap in H. destruct H as (d & [= ->] & Hd). exact Hd.
  - intros H. apply list_elem_of_fmap. eauto.
Qed.

(** On a digest, every character of the password comes from the pool of an
    active class. *)
Lemma afterShuffle_writtenIn (hash : jsstring) (length : Z) (options : PasswordOptions.t) :
  isDigest hash -> 0 < length ->
  forall c, c ∈ arrayJoin (password (afterShuffle hash length options)) length ->
    exists s, s ∈ activeSetsOf options /\ c ∈ CharacterSet.chars s.
Proof.
  intros Hd Hlen c Hc.
  destruct (calculateMaxRepetitions_room length) as [Hb Hroom].
  pose proof (digest_draw_good hash Hd) as Hdraw.
  pose proof (afterPlacement_inv hash length options Hd Hlen) as Hplaced.
  assert (forall s, s ∈ activeSetsOf options ->
            s ∈ activeSetsOf options /\ goodPool (CharacterSet.chars s)) as Hsets
    by (intros s Hs; split; [exact Hs | apply (activeSetsOf_goodPool options); exact Hs]).
  assert (writtenIn (activeSetsOf options) (afterPlacement hash length options)) as Hw1.
  { unfold afterPlacement, initialState.
    apply (placement_writtenIn (getHashValue hash) cursorOk Hdraw length
             (calculateMaxRepetitions length) Hlen ltac:(lia) Hroom);
      [exact Hsets | apply initial_PlaceInv; [lia | unfold cursorOk; lia] |].
    intros k d. cbn. rewrite lookup_empty. discriminate. }
  assert (writtenIn (activeSetsOf options) (afterFill hash length options)) as Hw2.
  { unfold afterFill.
    apply (fill_writtenIn (getHashValue hash) cursorOk Hdraw length
             (calculateMaxRepetitions length) Hlen ltac:(lia) Hroom);
      [apply activeSetsOf_nonempty | exact Hsets | exact Hplaced | exact Hw1]. }
  destruct (fill_ok (getHashValue hash) cursorOk Hdraw length
              (calculateMaxRepetitions length) Hlen ltac:(lia) Hroom
              (activeSetsOf options) (afterPlacement hash length options)
              (activeSetsOf_nonempty options) (activeSetsOf_goodPool options) Hplaced)
    as (HInv & _ & _ & _).
  destruct (hashToPassword_passes hash length options Hd Hlen) as (Hall & _ & _ & _).
  destruct (shuffle_ok (getHashValue hash) cursorOk Hdraw length Hlen
              (afterFill hash length options) (proj1 HInv) Hall) as (_ & _ & Hsame).
  apply occurrences_pos in Hc. rewrite occurrences_arrayJoin in Hc.
  unfold afterShuffle in Hc. rewrite Hsame in Hc.
  apply countOcc_pos, cells_elem in Hc. destruct Hc as (k & _ & Hk).
  exact (Hw2 k c Hk).
Qed.

Lemma allSets_ascii (s : CharacterSet.t) (c : N) :
  s ∈ allSets -> c ∈ CharacterSet.chars s -> isHighSurrogate c = false.
Proof.
  intros Hs Hc.
  assert (forallb (fun s => forallb (fun c => negb (isHighSurrogate c))
                                    (CharacterSet.chars s)) allSets = true) as A
    by (vm_compute; reflexivity).
  rewrite forallb_forall in A. specialize (A s ltac:(apply list_elem_of_In; exact Hs)).
  rewrite forallb_forall in A. specialize (A c ltac:(apply list_elem_of_In; exact Hc)).
  apply negb_true_iff in A. exact A.
Qed.

(** The characters of a password mapped from a digest are not surrogates. *)
Lemma afterShuffle_ascii (hash : jsstring) (length : Z) (options : PasswordOptions.t) :
  isDigest hash -> 0 < length ->
  forall c, c ∈ arrayJoin (password (afterShuffle hash length options)) length ->
    isHighSurrogate c = false.
Proof.
  intros Hd Hlen c Hc.
  destruct (afterShuffle_writtenIn hash length options Hd Hlen c Hc) as (s & Hs & Hcs).
  apply (allSets_ascii s); [apply (activeSetsOf_subset options); exact Hs | exact Hcs].
Qed.

Lemma distributionKeys_complete (type : CharType) : In type distributionKeys.
Proof. destruct type; simpl; auto. Qed.

Lemma poolOf_NoDup (type : CharType) : NoDup (poolOf type).
Proof.
  assert (goodPool (poolOf type)) as [H _]
    by (destruct type; apply goodPool_checked; vm_compute; reflexivity).
  exact H.
Qed.

(** The pool of a class of [CHARACTER_SETS] is the pool asked about, or
    shares no character with it. *)
Lemma allSets_poolOf (s : CharacterSet.t) (type : CharType) :
  s ∈ allSets ->
  CharacterSet.chars s = poolOf type
  \/ forall c, c ∈ CharacterSet.chars s -> c ∉ poolOf type.
Proof.
  intros Hs. unfold allSets in Hs.
  repeat (apply elem_of_cons in Hs; destruct Hs as [->|Hs]);
    [..|inversion Hs];
    destruct type;
    first [ left; reflexivity
          | right; apply disjointChecked_spec; vm_compute; reflexivity ].
Qed.

(** The regular expressions of [calculateActualDistribution] sort the
    characters of the pools by their pool. *)
Lemma charClass_poolOf (s : CharacterSet.t) (c : N) (type : CharType) :
  s ∈ allSets -> c ∈ CharacterSet.chars s ->
  charClass c = type <-> c ∈ poolOf type.
Proof.
  intros Hs Hc.
  assert (forallb (fun s =>
            forallb (fun c =>
              forallb (fun type =>
                eqb (bool_decide (charClass c = type)) (bool_decide (c ∈ poolOf type)))
                distributionKeys)
              (CharacterSet.chars s))
            allSets = true) as A by (vm_compute; reflexivity).
  rewrite forallb_forall in A. specialize (A s ltac:(apply list_elem_of_In; exact Hs)).
  rewrite forallb_forall in A. specialize (A c ltac:(apply list_elem_of_In; exact Hc)).
  rewrite forallb_forall in A.
  specialize (A type (distributionKeys_complete type)).
  apply eqb_prop in A.
  destruct (decide (charClass c = type)) as [E|Hne].
  - rewrite (bool_decide_eq_true_2 _ E) in A. symmetry in A.
    apply bool_decide_eq_true in A. tauto.
  - rewrite (bool_decide_eq_false_2 _ Hne) in A. symmetry in A.
    apply bool_decide_eq_false in A. tauto.
Qed.

Lemma charClass_poolSum (type : CharType) (s : jsstring) :
  (forall c, c ∈ s -> charClass c = type <-> c ∈ poolOf type) ->
  Z.of_nat (length (filter (fun c => charClass c = type) s))
  = poolSum (poolOf type) (Some <$> s).
Proof.
  induction s as [|c s IH]; intros H; [rewrite poolSum_nil; reflexivity|].
  rewrite fmap_cons, poolSum_cons, filter_cons.
  rewrite <- IH by (intros d Hd; apply H; right; exact Hd).
  destruct (decide (charClass c = type)) as [E|Hne].
  - rewrite poolSum_hit; [simpl length; lia | apply poolOf_NoDup |].
    apply H; [left | exact E].
  - rewrite poolSum_miss; [lia|]. intros Hin. apply Hne, H; [left | exact Hin].
Qed.

Lemma poolSum_cells_empty (pool : list N) (len : Z) : poolSum pool (cells ∅ len) = 0.
Proof.
  apply poolSum_absent. intros c _ Hin. apply countOcc_pos in Hin.
  rewrite countOcc_cells_empty in Hin. lia.
Qed.

(** On a digest, for every class configuration and every length from 3 to
    1024, the cells of each class are as many as its target. *)
Lemma afterShuffle_class (hash : jsstring) (length : Z) (options : PasswordOptions.t)
    (type : CharType) :
  isDigest hash -> 3 <= length <= 1024 ->
  poolSum (poolOf type) (cells (password (afterShuffle hash length options)) length)
  = typeCount (calculateTargetDistribution (activeSetsOf options) length) type.
Proof.
  intros Hd Hlen.
  destruct (calculateMaxRepetitions_room length) as [Hb Hroom].
  pose proof (digest_draw_good hash Hd) as Hdraw.
  assert (length ∈ seqZ 3 1022) as Hin by (apply elem_of_seqZ; lia).
  pose proof slotsChecked_all as A. rewrite forallb_forall in A.
  specialize (A options (allOptions_complete options)). rewrite forallb_forall in A.
  specialize (A length ltac:(apply list_elem_of_In; exact Hin)).
  apply Z.eqb_eq in A.
  pose proof classChecked_all as B. rewrite forallb_forall in B.
  specialize (B options (allOptions_complete options)). rewrite forallb_forall in B.
  specialize (B length ltac:(apply list_elem_of_In; exact Hin)).
  unfold classChecked in B. rewrite forallb_forall in B.
  specialize (B type (distributionKeys_complete type)).
  apply Z.eqb_eq in B. rewrite <- B.
  destruct (placement_class (getHashValue hash) cursorOk Hdraw length
              (calculateMaxRepetitions length) ltac:(lia) ltac:(lia) Hroom
              (calculateTargetDistribution (activeSetsOf options) length)
              (poolOf type) (activeSetsOf options) initialState 0)
    as (_ & _ & Hsum).
  { intros s Hs. split; [apply (activeSetsOf_goodPool options); exact Hs|].
    apply allSets_poolOf, (activeSetsOf_subset options). exact Hs. }
  { apply poolOf_NoDup. }
  { lia. }
  { apply initial_PlaceInv; [lia | unfold cursorOk; lia]. }
  { cbn. rewrite size_empty. reflexivity. }
  cbn [initialState password] in Hsum. rewrite poolSum_cells_empty, Z.add_0_l in Hsum.
  fold initialState in Hsum.
  change (fillPasswordWithDistribution _ _ _ _ _ _)
    with (afterPlacement hash length options) in Hsum.
  destruct (placement_fills hash length options Hd Hlen) as [_ Hnoop].
  destruct (hashToPassword_passes hash length options Hd ltac:(lia)) as (Hall & _ & _ & _).
  destruct (fill_ok (getHashValue hash) cursorOk Hdraw length
              (calculateMaxRepetitions length) ltac:(lia) ltac:(lia) Hroom
              (activeSetsOf options) (afterPlacement hash length options)
              (activeSetsOf_nonempty options) (activeSetsOf_goodPool options)
              (afterPlacement_inv hash length options Hd ltac:(lia)))
    as (HInv & _ & _ & _).
  destruct (shuffle_ok (getHashValue hash) cursorOk Hdraw length ltac:(lia)
              (afterFill hash length options) (proj1 HInv) Hall) as (_ & _ & Hsame).
  unfold afterShuffle. rewrite (poolSum_ext _ _ _ (fun c => Hsame (Some c))).
  rewrite Hnoop. exact Hsum.
Qed.

Lemma distribution_ext (d1 d2 : TargetDistribution.t) :
  (forall type, typeCount d1 type = typeCount d2 type) -> d1 = d2.
Proof.
  intros H. destruct d1 as [a1 b1 c1 e1], d2 as [a2 b2 c2 e2].
  pose proof (H uppercase). pose proof (H lowercase).
  pose proof (H numbers). pose proof (H symbols). simpl in *. congruence.
Qed.

(** On a digest, for every class configuration and every length from 3 to
    1024, the password has of each class exactly as many characters as the
    target distribution says. *)
Lemma actualDistribution_target (hash : jsstring) (length : Z) (options : PasswordOptions.t) :
  isDigest hash -> 3 <= length <= 1024 ->
  calculateActualDistribution
    (arrayJoin (password (afterShuffle hash length options)) length)
  = calculateTargetDistribution (activeSetsOf options) length.
Proof.
  intros Hd Hlen. apply distribution_ext. intros type.
  rewrite calculateActualDistribution_units
    by (apply afterShuffle_ascii; [exact Hd | lia]).
  rewrite actualDistribution_from.
  replace (typeCount (TargetDistribution.Build 0 0 0 0) type) with 0
    by (destruct type; reflexivity).
  destruct (hashToPassword_passes hash length options Hd ltac:(lia)) as (_ & _ & Hall & _).
  rewrite charClass_poolSum.
  - rewrite <- cells_arrayJoin by exact Hall.
    rewrite afterShuffle_class by assumption. lia.
  - intros c Hc.
    destruct (afterShuffle_writtenIn hash length options Hd ltac:(lia) c Hc)
      as (s & Hs & Hcs).
    apply (charClass_poolOf s); [apply (activeSetsOf_subset options); exact Hs | exact Hcs].
Qed.

Lemma coverageChecked_all :
  forallb (fun options => forallb (coverageChecked options) (seqZ 4 1021)) allOptions
  = true.
Proof. vm_compute. reflexivity. Qed.

(** X1. On a digest, for every class configuration and every length from 3
    to 1024, the password that [hashToPassword] returns has of each class
    exactly the number of characters that [calculateTargetDistribution]
    computes: the counts of [calculateActualDistribution] are the
    targets. *)
Theorem hashToPassword_realises_target (hash : jsstring) (length : Z)
    (options : PasswordOptions.t) :
  isDigest hash -> 3 <= length <= 1024 ->
  exists pw,
    hashToPassword hash length options = Ok pw
    /\ calculateActualDistribution pw
       = calculateTargetDistribution (activeSetsOf options) length.
Proof.
  intros Hd Hlen. eexists. split; [apply hashToPassword_Ok; lia|].
  apply actualDistribution_target; assumption.
Qed.

Lemma hashToPassword_realises_target_witness :
  isDigest testDigest /\ 3 <= 16 <= 1024
  /\ exists pw,
       hashToPassword testDigest 16 DEFAULT_PASSWORD_OPTIONS = Ok pw
       /\ calculateActualDistribution pw
          = calculateTargetDistribution (activeSetsOf DEFAULT_PASSWORD_OPTIONS) 16.
Proof.
  assert (isDigest testDigest) as Hd
    by (split; [vm_compute; discriminate | vm_compute; reflexivity]).
  split; [exact Hd|]. split; [lia|].
  apply (hashToPassword_realises_target testDigest 16 DEFAULT_PASSWORD_OPTIONS Hd). lia.
Defined.

(** X2. On a digest, for every length from 4 to 1024: every enabled class
    is represented in the password, by at least one character and by at
    least a fifth of the length, and no character of a class that is not
    enabled occurs. *)
Theorem hashToPassword_class_coverage (hash : jsstring) (length : Z)
    (options : PasswordOptions.t) :
  isDigest hash -> 4 <= length <= 1024 ->
  exists pw,
    hashToPassword hash length options = Ok pw
    /\ (forall s, s ∈ activeSetsOf options ->
          1 <= typeCount (calculateActualDistribution pw) (CharacterSet.type s)
          /\ length / 5 <= typeCount (calculateActualDistribution pw) (CharacterSet.type s))
    /\ (forall type,
          (forall s, s ∈ activeSetsOf options -> CharacterSet.type s <> type) ->
          typeCount (calculateActualDistribution pw) type = 0).
Proof.
  intros Hd Hlen. eexists. split; [apply hashToPassword_Ok; lia|].
  rewrite actualDistribution_target by (assumption || lia).
  pose proof coverageChecked_all as A. rewrite forallb_forall in A.
  specialize (A options (allOptions_complete options)). rewrite forallb_forall in A.
  specialize (A length ltac:(apply list_elem_of_In, elem_of_seqZ; lia)).
  unfold coverageChecked in A. rewrite forallb_forall in A.
  split.
  - intros s Hs. specialize (A (CharacterSet.type s) (distributionKeys_complete _)).
    destruct (existsb _ (activeSetsOf options)) eqn:E.
    + apply andb_prop in A. destruct A as [A1 A2].
      apply Z.leb_le in A1, A2. auto.
    + exfalso. apply not_true_iff_false in E. apply E.
      apply existsb_exists. exists s. split; [apply list_elem_of_In; exact Hs|].
      apply bool_decide_eq_true. reflexivity.
  - intros type Hnone. specialize (A type (distributionKeys_complete _)).
    destruct (existsb _ (activeSetsOf options)) eqn:E.
    + exfalso. apply existsb_exists in E. destruct E as (s & Hs & Ht).
      apply bool_decide_eq_true in Ht. apply (Hnone s); [apply list_elem_of_In; exact Hs|].
      exact Ht.
    + apply Z.eqb_eq in A. exact A.
Qed.

Lemma hashToPassword_class_coverage_witness :
  isDigest testDigest /\ 4 <= 16 <= 1024
  /\ exists pw,
       hashToPassword testDigest 16 (PasswordOptions.Build true false true false) = Ok pw
       /\ typeCount (calculateActualDistribution pw) lowercase = 0.
Proof.
  assert (isDigest testDigest) as Hd
    by (split; [vm_compute; discriminate | vm_compute; reflexivity]).
  split; [exact Hd|]. split; [lia|].
  destruct (hashToPassword_class_coverage testDigest 16
              (PasswordOptions.Build true false true false) Hd ltac:(lia))
    as (pw & Hpw & _ & Hnone).
  exists pw. split; [exact Hpw|]. apply Hnone.
  intros s Hs. vm_compute in Hs.
  repeat (apply elem_of_cons in Hs; destruct Hs as [->|Hs]); [..|inversion Hs];
    discriminate.
Defined.



(** ** The generator behind its validation *)

Lemma validateKeywords_Ok (keywords : list jsstring) :
  validateKeywords keywords = Ok tt
  <-> keywords <> [] /\ forall keyword, keyword ∈ keywords -> trim keyword <> [].
Proof.
  unfold validateKeywords. destruct keywords as [|k ks].
  - split; [discriminate | intros [H _]; congruence].
  - destruct (list_find _ (k :: ks)) as [[i x]|] eqn:E.
    + split; [discriminate|]. intros [_ H]. exfalso.
      apply list_find_Some in E. destruct E as (Hi & Hx & _).
      apply (H x); [eapply list_elem_of_lookup_2; exact Hi|].
      destruct (trim x); [reflexivity | discriminate].
    + split; [|reflexivity]. intros _. split; [discriminate|].
      intros keyword Hk Hblank. rewrite list_find_None in E.
      rewrite Forall_forall in E. apply (E keyword Hk). rewrite Hblank. reflexivity.
Qed.



(** X5. When a keyword is blank, [validateKeywords] reports the index of
    the first blank keyword. *)
Theorem validateKeywords_reports_first_blank (keywords : list jsstring) (i : nat)
    (keyword : jsstring) :
  keywords !! i = Some keyword -> trim keyword = [] ->
  (forall j k, (j < i)%nat -> keywords !! j = Some k -> trim k <> []) ->
  validateKeywords keywords
  = Throw ("Keyword at index " ++ pretty i
           ++ " cannot be empty or contain only whitespace").
Proof.
  intros Hi Hblank Hfirst. unfold validateKeywords.
  destruct keywords as [|k ks]; [discriminate|].
  assert (list_find (fun keyword => length (trim keyword) = 0%nat) (k :: ks)
          = Some (i, keyword)) as E.
  { apply list_find_Some. split; [exact Hi|]. split; [rewrite Hblank; reflexivity|].
    intros j y Hj Hlt Hy. apply (Hfirst j y Hlt Hj).
    destruct (trim y); [reflexivity | discriminate]. }
  rewrite E. reflexivity.
Qed.

Lemma validateKeywords_reports_first_blank_witness :
  validateKeywords [lit "a"; lit " "; lit ""]
  = Throw ("Keyword at index " ++ pretty 1%nat
           ++ " cannot be empty or contain only whitespace").
Proof.
  apply (validateKeywords_reports_first_blank [lit "a"; lit " "; lit ""] 1 (lit " "));
    [reflexivity | reflexivity |].
  intros j k Hj Hk. destruct j as [|j]; [|lia].
  injection Hk as <-. vm_compute. discriminate.
Defined.


(** ** The digest deriver: errors, format and collisions *)

Lemma hexOfByte_digits (b : byte) :
  length (hexOfByte b) = 2%nat /\ forallb isLowerHex (hexOfByte b) = true.
Proof. destruct b; split; reflexivity. Qed.

Lemma hexEncode_digits (bytes : list byte) :
  length (hexEncode bytes) = (2 * length bytes)%nat
  /\ forallb isLowerHex (hexEncode bytes) = true.
Proof.
  rewrite hexEncode_lowercase.
  induction bytes as [|b bytes [IH1 IH2]]; [split; reflexivity|].
  rewrite fmap_cons.
  change (mjoin (hexOfByte b :: (hexOfByte <$> bytes)))
    with (hexOfByte b ++ mjoin (hexOfByte <$> bytes)).
  destruct (hexOfByte_digits b) as [H1 H2].
  rewrite length_app, forallb_app, H1, H2, IH1, IH2. split; [simpl; lia | reflexivity].
Qed.

Lemma hexEncode_isDigest (bytes : list byte) :
  bytes <> [] -> isDigest (hexEncode bytes).
Proof.
  intros Hne. destruct (hexEncode_digits bytes) as [H1 H2]. split; [|exact H2].
  intros E. rewrite E in H1. destruct bytes; [congruence | simpl in H1; lia].
Qed.

Section DigestFormat.

Variable encode : jsstring -> list byte.
Variable digest : list byte -> list byte.

(** After at least one turn, the loop leaves what its last turn hashed. *)
Lemma hashLoop_last (n : nat) salt joined (i : Z) (current : jsstring) :
  exists current',
    hashLoop encode digest (S n) salt joined i current
    = hashIteration encode digest salt joined (i + Z.of_nat n) current'.
Proof.
  revert i current. induction n as [|n IH]; intros i current.
  - exists current. simpl. rewrite Z.add_0_r. reflexivity.
  - destruct (IH (i + 1) (hashIteration encode digest salt joined i current))
      as [current' E].
    exists current'. change (hashLoop encode digest (S (S n)) salt joined i current)
      with (hashLoop encode digest (S n) salt joined (i + 1)
              (hashIteration encode digest salt joined i current)).
    rewrite E. f_equal. lia.
Qed.

(** With at least one iteration, the [hash] field is what the last turn
    hashed. *)
Lemma generateHash_last_round (now : Z) (options : HashOptions.t) :
  HashOptions.keywords options <> [] ->
  1 <= default 1000 (HashOptions.iterations options) ->
  exists message,
    generateHash encode digest now options
    = Ok (HashResult.Build (hexEncode (digest (encode message)))
            (default 1000 (HashOptions.iterations options)) now).
Proof.
  intros Hne Hit. destruct options as [[|k ks] salt iterations]; [contradiction|].
  cbn [HashOptions.iterations] in Hit |- *.
  rewrite generateHash_unfold.
  destruct (Z.to_nat (default 1000 iterations)) as [|n] eqn:En; [lia|].
  destruct (hashLoop_last n salt (normalizedKeywords (k :: ks)) 0
              (normalizedKeywords (k :: ks))) as [current' E].
  rewrite E. unfold hashIteration. eexists. reflexivity.
Qed.

(** The loop reads the salt through the test [if (effectiveMasterSalt)]
    only. *)
Lemma hashLoop_salt (n : nat) salt1 salt2 joined (i : Z) (current : jsstring) :
  truthySalt salt1 = truthySalt salt2 ->
  hashLoop encode digest n salt1 joined i current
  = hashLoop encode digest n salt2 joined i current.
Proof.
  intros Hs. revert i current. induction n as [|n IH]; intros i current; [reflexivity|].
  simpl. rewrite IH. unfold hashIteration. rewrite Hs. reflexivity.
Qed.

(** X7. [generateHash] throws exactly when the keyword array is empty,
    whatever the salt and the iteration count are, and the error is always
    the same. *)
Theorem generateHash_throws_iff (now : Z) (options : HashOptions.t) :
  (isThrow (generateHash encode digest now options) = true
   <-> HashOptions.keywords options = [])
  /\ (generateHash encode digest now options = Throw "Inputs must be a non-empty array"
      <-> HashOptions.keywords options = []).
Proof.
  unfold generateHash, validateInputs.
  destruct (HashOptions.keywords options) as [|k ks].
  - split; split; reflexivity.
  - split; split; discriminate.
Qed.

(** X8. With at least one iteration the [hash] field is the lowercase
    hexadecimal rendering of a hash output, two digits for each byte, and
    the [iterations] field is the number of rounds asked for. *)
Theorem generateHash_hex (now : Z) (options : HashOptions.t) :
  HashOptions.keywords options <> [] ->
  1 <= default 1000 (HashOptions.iterations options) ->
  exists r message,
    generateHash encode digest now options = Ok r
    /\ HashResult.hash r = hexEncode (digest (encode message))
    /\ length (HashResult.hash r) = (2 * length (digest (encode message)))%nat
    /\ forallb isLowerHex (HashResult.hash r) = true
    /\ HashResult.iterations r = default 1000 (HashOptions.iterations options).
Proof.
  intros Hne Hit. destruct (generateHash_last_round now options Hne Hit) as [message E].
  eexists. exists message. split; [exact E|]. cbn [HashResult.hash HashResult.iterations].
  split; [reflexivity|]. destruct (hexEncode_digits (digest (encode message))). auto.
Qed.

(** X9. The hash depends on the keywords only through their normalized,
    [|]-joined form, and on the salt only through its being a non-empty
    string: keyword arrays with the same normal form collide. *)
Theorem generateHash_same_normal_form (now1 now2 : Z) (keywords1 keywords2 : list jsstring)
    (salt1 salt2 : option jsstring) (iterations : option Z) :
  keywords1 <> [] -> keywords2 <> [] ->
  normalizedKeywords keywords1 = normalizedKeywords keywords2 ->
  truthySalt salt1 = truthySalt salt2 ->
  exists r1 r2,
    generateHash encode digest now1 (HashOptions.Build keywords1 salt1 iterations) = Ok r1
    /\ generateHash encode digest now2 (HashOptions.Build keywords2 salt2 iterations) = Ok r2
    /\ HashResult.hash r1 = HashResult.hash r2.
Proof.
  intros H1 H2 Hk Hs.
  destruct keywords1 as [|k1 ks1]; [contradiction|].
  destruct keywords2 as [|k2 ks2]; [contradiction|].
  rewrite !generateHash_unfold. eexists. eexists.
  split; [reflexivity|]. split; [reflexivity|]. cbn [HashResult.hash].
  rewrite Hk. apply hashLoop_salt. exact Hs.
Qed.

End DigestFormat.

Lemma generateHash_hex_witness :
  exists r,
    generateHash (fun _ => []) (fun _ => [x00; xff]%byte) 0
      (HashOptions.Build [lit "test"] None None) = Ok r
    /\ HashResult.hash r = hexEncode [x00; xff]%byte
    /\ length (HashResult.hash r) = 4%nat.
Proof.
  destruct (generateHash_hex (fun _ => []) (fun _ => [x00; xff]%byte) 0
              (HashOptions.Build [lit "test"] None None)
              ltac:(discriminate) ltac:(simpl; lia))
    as (r & message & E & Hh & Hl & _).
  exists r. split; [exact E|]. split; [exact Hh | exact Hl].
Defined.

Lemma generateHash_same_normal_form_witness :
  exists r1 r2,
    generateHash (fun _ => []) (fun _ => [x00]%byte) 0
      (HashOptions.Build [lit "a"; lit "b"] None None) = Ok r1
    /\ generateHash (fun _ => []) (fun _ => [x00]%byte) 1
         (HashOptions.Build [lit " A|B "; lit "  "] (Some []) None) = Ok r2
    /\ HashResult.hash r1 = HashResult.hash r2.
Proof.
  apply (generateHash_same_normal_form (fun _ => []) (fun _ => [x00]%byte) 0 1
           [lit "a"; lit "b"] [lit " A|B "; lit "  "] None (Some []) None);
    [discriminate | discriminate | reflexivity | reflexivity].
Defined.

(** ** [generatePassword] from end to end *)

Lemma validateAllInputs_Ok_inv (keywords : list jsstring) (length : Z)
    (options : PasswordOptions.t) (masterSalt : option jsstring) (u : unit) :
  validateAllInputs keywords length options masterSalt = Ok u ->
  keywords <> [] /\ 8 <= length <= 128.
Proof.
  unfold validateAllInputs. destruct keywords as [|k ks]; [discriminate|].
  destruct (validateKeywords (k :: ks)); [|discriminate].
  unfold validatePasswordLength.
  cbn [SECURITY_CONFIG SecurityConfig.minPasswordLength SecurityConfig.maxPasswordLength].
  destruct (Z.ltb_spec length 8); [discriminate|].
  destruct (Z.ltb_spec 128 length); [discriminate|].
  intros _. split; [discriminate | lia].
Qed.

Section EndToEnd.

Variable encode : jsstring -> list byte.
Variable digest : list byte -> list byte.

(** [generatePassword] in terms of [normalizeOptions] and
    [validateGenerationOptions], as the source words it. *)
Lemma generatePassword_unfold (clock : nat -> Z) (options : PasswordGenerationOptions.t) :
  generatePassword encode digest clock options
  = let normalizedOptions := normalizeOptions options in
    match validateGenerationOptions normalizedOptions with
    | Throw e => Throw e
    | Ok _ =>
    match generateHash encode digest (clock 1%nat)
            (HashOptions.Build
               (RequiredPasswordGenerationOptions.keywords normalizedOptions)
               (RequiredPasswordGenerationOptions.masterSalt normalizedOptions)
               (Some (RequiredPasswordGenerationOptions.iterations normalizedOptions)))
    with
    | Throw e => Throw e
    | Ok hashResult =>
    match hashToPassword (HashResult.hash hashResult)
            (RequiredPasswordGenerationOptions.length normalizedOptions)
            (RequiredPasswordGenerationOptions.options normalizedOptions) with
    | Throw e => Throw e
    | Ok password =>
        Ok {| PasswordGenerationResult.password := password;
              PasswordGenerationResult.length := Z.of_nat (List.length password);
              PasswordGenerationResult.options :=
                RequiredPasswordGenerationOptions.options normalizedOptions;
              PasswordGenerationResult.hashIterations := HashResult.iterations hashResult;
              PasswordGenerationResult.generationTime := clock 2%nat - clock 0%nat;
              PasswordGenerationResult.characterDistribution :=
                calculateActualDistribution password;
              PasswordGenerationResult.characterDiversity :=
                calculateCharacterDiversity password |}
    end end end.
Proof. reflexivity. Qed.

(** X11. [generatePassword] throws exactly when [validateOptions] rejects
    the options, and with the validator's message: nothing behind the
    validation throws. *)
Theorem generatePassword_throws_as_validateOptions (clock : nat -> Z)
    (options : PasswordGenerationOptions.t) :
  match validateOptions options with
  | Throw e => generatePassword encode digest clock options = Throw e
  | Ok _ => isThrow (generatePassword encode digest clock options) = false
  end.
Proof.
  rewrite generatePassword_unfold. unfold validateOptions. cbv zeta.
  destruct (validateGenerationOptions (normalizeOptions options)) as [u|e] eqn:Ev;
    [|reflexivity].
  apply validateAllInputs_Ok_inv in Ev. destruct Ev as [Hne Hlen].
  destruct (RequiredPasswordGenerationOptions.keywords (normalizeOptions options))
    as [|k ks] eqn:Ek; [congruence|].
  rewrite generateHash_unfold. cbv iota beta.
  rewrite hashToPassword_Ok by lia. reflexivity.
Qed.


(** When the options are accepted and the iteration count is not
    negative, [generatePassword] maps a digest. *)
Lemma generatePassword_digest (clock : nat -> Z) (options : PasswordGenerationOptions.t) :
  (forall data, digest data <> []) ->
  validateOptions options = Ok tt ->
  0 <= RequiredPasswordGenerationOptions.iterations (normalizeOptions options) ->
  exists hash,
    isDigest hash
    /\ 8 <= RequiredPasswordGenerationOptions.length (normalizeOptions options) <= 128
    /\ generatePassword encode digest clock options
       = let normalizedOptions := normalizeOptions options in
         let password :=
           arrayJoin
             (password (afterShuffle hash
                          (RequiredPasswordGenerationOptions.length normalizedOptions)
                          (RequiredPasswordGenerationOptions.options normalizedOptions)))
             (RequiredPasswordGenerationOptions.length normalizedOptions) in
         Ok {| PasswordGenerationResult.password := password;
               PasswordGenerationResult.length := Z.of_nat (List.length password);
               PasswordGenerationResult.options :=
                 RequiredPasswordGenerationOptions.options normalizedOptions;
               PasswordGenerationResult.hashIterations :=
                 RequiredPasswordGenerationOptions.iterations normalizedOptions;
               PasswordGenerationResult.generationTime := clock 2%nat - clock 0%nat;
               PasswordGenerationResult.characterDistribution :=
                 calculateActualDistribution password;
               PasswordGenerationResult.characterDiversity :=
                 calculateCharacterDiversity password |}.
Proof.
  intros Hdigest Hv Hit. rewrite generatePassword_unfold. cbv zeta.
  unfold validateOptions in Hv. rewrite Hv.
  apply validateAllInputs_Ok_inv in Hv. destruct Hv as [Hne Hlen].
  assert (1 <= RequiredPasswordGenerationOptions.iterations (normalizeOptions options))
    as Hit1.
  { cbn [normalizeOptions RequiredPasswordGenerationOptions.iterations] in Hit |- *.
    destruct (PasswordGenerationOptions.iterations options) as [[|n|n]|];
      cbn in Hit |- *; lia. }
  destruct (generateHash_last_round encode digest (clock 1%nat)
              (HashOptions.Build
                 (RequiredPasswordGenerationOptions.keywords (normalizeOptions options))
                 (RequiredPasswordGenerationOptions.masterSalt (normalizeOptions options))
                 (Some (RequiredPasswordGenerationOptions.iterations
                          (normalizeOptions options))))
              Hne Hit1) as [message E].
  rewrite E. cbv iota beta. cbn [HashResult.hash HashResult.iterations].
  exists (hexEncode (digest (encode message))).
  split; [apply hexEncode_isDigest, Hdigest|]. split; [exact Hlen|].
  rewrite hashToPassword_Ok by lia. reflexivity.
Qed.

(** X13. With a hash function that returns at least one byte, accepted
    options and an iteration count that is not negative, [generatePassword]
    returns a password of the requested length, made of characters of the
    enabled classes only, with exactly the target number of characters of
    each class (which the metadata reports), no character more often than
    the repetition budget plus one, and the iteration count that was
    run. *)
Theorem generatePassword_result (clock : nat -> Z) (options : PasswordGenerationOptions.t) :
  (forall data, digest data <> []) ->
  validateOptions options = Ok tt ->
  0 <= RequiredPasswordGenerationOptions.iterations (normalizeOptions options) ->
  let normalizedOptions := normalizeOptions options in
  let length := RequiredPasswordGenerationOptions.length normalizedOptions in
  let activeSets :=
    activeSetsOf (RequiredPasswordGenerationOptions.options normalizedOptions) in
  exists r,
    generatePassword encode digest clock options = Ok r
    /\ Z.of_nat (List.length (PasswordGenerationResult.password r)) = length
    /\ PasswordGenerationResult.length r = length
    /\ PasswordGenerationResult.options r
       = RequiredPasswordGenerationOptions.options normalizedOptions
    /\ PasswordGenerationResult.hashIterations r
       = RequiredPasswordGenerationOptions.iterations normalizedOptions
    /\ PasswordGenerationResult.generationTime r = clock 2%nat - clock 0%nat
    /\ (forall c, c ∈ PasswordGenerationResult.password r ->
          exists s, s ∈ activeSets /\ c ∈ CharacterSet.chars s)
    /\ PasswordGenerationResult.characterDistribution r
       = calculateTargetDistribution activeSets length
    /\ (forall c, occurrences c (PasswordGenerationResult.password r)
                  <= calculateMaxRepetitions length + 1).
Proof.
  intros Hdigest Hv Hit normalizedOptions length activeSets.
  destruct (generatePassword_digest clock options Hdigest Hv Hit)
    as (hash & Hd & Hlen & E).
  fold normalizedOptions in Hlen, E. fold length in Hlen, E. cbv zeta in E.
  eexists. split; [exact E|].
  cbn [PasswordGenerationResult.password PasswordGenerationResult.length
       PasswordGenerationResult.options PasswordGenerationResult.hashIterations
       PasswordGenerationResult.generationTime
       PasswordGenerationResult.characterDistribution].
  destruct (hashToPassword_passes hash length
              (RequiredPasswordGenerationOptions.options normalizedOptions) Hd ltac:(lia))
    as (_ & _ & Hall & Hmax).
  assert (Z.of_nat (List.length
            (arrayJoin (password (afterShuffle hash length
                          (RequiredPasswordGenerationOptions.options normalizedOptions)))
                       length)) = length) as Hl
    by (rewrite length_arrayJoin by exact Hall; lia).
  split; [exact Hl|]. split; [exact Hl|]. split; [reflexivity|].
  split; [reflexivity|]. split; [reflexivity|]. split; [|split].
  - apply afterShuffle_writtenIn; [exact Hd | lia].
  - apply actualDistribution_target; [exact Hd | lia].
  - intros c. rewrite occurrences_arrayJoin. apply Hmax.
Qed.

(** X14. [normalizeOptions] takes its defaults with [||]: a length of 0
    is the default length 16, an empty salt is no salt, and an iteration
    count of 0 is the default 1000 rounds, not a request to skip the
    hashing. *)
Theorem generatePassword_falsy_options (clock : nat -> Z) (keywords : list jsstring)
    (length : option Z) (options : PartialPasswordOptions.t)
    (masterSalt : option jsstring) (iterations : option Z) :
  generatePassword encode digest clock
    (PasswordGenerationOptions.Build keywords (Some 0) options masterSalt iterations)
  = generatePassword encode digest clock
      (PasswordGenerationOptions.Build keywords None options masterSalt iterations)
  /\ generatePassword encode digest clock
       (PasswordGenerationOptions.Build keywords length options (Some []) iterations)
     = generatePassword encode digest clock
         (PasswordGenerationOptions.Build keywords length options None iterations)
  /\ generatePassword encode digest clock
       (PasswordGenerationOptions.Build keywords length options masterSalt (Some 0))
     = generatePassword encode digest clock
         (PasswordGenerationOptions.Build keywords length options masterSalt None).
Proof.
  split; [reflexivity|]. split; reflexivity.
Qed.

(** X15. A negative iteration count passes the validation and makes the
    loop of [generateHash] run no round at all: the password is mapped from
    the normalized keywords themselves, not from a hash of them. *)
Theorem generatePassword_negative_iterations (clock : nat -> Z)
    (keywords : list jsstring) (length : option Z) (options : PartialPasswordOptions.t)
    (masterSalt : option jsstring) (n : Z) :
  n < 0 ->
  validateOptions
    (PasswordGenerationOptions.Build keywords length options masterSalt (Some n))
  = Ok tt ->
  exists r,
    generatePassword encode digest clock
      (PasswordGenerationOptions.Build keywords length options masterSalt (Some n))
    = Ok r
    /\ PasswordGenerationResult.hashIterations r = n
    /\ hashToPassword (normalizedKeywords keywords) (orNumber length 16)
         (mergeOptions options)
       = Ok (PasswordGenerationResult.password r).
Proof.
  intros Hn Hv. rewrite generatePassword_unfold. cbv zeta.
  unfold validateOptions in Hv. rewrite Hv.
  apply validateAllInputs_Ok_inv in Hv. destruct Hv as [Hne Hlen].
  cbn [normalizeOptions RequiredPasswordGenerationOptions.keywords
       RequiredPasswordGenerationOptions.length RequiredPasswordGenerationOptions.options
       RequiredPasswordGenerationOptions.masterSalt
       RequiredPasswordGenerationOptions.iterations
       PasswordGenerationOptions.keywords PasswordGenerationOptions.length
       PasswordGenerationOptions.options PasswordGenerationOptions.masterSalt
       PasswordGenerationOptions.iterations
       SECURITY_CONFIG SecurityConfig.defaultPasswordLength
       SecurityConfig.hashIterations SecurityConfig.masterSalt] in Hne, Hlen |- *.
  destruct keywords as [|k ks]; [congruence|].
  rewrite generateHash_unfold.
  assert (orNumber (Some n) 1000 = n) as -> by (destruct n; [lia | lia | reflexivity]).
  change (default 1000 (Some n)) with n.
  replace (Z.to_nat n) with 0%nat by lia.
  cbv iota beta. cbn [hashLoop HashResult.hash HashResult.iterations].
  rewrite hashToPassword_Ok by lia.
  eexists. split; [reflexivity|]. split; reflexivity.
Qed.

End EndToEnd.

Lemma generatePassword_result_witness :
  exists r,
    generatePassword (fun _ => []) (fun _ => [x00]%byte) (fun n => Z.of_nat n)
      (PasswordGenerationOptions.Build [lit "test"] None
         (PartialPasswordOptions.Build None None None None) None None) = Ok r
    /\ Z.of_nat (List.length (PasswordGenerationResult.password r)) = 16
    /\ PasswordGenerationResult.hashIterations r = 1000.
Proof.
  destruct (generatePassword_result (fun _ => []) (fun _ => [x00]%byte)
              (fun n => Z.of_nat n)
              (PasswordGenerationOptions.Build [lit "test"] None
                 (PartialPasswordOptions.Build None None None None) None None)
              ltac:(discriminate) ltac:(reflexivity) ltac:(simpl; lia))
    as (r & E & Hl & _ & _ & Hi & _).
  exists r. split; [exact E|]. split; [exact Hl | exact Hi].
Defined.

Lemma generatePassword_negative_iterations_witness :
  exists r,
    generatePassword (fun _ => []) (fun _ => [x00]%byte) (fun n => Z.of_nat n)
      (PasswordGenerationOptions.Build [lit "Test"] None
         (PartialPasswordOptions.Build None None None None) None (Some (-1))) = Ok r
    /\ hashToPassword (lit "test") 16 DEFAULT_PASSWORD_OPTIONS
       = Ok (PasswordGenerationResult.password r).
Proof.
  destruct (generatePassword_negative_iterations (fun _ => []) (fun _ => [x00]%byte)
              (fun n => Z.of_nat n) [lit "Test"] None
              (PartialPasswordOptions.Build None None None None) None (-1)
              ltac:(lia) ltac:(reflexivity))
    as (r & E & _ & Hp).
  exists r. split; [exact E | exact Hp].
Defined.

(** ** The metrics of the generator *)

Lemma length_remove_dups {A : Type} `{EqDecision A} (s : list A) :
  (length (remove_dups s) <= length s)%nat.
Proof.
  induction s as [|c s IH]; [reflexivity|]. simpl.
  destruct (decide_rel elem_of c s); simpl; lia.
Qed.

(** X16. [calculateActualDistribution] sorts every code point of the
    password into exactly one class: the four counts add up to the number
    of code points, which is at most the length of the password, and each
    count is the number of code points that the regular expression of its
    class is the first to match (symbols: that none matches). *)
Theorem calculateActualDistribution_total (password : jsstring) :
  totalCount (calculateActualDistribution password)
  = Z.of_nat (length (codePoints password))
  /\ Z.of_nat (length (codePoints password)) <= Z.of_nat (length password)
  /\ forall type,
       typeCount (calculateActualDistribution password) type
       = Z.of_nat (length (filter (fun char => typeOfCodePoint char = type)
                                  (codePoints password))).
Proof.
  unfold calculateActualDistribution. split; [|split].
  - rewrite countTypes_from. reflexivity.
  - pose proof (codePoints_length password). lia.
  - intros type. rewrite countTypes_type_from. destruct type; reflexivity.
Qed.

(** X17. [calculateCharacterDiversity] on a password that is not empty:
    [totalUniqueCharacters] is the number of distinct code points,
    [maxRepetitions] is the count of a most frequent code point, at least
    one; neither exceeds the number of code points, which is at most the
    length, and their product is at least the number of code points. *)
Theorem calculateCharacterDiversity_counts (password : jsstring) :
  password <> [] ->
  let diversity := calculateCharacterDiversity password in
  let unique := CharacterDiversity.totalUniqueCharacters diversity in
  let points := Z.of_nat (length (codePoints password)) in
  unique = Z.of_nat (length (remove_dups (codePoints password)))
  /\ 1 <= unique <= points
  /\ points <= Z.of_nat (length password)
  /\ exists m char,
       CharacterDiversity.maxRepetitions diversity = Some m
       /\ char ∈ codePoints password
       /\ m = codePointOccurrences char password
       /\ (forall char', codePointOccurrences char' password <= m)
       /\ 1 <= m <= points
       /\ points <= unique * m.
Proof.
  intros Hne diversity unique points. subst unique diversity points.
  destruct (calculateCharacterDiversity_unfold password Hne) as [Hu Hm].
  rewrite Hu, Hm. clear Hu Hm.
  destruct (maxActual_spec password) as [Hub [[_ E]|(char & Hc & E)]]; [congruence|].
  cbv zeta in Hub. rewrite E in Hub |- *.
  pose proof (proj2 (codePointOccurrences_pos char password) Hc) as Hpos.
  pose proof (distinct_bound password _ Hub) as Hbound.
  assert (codePointOccurrences char password
          <= Z.of_nat (length (codePoints password))) as Hle
    by (unfold codePointOccurrences;
        pose proof (length_filter (fun c => c = char) (codePoints password)); lia).
  assert (1 <= Z.of_nat (length (countCodePoints password))
          <= Z.of_nat (length (codePoints password))) as Hrange.
  { rewrite countCodePoints_length.
    pose proof (length_remove_dups (codePoints password)).
    assert (char ∈ remove_dups (codePoints password)) as H'
      by (apply elem_of_remove_dups; exact Hc).
    destruct (remove_dups (codePoints password)); [inversion H' | simpl in *; lia]. }
  split; [rewrite countCodePoints_length; reflexivity|].
  split; [exact Hrange|].
  split; [pose proof (codePoints_length password); lia|].
  exists (codePointOccurrences char password), char.
  split; [reflexivity|]. split; [exact Hc|]. split; [reflexivity|].
  split; [exact Hub|]. split; [lia | exact Hbound].
Qed.

Lemma calculateCharacterDiversity_counts_witness :
  exists m,
    CharacterDiversity.maxRepetitions
      (calculateCharacterDiversity [55357; 56832; 97; 55357; 56832]%N) = Some m
    /\ 1 <= m <= 3.
Proof.
  destruct (calculateCharacterDiversity_counts [55357; 56832; 97; 55357; 56832]%N
              ltac:(discriminate))
    as (_ & _ & _ & m & char & Hm & _ & _ & _ & Hr & _).
  exists m. split; [exact Hm | exact Hr].
Defined.

(** ** The selection of a character *)

(** X18. [selectCharacterWithRepetitionControl] on a pool that is not
    empty, with draws that are not negative: it consumes one draw and
    returns a character of the pool; when some character of the pool is
    under the limit the character returned is under the limit, and
    otherwise it is one of the least used characters of the pool. *)
Theorem selectCharacterWithRepetitionControl_contract {G : Type}
    (draw : Z -> G -> Z * G) (availableChars : list N) (characterUsage : gmap N Z)
    (maxRepetitions seed : Z) (g : G) :
  availableChars <> [] ->
  0 <= (draw seed g).1 -> 0 <= (draw (seed + 1000) g).1 ->
  exists c,
    c ∈ availableChars
    /\ ((exists d, d ∈ availableChars /\ usageOf characterUsage d < maxRepetitions)
        /\ usageOf characterUsage c < maxRepetitions
        /\ selectCharacterWithRepetitionControl draw availableChars characterUsage
             maxRepetitions seed g = (Some c, (draw seed g).2)
        \/ (forall d, d ∈ availableChars ->
              maxRepetitions <= usageOf characterUsage d
              /\ usageOf characterUsage c <= usageOf characterUsage d)
           /\ selectCharacterWithRepetitionControl draw availableChars characterUsage
                maxRepetitions seed g = (Some c, (draw (seed + 1000) g).2)).
Proof.
  intros Hpool Hh1 Hh2. unfold selectCharacterWithRepetitionControl.
  destruct (decide _) as [Hsome|Hnone].
  - destruct (draw seed g) as [h g']. simpl in Hh1.
    destruct (arrayGet_rem
                (filter (fun char => usageOf characterUsage char < maxRepetitions)
                        availableChars) h Hh1)
      as (c & Hc & Hin); [intros E; rewrite E in Hsome; simpl in Hsome; lia|].
    apply list_elem_of_filter in Hin. destruct Hin as [Hlt Hin].
    exists c. split; [exact Hin|]. left. split; [exists c; auto|].
    split; [exact Hlt|]. rewrite Hc. reflexivity.
  - assert (forall c, c ∈ availableChars -> maxRepetitions <= usageOf characterUsage c)
      as Hall.
    { intros c Hc.
      destruct (Z.lt_ge_cases (usageOf characterUsage c) maxRepetitions) as [Hlt|]; [|lia].
      exfalso. apply Hnone.
      assert (c ∈ filter (fun char => usageOf characterUsage char < maxRepetitions)
                         availableChars) as Hin
        by (apply list_elem_of_filter; split; assumption).
      destruct (filter _ availableChars); [inversion Hin | simpl; lia]. }
    destruct (mathMin_spec (usageOf characterUsage <$> availableChars))
      as (m & Hm & Hmin & Hle);
      [destruct availableChars; [congruence | discriminate]|].
    rewrite Hm.
    apply list_elem_of_fmap in Hmin. destruct Hmin as (c0 & Hc0 & Hc0in).
    destruct (draw (seed + 1000) g) as [h g']. simpl in Hh2.
    destruct (arrayGet_rem
                (filter (fun char => Some (usageOf characterUsage char) = Some m)
                        availableChars) h Hh2)
      as (c & Hc & Hin).
    { intros E.
      assert (c0 ∈ filter (fun char => Some (usageOf characterUsage char) = Some m)
                          availableChars) as Hin
        by (apply list_elem_of_filter; split; [congruence | assumption]).
      rewrite E in Hin. inversion Hin. }
    apply list_elem_of_filter in Hin. destruct Hin as [Heq Hin].
    injection Heq as Heq.
    exists c. split; [exact Hin|]. right. split; [|rewrite Hc; reflexivity].
    intros d Hd. split; [apply Hall; exact Hd|].
    rewrite Heq. apply Hle, list_elem_of_fmap. exists d. auto.
Qed.

Lemma selectCharacterWithRepetitionControl_contract_witness :
  exists c,
    c ∈ lit "ab"
    /\ (selectCharacterWithRepetitionControl (getHashValue testDigest) (lit "ab")
          (<[97%N := 2]> ∅) 2 5 0).1 = Some c.
Proof.
  destruct (selectCharacterWithRepetitionControl_contract (getHashValue testDigest)
              (lit "ab") (<[97%N := 2]> ∅) 2 5 0
              ltac:(discriminate) ltac:(vm_compute; discriminate)
              ltac:(vm_compute; discriminate))
    as (c & Hc & [(_ & _ & E)|(_ & E)]);
    exists c; (split; [exact Hc | rewrite E; reflexivity]).
Defined.

(** ** The shuffle *)

Lemma occurrences_count_occ (c : N) (s : jsstring) :
  occurrences c s = Z.of_nat (count_occ N.eq_dec s c).
Proof.
  induction s as [|d s IH]; [reflexivity|].
  rewrite occurrences_cons, IH. simpl.
  destruct (N.eq_dec d c) as [E|Hne].
  - rewrite decide_True by exact E. lia.
  - rewrite decide_False by exact Hne. lia.
Qed.

Section Shuffle.

Context {G : Type}.
Variable draw : Z -> G -> Z * G.
Variable good : G -> Prop.
Hypothesis draw_good : forall seed g,
  0 <= seed -> good g -> 0 <= (draw seed g).1 /\ good (draw seed g).2.

Variable len : Z.

(** A swap keeps what the cells hold, hole or character, each as often as
    before, and touches neither the used positions nor the usage map. *)
Lemma shuffleStep_swap (st : MapperState (G := G)) (i : Z) :
  1 <= i < len -> good (generator st) ->
  let st' := shuffleStep draw st i in
  good (generator st')
  /\ usedPositions st' = usedPositions st
  /\ characterUsage st' = characterUsage st
  /\ forall x, countOcc x (cells (password st') len)
               = countOcc x (cells (password st) len).
Proof.
  intros Hi Hg. unfold shuffleStep.
  destruct (draw_good (i * 400) (generator st) ltac:(lia) Hg) as [Hh Hg'].
  destruct (draw (i * 400) (generator st)) as [h g']. simpl in Hh, Hg'.
  pose proof (jsRem_range h (i + 1) Hh ltac:(lia)) as Hj.
  set (j := jsRem h (i + 1)) in *. cbv zeta.
  split; [exact Hg'|]. split; [reflexivity|]. split; [reflexivity|].
  cbn [password]. intros x.
  rewrite !cells_arraySet by lia.
  rewrite (countOcc_insert _ _ (password st !! j)).
  - rewrite (countOcc_insert _ _ (password st !! i)) by (apply cells_lookup; lia).
    lia.
  - destruct (decide (Z.to_nat i = Z.to_nat j)) as [E|Hne].
    + rewrite <- E. apply list_lookup_insert_eq. rewrite length_cells. lia.
    + rewrite list_lookup_insert_ne by exact Hne. apply cells_lookup. lia.
Qed.

(** X19. [shufflePassword], run with draws that are not negative, only
    permutes: the joined password after the shuffle is a permutation of the
    joined password before it, and neither the set of used positions nor
    the usage map changes. *)
Theorem shufflePassword_permutes (st : MapperState (G := G)) :
  good (generator st) ->
  let st' := shufflePassword draw len st in
  arrayJoin (password st') len ≡ₚ arrayJoin (password st) len
  /\ usedPositions st' = usedPositions st
  /\ characterUsage st' = characterUsage st.
Proof.
  intros Hg st'.
  assert (good (generator st')
          /\ usedPositions st' = usedPositions st
          /\ characterUsage st' = characterUsage st
          /\ forall x, countOcc x (cells (password st') len)
                       = countOcc x (cells (password st) len)) as (_ & Hu & Hc & Hsame).
  { subst st'. unfold shufflePassword.
    apply (foldl_preserves
             (fun s => good (generator s)
                       /\ usedPositions s = usedPositions st
                       /\ characterUsage s = characterUsage st
                       /\ forall x, countOcc x (cells (password s) len)
                                    = countOcc x (cells (password st) len))).
    - intros s i Hi (Hgs & Hus & Hcs & Hxs). apply elem_of_reverse, elem_of_seqZ in Hi.
      destruct (shuffleStep_swap s i ltac:(lia) Hgs) as (Hg' & Hu' & Hc' & Hx').
      split; [exact Hg'|]. split; [congruence|]. split; [congruence|].
      intros x. rewrite Hx'. apply Hxs.
    - auto. }
  split; [|auto].
  apply (Permutation_count_occ N.eq_dec). intros c.
  apply Nat2Z.inj. rewrite <- !occurrences_count_occ, !occurrences_arrayJoin.
  apply Hsame.
Qed.

End Shuffle.

Lemma shufflePassword_permutes_witness :
  arrayJoin (password (afterShuffle testDigest 8 DEFAULT_PASSWORD_OPTIONS)) 8
  ≡ₚ arrayJoin (password (afterFill testDigest 8 DEFAULT_PASSWORD_OPTIONS)) 8.
Proof.
  assert (isDigest testDigest) as Hd
    by (split; [vm_compute; discriminate | vm_compute; reflexivity]).
  apply (shufflePassword_permutes (getHashValue testDigest) cursorOk
           (digest_draw_good testDigest Hd) 8
           (afterFill testDigest 8 DEFAULT_PASSWORD_OPTIONS)).
  unfold cursorOk. vm_compute. discriminate.
Defined.

(** ** The password analyzer *)

(** X20. [countCharacterTypes] counts every code point under exactly one
    class: the four counts add up to the number of code points, which is at
    most [total], the number of code units. *)
Theorem countCharacterTypes_total (password : jsstring) :
  let counts := countCharacterTypes password in
  CharacterTypeCounts.uppercase counts + CharacterTypeCounts.lowercase counts
  + CharacterTypeCounts.numbers counts + CharacterTypeCounts.symbols counts
  = Z.of_nat (length (codePoints password))
  /\ Z.of_nat (length (codePoints password)) <= CharacterTypeCounts.total counts
  /\ CharacterTypeCounts.total counts = Z.of_nat (length password).
Proof.
  intros counts. subst counts. unfold countCharacterTypes.
  cbn [CharacterTypeCounts.uppercase CharacterTypeCounts.lowercase
       CharacterTypeCounts.numbers CharacterTypeCounts.symbols
       CharacterTypeCounts.total].
  split.
  { pose proof (countTypes_from (codePoints password) (TargetDistribution.Build 0 0 0 0))
      as H. unfold totalCount at 1 in H. rewrite H. reflexivity. }
  split; [pose proof (codePoints_length password); lia | reflexivity].
Qed.

(** X21. On a password without surrogates, the four counts of
    [countCharacterTypes] add up to [total] and are the counts that the
    generator computes with [calculateActualDistribution] and reports as
    [characterDistribution]. *)
Theorem countCharacterTypes_agrees (password : jsstring) :
  (forall c, c ∈ password -> isHighSurrogate c = false) ->
  let counts := countCharacterTypes password in
  CharacterTypeCounts.uppercase counts + CharacterTypeCounts.lowercase counts
  + CharacterTypeCounts.numbers counts + CharacterTypeCounts.symbols counts
  = CharacterTypeCounts.total counts
  /\ TargetDistribution.Build
       (CharacterTypeCounts.uppercase counts) (CharacterTypeCounts.lowercase counts)
       (CharacterTypeCounts.numbers counts) (CharacterTypeCounts.symbols counts)
     = calculateActualDistribution password.
Proof.
  intros Hs counts. subst counts. unfold countCharacterTypes.
  cbn [CharacterTypeCounts.uppercase CharacterTypeCounts.lowercase
       CharacterTypeCounts.numbers CharacterTypeCounts.symbols
       CharacterTypeCounts.total].
  split.
  { pose proof (countTypes_from (codePoints password) (TargetDistribution.Build 0 0 0 0))
      as H. unfold totalCount at 1 in H. rewrite H.
    rewrite (codePoints_units password Hs), length_fmap. reflexivity. }
  unfold calculateActualDistribution.
  destruct (foldl _ _ (codePoints password)). reflexivity.
Qed.

Lemma countCharacterTypes_agrees_witness :
  TargetDistribution.Build
    (CharacterTypeCounts.uppercase (countCharacterTypes (lit "Ab1!")))
    (CharacterTypeCounts.lowercase (countCharacterTypes (lit "Ab1!")))
    (CharacterTypeCounts.numbers (countCharacterTypes (lit "Ab1!")))
    (CharacterTypeCounts.symbols (countCharacterTypes (lit "Ab1!")))
  = calculateActualDistribution (lit "Ab1!").
Proof.
  apply (countCharacterTypes_agrees (lit "Ab1!")).
  intros c Hc. vm_compute in Hc.
  repeat (apply elem_of_cons in Hc; destruct Hc as [->|Hc]); [..|inversion Hc];
    reflexivity.
Defined.

(** X22. [hasRepeatedCharacters] is true exactly when some code unit is
    followed by an equal one. *)
Theorem hasRepeatedCharacters_iff (password : jsstring) :
  hasRepeatedCharacters password = true
  <-> exists (i : nat) (c : N), password !! i = Some c /\ password !! S i = Some c.
Proof.
  induction password as [|c1 rest IH]; [split; [discriminate | intros (i & c & H & _); discriminate]|].
  destruct rest as [|c2 rest'].
  { split; [discriminate|]. intros (i & c & H1 & H2). destruct i; discriminate. }
  change (hasRepeatedCharacters (c1 :: c2 :: rest'))
    with (if (c1 =? c2)%N then true else hasRepeatedCharacters (c2 :: rest')).
  destruct (N.eqb_spec c1 c2) as [->|Hne].
  - split; [|reflexivity]. intros _. exists 0%nat, c2. split; reflexivity.
  - rewrite IH. split.
    + intros (i & c & H1 & H2). exists (S i), c. split; assumption.
    + intros (i & c & H1 & H2). destruct i as [|i].
      * simpl in H1, H2. congruence.
      * exists i, c. split; assumption.
Qed.

(** X23. [hasSequentialCharacters] is true exactly when three code units
    in a row ascend by one each; descending runs are not looked for. *)
Theorem hasSequentialCharacters_iff (password : jsstring) :
  hasSequentialCharacters password = true
  <-> exists (i : nat) (c : N),
        password !! i = Some c /\ password !! S i = Some (c + 1)%N
        /\ password !! S (S i) = Some (c + 2)%N.
Proof.
  induction password as [|c1 rest IH];
    [split; [discriminate | intros (i & c & H & _); discriminate]|].
  destruct rest as [|c2 [|c3 rest']].
  { split; [discriminate|]. intros (i & c & H1 & H2 & _). destruct i; discriminate. }
  { split; [discriminate|]. intros (i & c & H1 & H2 & H3).
    destruct i as [|[|i]]; discriminate. }
  change (hasSequentialCharacters (c1 :: c2 :: c3 :: rest'))
    with (if ((c2 =? c1 + 1) && (c3 =? c2 + 1))%N then true
          else hasSequentialCharacters (c2 :: c3 :: rest')).
  destruct ((c2 =? c1 + 1) && (c3 =? c2 + 1))%N eqn:E.
  - split; [|reflexivity]. intros _.
    apply andb_prop in E. destruct E as [E1 E2].
    apply N.eqb_eq in E1, E2. subst c2 c3.
    exists 0%nat, c1. simpl. repeat split. f_equal. lia.
  - rewrite IH. split.
    + intros (i & c & H1 & H2 & H3). exists (S i), c. auto.
    + intros (i & c & H1 & H2 & H3). destruct i as [|i].
      * simpl in H1, H2, H3. injection H1 as E1. injection H2 as E2.
        injection H3 as E3. exfalso. apply andb_false_iff in E.
        destruct E as [E|E]; apply N.eqb_neq in E; lia.
      * exists i, c. auto.
Qed.

(** *** Repetition analysis *)

Lemma calculateMaxAllowedRepetitions_eq (length : Z) :
  calculateMaxAllowedRepetitions length = calculateMaxRepetitions length.
Proof. reflexivity. Qed.

(** The loop over the entries: the running maximum and the violations. *)
Lemma checkEntries_fold (maxAllowedRepetitions : Z) (entries : list (jsstring * Z))
    (maxActual : Z) (violations : list RepetitionViolation.t) :
  foldl (checkEntry maxAllowedRepetitions) (maxActual, violations) entries
  = (foldl Z.max maxActual entries.*2,
     violations
     ++ ((fun entry => RepetitionViolation.Build entry.1 entry.2 maxAllowedRepetitions)
           <$> filter (fun entry => maxAllowedRepetitions < entry.2) entries)).
Proof.
  revert maxActual violations.
  induction entries as [|[char count] entries IH]; intros maxActual violations.
  - simpl. rewrite app_nil_r. reflexivity.
  - simpl foldl. rewrite IH. rewrite filter_cons. cbn [snd fst].
    f_equal.
    + f_equal. destruct (Z.ltb_spec maxActual count); lia.
    + destruct (Z.ltb_spec maxAllowedRepetitions count).
      * rewrite decide_True by assumption. rewrite fmap_cons, <- app_assoc. reflexivity.
      * rewrite decide_False by lia. reflexivity.
Qed.

Lemma analyzeRepetitionPattern_unfold (password : jsstring) :
  let maxAllowedRepetitions :=
    calculateMaxAllowedRepetitions (Z.of_nat (length password)) in
  let maxActual := foldl Z.max 0 (countCodePoints password).*2 in
  let violations :=
    (fun entry => RepetitionViolation.Build entry.1 entry.2 maxAllowedRepetitions)
      <$> filter (fun entry => maxAllowedRepetitions < entry.2)
                 (countCodePoints password) in
  analyzeRepetitionPattern password
  = {| RepetitionAnalysis.hasExcessiveRepetition := (0 <? length violations)%nat;
       RepetitionAnalysis.maxAllowedRepetitions := maxAllowedRepetitions;
       RepetitionAnalysis.repetitionViolations := violations;
       RepetitionAnalysis.repetitionQuality :=
         if maxActual <=? Z.max 1 (maxAllowedRepetitions - 1) then Excellent
         else if maxActual <=? maxAllowedRepetitions then Good
         else if maxActual <=? maxAllowedRepetitions + 1 then Fair
         else Poor |}.
Proof.
  intros a maxActual violations. unfold analyzeRepetitionPattern.
  rewrite checkEntries_fold. reflexivity.
Qed.

Lemma violations_spec (password : jsstring) (v : RepetitionViolation.t) :
  let maxAllowedRepetitions :=
    calculateMaxAllowedRepetitions (Z.of_nat (length password)) in
  v ∈ ((fun entry => RepetitionViolation.Build entry.1 entry.2 maxAllowedRepetitions)
         <$> filter (fun entry => maxAllowedRepetitions < entry.2)
                    (countCodePoints password))
  <-> RepetitionViolation.count v
      = codePointOccurrences (RepetitionViolation.character v) password
      /\ maxAllowedRepetitions < RepetitionViolation.count v
      /\ RepetitionViolation.maxAllowed v = maxAllowedRepetitions.
Proof.
  intros a.
  destruct (countCodePoints_spec password) as (Hnd & Hkeys & Hentries).
  assert (2 <= a) as Ha
    by (unfold a; rewrite calculateMaxAllowedRepetitions_eq;
        apply calculateMaxRepetitions_room).
  rewrite list_elem_of_fmap. split.
  - intros ([char count] & -> & Hin). apply list_elem_of_filter in Hin.
    destruct Hin as [Hgt Hin]. apply Hentries in Hin. destruct Hin as [Hc ->].
    simpl in *. auto.
  - destruct v as [char count a']. simpl. intros (-> & Hgt & ->).
    exists (char, codePointOccurrences char password). split; [reflexivity|].
    apply list_elem_of_filter. split; [exact Hgt|]. apply Hentries. split; [|reflexivity].
    apply codePointOccurrences_pos. lia.
Qed.

(** X24. [analyzeRepetitionPattern]: the violations are the code points
    that occur more often than [calculateMaxAllowedRepetitions] allows,
    each listed once with its count; [hasExcessiveRepetition] says whether
    there is one; and the quality is [Excellent] when no code point reaches
    the limit, [Good] when the most frequent one is at the limit, [Fair]
    when it is one over, [Poor] beyond. *)
Theorem analyzeRepetitionPattern_spec (password : jsstring) :
  let analysis := analyzeRepetitionPattern password in
  let allowed := calculateMaxAllowedRepetitions (Z.of_nat (length password)) in
  RepetitionAnalysis.maxAllowedRepetitions analysis = allowed
  /\ (forall v, v ∈ RepetitionAnalysis.repetitionViolations analysis
                <-> RepetitionViolation.count v
                    = codePointOccurrences (RepetitionViolation.character v) password
                    /\ allowed < RepetitionViolation.count v
                    /\ RepetitionViolation.maxAllowed v = allowed)
  /\ NoDup (RepetitionViolation.character
              <$> RepetitionAnalysis.repetitionViolations analysis)
  /\ (RepetitionAnalysis.hasExcessiveRepetition analysis = true
      <-> exists char, allowed < codePointOccurrences char password)
  /\ (RepetitionAnalysis.repetitionQuality analysis = Excellent
      <-> forall char, codePointOccurrences char password <= allowed - 1)
  /\ (RepetitionAnalysis.repetitionQuality analysis = Good
      <-> (forall char, codePointOccurrences char password <= allowed)
          /\ exists char, codePointOccurrences char password = allowed)
  /\ (RepetitionAnalysis.repetitionQuality analysis = Fair
      <-> (forall char, codePointOccurrences char password <= allowed + 1)
          /\ exists char, codePointOccurrences char password = allowed + 1)
  /\ (RepetitionAnalysis.repetitionQuality analysis = Poor
      <-> exists char, allowed + 1 < codePointOccurrences char password).
Proof.
  intros analysis allowed. subst analysis.
  rewrite analyzeRepetitionPattern_unfold. cbv zeta. fold allowed.
  cbn [RepetitionAnalysis.maxAllowedRepetitions RepetitionAnalysis.repetitionViolations
       RepetitionAnalysis.hasExcessiveRepetition RepetitionAnalysis.repetitionQuality].
  assert (2 <= allowed) as Ha
    by (unfold allowed; rewrite calculateMaxAllowedRepetitions_eq;
        apply calculateMaxRepetitions_room).
  destruct (maxActual_spec password) as [Hub Hreach]. cbv zeta in Hub, Hreach.
  set (maxActual := foldl Z.max 0 (countCodePoints password).*2) in *.
  pose proof (fun v => violations_spec password v) as Hv. cbv zeta in Hv. fold allowed in Hv.
  set (violations :=
         (fun entry => RepetitionViolation.Build entry.1 entry.2 allowed)
           <$> filter (fun entry => allowed < entry.2) (countCodePoints password)) in *.
  assert (forall bound, 0 <= bound ->
            maxActual <= bound
            <-> forall char, codePointOccurrences char password <= bound) as Hle.
  { intros bound Hb. split.
    - intros H char. specialize (Hub char). lia.
    - intros H. destruct Hreach as [[-> _]|(char & _ & ->)]; [lia | apply H]. }
  assert (forall bound, 0 < bound ->
            maxActual = bound
            <-> (forall char, codePointOccurrences char password <= bound)
                /\ exists char, codePointOccurrences char password = bound) as Heq.
  { intros bound Hb. split.
    - intros E. split; [apply Hle; lia|].
      destruct Hreach as [[E0 _]|(char & _ & E')]; [lia|]. exists char. lia.
    - intros [H (char & E)]. apply Hle in H; [|lia]. specialize (Hub char). lia. }
  split; [reflexivity|]. split; [exact Hv|]. split.
  { unfold violations. rewrite <- list_fmap_compose.
    apply (sublist_NoDup _ (countCodePoints password).*1);
      [apply countCodePoints_spec|].
    apply fmap_sublist, sublist_filter. }
  split.
  { split.
    - intros H. apply Nat.ltb_lt in H.
      destruct violations as [|v vs] eqn:E; [simpl in H; lia|].
      assert (v ∈ v :: vs) as Hin by left. apply Hv in Hin.
      destruct Hin as (Hc & Hgt & _). exists (RepetitionViolation.character v). lia.
    - intros (char & Hgt). apply Nat.ltb_lt.
      assert (RepetitionViolation.Build char (codePointOccurrences char password) allowed
              ∈ violations) as Hin by (apply Hv; simpl; auto).
      destruct violations; [inversion Hin | simpl; lia]. }
  replace (Z.max 1 (allowed - 1)) with (allowed - 1) by lia.
  destruct (Z.leb_spec maxActual (allowed - 1)) as [H1|H1].
  { split; [split; [intros _; apply Hle; lia | reflexivity]|].
    split; [split; [discriminate|]|split; [split; [discriminate|]|split; [discriminate|]]].
    - intros [_ (char & E)]. specialize (Hub char). lia.
    - intros [_ (char & E)]. specialize (Hub char). lia.
    - intros (char & E). specialize (Hub char). lia. }
  destruct (Z.leb_spec maxActual allowed) as [H2|H2].
  { split; [split; [discriminate | intros H; apply Hle in H; lia]|].
    split; [split; [intros _; apply Heq; lia | reflexivity]|].
    split; [split; [discriminate|]|split; [discriminate|]].
    - intros [_ (char & E)]. specialize (Hub char). lia.
    - intros (char & E). specialize (Hub char). lia. }
  destruct (Z.leb_spec maxActual (allowed + 1)) as [H3|H3].
  { split; [split; [discriminate | intros H; apply Hle in H; lia]|].
    split; [split; [discriminate | intros [H _]; apply Hle in H; lia]|].
    split; [split; [intros _; apply Heq; lia | reflexivity]|].
    split; [discriminate|]. intros (char & E). specialize (Hub char). lia. }
  split; [split; [discriminate | intros H; apply Hle in H; lia]|].
  split; [split; [discriminate | intros [H _]; apply Hle in H; lia]|].
  split; [split; [discriminate | intros [H _]; apply Hle in H; lia]|].
  split; [|reflexivity]. intros _.
  destruct Hreach as [[E0 _]|(char & _ & E')]; [lia|]. exists char. lia.
Qed.

(** On a password without surrogates, the occurrences of a code point are
    the occurrences of its code unit. *)
Lemma codePointOccurrences_unit (password : jsstring) (c : N) :
  (forall d, d ∈ password -> isHighSurrogate d = false) ->
  codePointOccurrences [c] password = occurrences c password.
Proof.
  intros Hs. unfold codePointOccurrences, occurrences.
  rewrite (codePoints_units password Hs). clear Hs. f_equal.
  induction password as [|d s IH]; [reflexivity|].
  rewrite fmap_cons, !filter_cons.
  destruct (decide (d = c)) as [->|Hne].
  - rewrite decide_True by reflexivity. simpl. rewrite IH. reflexivity.
  - rewrite decide_False by congruence. exact IH.
Qed.

Lemma codePointOccurrences_bound (password : jsstring) (bound : Z) :
  (forall d, d ∈ password -> isHighSurrogate d = false) ->
  (forall c, occurrences c password <= bound) ->
  forall char, char ∈ codePoints password ->
    codePointOccurrences char password <= bound.
Proof.
  intros Hs Hb char Hin. rewrite (codePoints_units password Hs) in Hin.
  apply list_elem_of_fmap in Hin. destruct Hin as (c & -> & _).
  rewrite codePointOccurrences_unit by exact Hs. apply Hb.
Qed.

(** What the analyzer finds in a password whose characters occur at most
    [bound] times each. *)
Lemma analyzeRepetitionPattern_bounded (password : jsstring) (bound : Z) :
  (forall d, d ∈ password -> isHighSurrogate d = false) ->
  (forall c, occurrences c password <= bound) ->
  let analysis := analyzeRepetitionPattern password in
  let allowed := calculateMaxAllowedRepetitions (Z.of_nat (length password)) in
  (forall v, v ∈ RepetitionAnalysis.repetitionViolations analysis ->
     allowed < RepetitionViolation.count v <= bound)
  /\ (bound <= allowed ->
      RepetitionAnalysis.repetitionQuality analysis = Excellent
      \/ RepetitionAnalysis.repetitionQuality analysis = Good)
  /\ (bound <= allowed + 1 ->
      RepetitionAnalysis.repetitionQuality analysis <> Poor).
Proof.
  intros Hs Hb analysis allowed. subst analysis.
  rewrite analyzeRepetitionPattern_unfold. cbv zeta. fold allowed.
  cbn [RepetitionAnalysis.repetitionViolations RepetitionAnalysis.repetitionQuality].
  assert (2 <= allowed) as Ha
    by (unfold allowed; rewrite calculateMaxAllowedRepetitions_eq;
        apply calculateMaxRepetitions_room).
  destruct (maxActual_spec password) as [Hub Hreach]. cbv zeta in Hub, Hreach.
  set (maxActual := foldl Z.max 0 (countCodePoints password).*2) in *.
  split.
  { intros v Hv. apply violations_spec in Hv. destruct Hv as (Hc & Hgt & _).
    split; [exact Hgt|]. rewrite Hc. apply codePointOccurrences_bound; [assumption..|].
    apply codePointOccurrences_pos. lia. }
  assert (0 <= bound -> maxActual <= bound) as Hmax.
  { intros H0. destruct Hreach as [[-> _]|(char & Hin & ->)]; [exact H0|].
    apply codePointOccurrences_bound; assumption. }
  assert (0 <= bound \/ password = []) as Hcase.
  { destruct password as [|c s]; [right; reflexivity | left].
    specialize (Hb c). pose proof (occurrences_nonneg c s).
    rewrite occurrences_cons, decide_True in Hb by reflexivity. lia. }
  assert (maxActual <= Z.max 0 bound) as Hm.
  { destruct Hcase as [H0|E]; [specialize (Hmax H0); lia|].
    unfold maxActual. rewrite E. simpl. lia. }
  split.
  - intros Hle. destruct (maxActual <=? Z.max 1 (allowed - 1)); [left; reflexivity|].
    destruct (Z.leb_spec maxActual allowed); [right; reflexivity | lia].
  - intros Hle. destruct (maxActual <=? Z.max 1 (allowed - 1)); [discriminate|].
    destruct (maxActual <=? allowed); [discriminate|].
    destruct (Z.leb_spec maxActual (allowed + 1)); [discriminate | lia].
Qed.

(** X25. The analyzer finds nothing to object to in the repetitions of a
    password generated with the four classes: for a digest and a length
    from 8 to 128, [analyzeRepetitionPattern] reports no violation and the
    quality [Excellent] or [Good]. *)
Theorem analyzer_accepts_default_passwords (hash : jsstring) (length : Z) :
  isDigest hash -> 8 <= length <= 128 ->
  exists pw,
    hashToPassword hash length DEFAULT_PASSWORD_OPTIONS = Ok pw
    /\ RepetitionAnalysis.hasExcessiveRepetition (analyzeRepetitionPattern pw) = false
    /\ RepetitionAnalysis.repetitionViolations (analyzeRepetitionPattern pw) = []
    /\ (RepetitionAnalysis.repetitionQuality (analyzeRepetitionPattern pw) = Excellent
        \/ RepetitionAnalysis.repetitionQuality (analyzeRepetitionPattern pw) = Good).
Proof.
  intros Hd Hlen. eexists. split; [apply hashToPassword_Ok; lia|].
  set (pw := arrayJoin (password (afterShuffle hash length DEFAULT_PASSWORD_OPTIONS))
                       length).
  destruct (default_within_budget hash length Hd Hlen) as [Hall Hmax].
  assert (Z.of_nat (List.length pw) = length) as Hl
    by (unfold pw; rewrite length_arrayJoin by exact Hall; lia).
  destruct (analyzeRepetitionPattern_bounded pw (calculateMaxRepetitions length))
    as (Hv & Hq & _).
  { apply afterShuffle_ascii; [exact Hd | lia]. }
  { intros c. unfold pw. rewrite occurrences_arrayJoin. apply Hmax. }
  rewrite Hl in Hv, Hq.
  change (calculateMaxAllowedRepetitions length)
    with (calculateMaxRepetitions length) in Hv, Hq.
  assert (RepetitionAnalysis.repetitionViolations (analyzeRepetitionPattern pw) = [])
    as Hnone.
  { destruct (RepetitionAnalysis.repetitionViolations (analyzeRepetitionPattern pw))
      as [|v vs]; [reflexivity|].
    specialize (Hv v ltac:(left)). lia. }
  split; [|split; [exact Hnone | apply Hq; lia]].
  pose proof (analyzeRepetitionPattern_unfold pw) as E. cbv zeta in E.
  rewrite E in Hnone |- *.
  cbn [RepetitionAnalysis.repetitionViolations RepetitionAnalysis.hasExcessiveRepetition]
    in Hnone |- *.
  rewrite Hnone. reflexivity.
Qed.

Lemma analyzer_accepts_default_passwords_witness :
  exists pw,
    hashToPassword testDigest 16 DEFAULT_PASSWORD_OPTIONS = Ok pw
    /\ RepetitionAnalysis.repetitionViolations (analyzeRepetitionPattern pw) = [].
Proof.
  assert (isDigest testDigest) as Hd
    by (split; [vm_compute; discriminate | vm_compute; reflexivity]).
  destruct (analyzer_accepts_default_passwords testDigest 16 Hd ltac:(lia))
    as (pw & E & _ & Hv & _).
  exists pw. split; [exact E | exact Hv].
Defined.

(** X26. Whatever classes are enabled, a password generated from a digest
    with a length from 8 to 128 is never rated [Poor] by
    [analyzeRepetitionPattern], and a character it reports as a violation
    occurs exactly once more than allowed. *)
Theorem analyzer_never_rates_poor (hash : jsstring) (length : Z)
    (options : PasswordOptions.t) :
  isDigest hash -> 8 <= length <= 128 ->
  exists pw,
    hashToPassword hash length options = Ok pw
    /\ RepetitionAnalysis.repetitionQuality (analyzeRepetitionPattern pw) <> Poor
    /\ forall v, v ∈ RepetitionAnalysis.repetitionViolations (analyzeRepetitionPattern pw) ->
         RepetitionViolation.count v
         = RepetitionAnalysis.maxAllowedRepetitions (analyzeRepetitionPattern pw) + 1.
Proof.
  intros Hd Hlen. eexists. split; [apply hashToPassword_Ok; lia|].
  set (pw := arrayJoin (password (afterShuffle hash length options)) length).
  destruct (hashToPassword_passes hash length options Hd ltac:(lia))
    as (_ & _ & Hall & Hmax).
  assert (Z.of_nat (List.length pw) = length) as Hl
    by (unfold pw; rewrite length_arrayJoin by exact Hall; lia).
  destruct (analyzeRepetitionPattern_bounded pw (calculateMaxRepetitions length + 1))
    as (Hv & _ & Hq).
  { apply afterShuffle_ascii; [exact Hd | lia]. }
  { intros c. unfold pw. rewrite occurrences_arrayJoin. apply Hmax. }
  rewrite Hl in Hv, Hq.
  change (calculateMaxAllowedRepetitions length)
    with (calculateMaxRepetitions length) in Hv, Hq.
  split; [apply Hq; lia|].
  intros v Hin. specialize (Hv v Hin).
  pose proof (analyzeRepetitionPattern_unfold pw) as E. cbv zeta in E. rewrite E.
  cbn [RepetitionAnalysis.maxAllowedRepetitions].
  rewrite Hl.
  change (calculateMaxAllowedRepetitions length) with (calculateMaxRepetitions length).
  lia.
Qed.

Lemma analyzer_never_rates_poor_witness :
  exists pw,
    hashToPassword testDigest 128 (PasswordOptions.Build false false true false) = Ok pw
    /\ RepetitionAnalysis.repetitionQuality (analyzeRepetitionPattern pw) <> Poor.
Proof.
  assert (isDigest testDigest) as Hd
    by (split; [vm_compute; discriminate | vm_compute; reflexivity]).
  destruct (analyzer_never_rates_poor testDigest 128
              (PasswordOptions.Build false false true false) Hd ltac:(lia))
    as (pw & E & Hq & _).
  exists pw. split; [exact E | exact Hq].
Defined.

(** *** The distinct characters of four-class passwords *)

(** X31. What the generator does guarantee about distinct characters: for
    every digest and every length from 8 to 128, with the default four
    classes, no character occurs more often than the repetition budget, so
    the number of distinct characters times the budget is at least the
    length; for the lengths up to 23, whose budget is 2, at least 40% of
    the characters are distinct. *)
Theorem default_passwords_distinct (hash : jsstring) (length : Z) :
  isDigest hash -> 8 <= length <= 128 ->
  exists pw,
    hashToPassword hash length DEFAULT_PASSWORD_OPTIONS = Ok pw
    /\ Z.of_nat (List.length pw) = length
    /\ (forall c, occurrences c pw <= RepetitionBudget length)
    /\ length
       <= CharacterDiversity.totalUniqueCharacters (calculateCharacterDiversity pw)
          * RepetitionBudget length
    /\ (length <= 23 ->
        2 * length
        <= 5 * CharacterDiversity.totalUniqueCharacters (calculateCharacterDiversity pw)).
Proof.
  intros Hd Hlen.
  destruct (default_within_budget hash length Hd Hlen) as [Hall Hcount].
  eexists. split; [apply hashToPassword_Ok; lia|].
  set (pw := arrayJoin (password (afterShuffle hash length DEFAULT_PASSWORD_OPTIONS))
                       length).
  assert (Z.of_nat (List.length pw) = length) as Hlength
    by (unfold pw; rewrite length_arrayJoin by exact Hall; lia).
  assert (forall c, occurrences c pw <= RepetitionBudget length) as Hocc.
  { intros c. unfold pw.
    rewrite occurrences_arrayJoin, <- calculateMaxRepetitions_budget. apply Hcount. }
  assert (forall c, c ∈ pw -> isHighSurrogate c = false) as Hs
    by (apply afterShuffle_ascii; [exact Hd | lia]).
  assert (pw <> []) as Hne
    by (intros E; rewrite E in Hlength; simpl in Hlength; lia).
  assert (2 <= RepetitionBudget length) as Hb2
    by (rewrite <- calculateMaxRepetitions_budget; apply calculateMaxRepetitions_room).
  pose proof (distinct_bound pw (RepetitionBudget length)
                (codePointOccurrences_bounded pw (RepetitionBudget length)
                   ltac:(lia) Hocc)) as Hunique.
  rewrite (codePoints_units pw Hs), length_fmap, Hlength in Hunique.
  destruct (calculateCharacterDiversity_unfold pw Hne) as [Hu _]. rewrite Hu.
  split; [exact Hlength|]. split; [exact Hocc|]. split; [exact Hunique|].
  intros Hshort.
  assert (RepetitionBudget length = 2) as E.
  { unfold RepetitionBudget. repeat case_decide; try lia.
    - assert (length / 6 < 3) by (apply Z.div_lt_upper_bound; lia). lia.
    - assert (length / 8 < 3) by (apply Z.div_lt_upper_bound; lia). lia. }
  rewrite E in Hunique. lia.
Qed.

Lemma default_passwords_distinct_witness :
  isDigest testDigest /\ 8 <= 16 <= 128
  /\ exists pw,
       hashToPassword testDigest 16 DEFAULT_PASSWORD_OPTIONS = Ok pw
       /\ 2 * 16
          <= 5 * CharacterDiversity.totalUniqueCharacters (calculateCharacterDiversity pw).
Proof.
  assert (isDigest testDigest) as Hd
    by (split; [vm_compute; discriminate | vm_compute; reflexivity]).
  assert (8 <= 16 <= 128) as Hlen by lia.
  destruct (default_passwords_distinct testDigest 16 Hd Hlen)
    as (pw & Hpw & _ & _ & _ & Hratio).
  split; [exact Hd|]. split; [exact Hlen|].
  exists pw. split; [exact Hpw | apply Hratio; lia].
Defined.

(** *** Character diversity *)

Lemma analyzeCharacterDiversity_unfold (password : jsstring) :
  password <> [] ->
  let charCount := countCodePoints password in
  let allowed := calculateMaxAllowedRepetitions (Z.of_nat (length password)) in
  let maxActual := foldl Z.max 0 charCount.*2 in
  CharacterDiversityMetrics.totalUniqueCharacters (analyzeCharacterDiversity password)
  = Z.of_nat (length charCount)
  /\ CharacterDiversityMetrics.maxRepetitions (analyzeCharacterDiversity password)
     = Some maxActual
  /\ CharacterDiversityMetrics.repetitionScore (analyzeCharacterDiversity password)
     = if maxActual <=? allowed then 100
       else Z.max 0 (100 - (maxActual - allowed) * 20).
Proof.
  intros Hne charCount allowed maxActual. unfold analyzeCharacterDiversity.
  destruct (decide (length password = 0%nat)) as [E|_];
    [destruct password; [congruence | discriminate]|].
  cbn [CharacterDiversityMetrics.totalUniqueCharacters
       CharacterDiversityMetrics.maxRepetitions
       CharacterDiversityMetrics.repetitionScore].
  fold charCount. fold allowed.
  assert (mathMax charCount.*2 = Some maxActual) as ->.
  { apply mathMax_foldl.
    - destruct (codePoints_nonempty password Hne) as [char Hc].
      assert ((char, codePointOccurrences char password) ∈ charCount) as Hin
        by (apply countCodePoints_spec; auto).
      intros E. destruct charCount; [inversion Hin | discriminate].
    - intros x Hx. apply list_elem_of_fmap in Hx. destruct Hx as ([char v] & -> & Hin).
      apply countCodePoints_spec in Hin. destruct Hin as [_ ->].
      apply codePointOccurrences_nonneg. }
  auto.
Qed.

(** X27. [analyzeCharacterDiversity] on a password that is not empty:
    [totalUniqueCharacters] is the number of distinct code points,
    [maxRepetitions] the count of a most frequent one, and
    [repetitionScore] is between 0 and 100, losing 20 for each repetition
    over the allowed number; it is 100 exactly when
    [analyzeRepetitionPattern] reports no excessive repetition. *)
Theorem analyzeCharacterDiversity_counts (password : jsstring) :
  password <> [] ->
  let metrics := analyzeCharacterDiversity password in
  let allowed := calculateMaxAllowedRepetitions (Z.of_nat (length password)) in
  CharacterDiversityMetrics.totalUniqueCharacters metrics
  = Z.of_nat (length (remove_dups (codePoints password)))
  /\ exists m char,
       CharacterDiversityMetrics.maxRepetitions metrics = Some m
       /\ char ∈ codePoints password
       /\ m = codePointOccurrences char password
       /\ (forall char', codePointOccurrences char' password <= m)
       /\ CharacterDiversityMetrics.repetitionScore metrics
          = Z.max 0 (100 - Z.max 0 (m - allowed) * 20)
       /\ 0 <= CharacterDiversityMetrics.repetitionScore metrics <= 100
       /\ (CharacterDiversityMetrics.repetitionScore metrics = 100
           <-> RepetitionAnalysis.hasExcessiveRepetition
                 (analyzeRepetitionPattern password) = false).
Proof.
  intros Hne metrics allowed. subst metrics.
  destruct (analyzeCharacterDiversity_unfold password Hne) as (Hu & Hm & Hscore).
  cbv zeta in Hu, Hm, Hscore. fold allowed in Hscore.
  destruct (countCodePoints_spec password) as (Hnd & Hkeys & Hentries).
  destruct (maxActual_spec password) as [Hub Hreach]. cbv zeta in Hub, Hreach.
  set (maxActual := foldl Z.max 0 (countCodePoints password).*2) in *.
  split.
  { rewrite Hu. f_equal. rewrite <- (length_fmap fst).
    apply Permutation_length, NoDup_Permutation;
      [exact Hnd | apply NoDup_remove_dups|].
    intros char. rewrite Hkeys, elem_of_remove_dups. reflexivity. }
  destruct Hreach as [[_ E]|(char & Hc & E)]; [congruence|].
  exists maxActual, char. split; [exact Hm|]. split; [exact Hc|].
  split; [exact E|]. split; [exact Hub|].
  assert (CharacterDiversityMetrics.repetitionScore (analyzeCharacterDiversity password)
          = Z.max 0 (100 - Z.max 0 (maxActual - allowed) * 20)) as Hs.
  { rewrite Hscore. destruct (Z.leb_spec maxActual allowed); lia. }
  split; [exact Hs|]. split; [rewrite Hs; lia|].
  pose proof (analyzeRepetitionPattern_unfold password) as Hr. cbv zeta in Hr.
  rewrite Hr. cbn [RepetitionAnalysis.hasExcessiveRepetition]. fold allowed.
  rewrite Hs, Nat.ltb_ge. split.
  - intros H100.
    destruct (filter (fun entry => allowed < entry.2) (countCodePoints password))
      as [|[char' v] l] eqn:Ef; [simpl; lia|].
    exfalso.
    assert ((char', v) ∈ filter (fun entry => allowed < entry.2)
                                (countCodePoints password)) as Hin
      by (rewrite Ef; left).
    apply list_elem_of_filter in Hin. destruct Hin as [Hgt Hin].
    apply Hentries in Hin. destruct Hin as [_ ->]. simpl in Hgt.
    specialize (Hub char'). lia.
  - intros Hnone.
    destruct (Z.le_gt_cases maxActual allowed) as [|Hgt]; [lia|]. exfalso.
    assert ((char, maxActual) ∈ filter (fun entry => allowed < entry.2)
                                       (countCodePoints password)) as Hin.
    { apply list_elem_of_filter. split; [simpl; lia|]. apply Hentries. auto. }
    rewrite length_fmap in Hnone.
    destruct (filter _ (countCodePoints password)); [inversion Hin | simpl in Hnone; lia].
Qed.

Lemma analyzeCharacterDiversity_counts_witness :
  CharacterDiversityMetrics.totalUniqueCharacters (analyzeCharacterDiversity (lit "aabac"))
  = Z.of_nat (length (remove_dups (codePoints (lit "aabac")))).
Proof.
  apply (analyzeCharacterDiversity_counts (lit "aabac")). discriminate.
Defined.

(** X28. On a password that is not empty and has no surrogates, the
    analyzer's [analyzeCharacterDiversity] and the generator's
    [calculateCharacterDiversity] report the same number of distinct
    characters, the same maximum repetition, the same average and the same
    diversity ratio. *)
Theorem analyzeCharacterDiversity_agrees (password : jsstring) :
  password <> [] ->
  (forall c, c ∈ password -> isHighSurrogate c = false) ->
  let metrics := analyzeCharacterDiversity password in
  let diversity := calculateCharacterDiversity password in
  CharacterDiversityMetrics.totalUniqueCharacters metrics
  = CharacterDiversity.totalUniqueCharacters diversity
  /\ CharacterDiversityMetrics.maxRepetitions metrics
     = CharacterDiversity.maxRepetitions diversity
  /\ CharacterDiversityMetrics.averageRepetitions metrics
     = CharacterDiversity.averageRepetitions diversity
  /\ CharacterDiversityMetrics.diversityRatio metrics
     = CharacterDiversity.diversityRatio diversity.
Proof.
  intros Hne Hs metrics diversity. subst metrics diversity.
  unfold analyzeCharacterDiversity, calculateCharacterDiversity.
  destruct (decide (length password = 0%nat)) as [E|_];
    [destruct password; [congruence | discriminate]|].
  cbn [CharacterDiversityMetrics.totalUniqueCharacters
       CharacterDiversityMetrics.maxRepetitions
       CharacterDiversityMetrics.averageRepetitions
       CharacterDiversityMetrics.diversityRatio
       CharacterDiversity.totalUniqueCharacters CharacterDiversity.maxRepetitions
       CharacterDiversity.averageRepetitions CharacterDiversity.diversityRatio].
  auto.
Qed.

Lemma analyzeCharacterDiversity_agrees_witness :
  CharacterDiversityMetrics.maxRepetitions (analyzeCharacterDiversity (lit "aabac"))
  = CharacterDiversity.maxRepetitions (calculateCharacterDiversity (lit "aabac")).
Proof.
  apply (analyzeCharacterDiversity_agrees (lit "aabac")); [discriminate|].
  intros c Hc. vm_compute in Hc.
  repeat (apply elem_of_cons in Hc; destruct Hc as [->|Hc]); [..|inversion Hc];
    reflexivity.
Defined.

(** ** The two validations of the keywords *)

Lemma filter_keeps_all (keywords : list jsstring) :
  filter (fun input => (0 < length (trim input))%nat) keywords = keywords
  <-> forall keyword, keyword ∈ keywords -> trim keyword <> [].
Proof.
  split.
  - intros H keyword Hk E. rewrite <- H in Hk. apply list_elem_of_filter in Hk.
    destruct Hk as [Hp _]. rewrite E in Hp. cbn in Hp. lia.
  - intros H. induction keywords as [|x l IH]; [reflexivity|].
    rewrite filter_cons. rewrite decide_True.
    + f_equal. apply IH. intros keyword Hk. apply H. right. exact Hk.
    + specialize (H x ltac:(left)). destruct (trim x); [congruence|cbn; lia].
Qed.

(** X29. [InputValidator.validateKeywords] accepts exactly the keyword
    arrays that [HashGenerator.validateInputs] returns unchanged: where it
    accepts, the hash generator drops no keyword, and where it throws, the
    hash generator throws as well or drops a keyword without a word. *)
Theorem validateKeywords_iff_validateInputs_keeps (keywords : list jsstring) :
  validateKeywords keywords = Ok tt <-> validateInputs keywords = Ok keywords.
Proof.
  rewrite validateKeywords_Ok. unfold validateInputs.
  destruct keywords as [|k ks].
  - split; [intros [H _]; congruence | discriminate].
  - rewrite <- filter_keeps_all. split.
    + intros [_ H]. f_equal. exact H.
    + intros H. injection H as H. split; [discriminate | exact H].
Qed.

(** ** The compatibility checks *)

Section CompatibilityChecked.

Variable encode : jsstring -> list byte.
Variable digest : list byte -> list byte.

(** X30. [validateAlgorithmCompatibility] tests the three pinned vectors:
    the passed and the failed vectors add up to the tested ones,
    [isCompatible] says that all passed, a failed vector is one whose
    16-character hash prefix differs from the pinned one (no vector fails
    with an error), and [quickCompatibilityCheck] is true exactly when the
    first vector is not among the failed ones. *)
Theorem validateAlgorithmCompatibility_counts (userAgent nodeVersion : option jsstring)
    (clock : nat -> Z) (now : Z) :
  let result := validateAlgorithmCompatibility encode digest userAgent nodeVersion clock in
  CompatibilityResult.testedVectors result = 3
  /\ CompatibilityResult.passedVectors result
     + Z.of_nat (length (CompatibilityResult.failedVectors result))
     = CompatibilityResult.testedVectors result
  /\ (CompatibilityResult.isCompatible result = true
      <-> CompatibilityResult.passedVectors result
          = CompatibilityResult.testedVectors result)
  /\ (forall failed, failed ∈ CompatibilityResult.failedVectors result ->
        TestVectorResult.passed failed = false
        /\ TestVectorResult.error failed = None
        /\ TestVectorResult.actual failed <> TestVectorResult.expected failed
        /\ HashPrefix.actual (TestVectorResult.hashPrefix failed)
           = TestVectorResult.actual failed
        /\ 0 <= TestVectorResult.vectorIndex failed < 3)
  /\ (quickCompatibilityCheck encode digest now = true
      <-> forall failed, failed ∈ CompatibilityResult.failedVectors result ->
            TestVectorResult.vectorIndex failed <> 0).
Proof.
  intros result. subst result.
  unfold validateAlgorithmCompatibility, quickCompatibilityCheck.
  change (zip (seqZ 0 (Z.of_nat (length ALGORITHM_TEST_VECTORS))) ALGORITHM_TEST_VECTORS)
    with [(0, TestVector.Build
                (TestVectorInput.Build [lit "test"] 16 None None)
                (ExpectedOutput.Build (lit "Bu9]T_0Yi&p09.Hg") (lit "465e349bf20ac009")
                   (ExpectedDiversity.Build 14 2 0x1.cp-1%float))
                1704067200000);
          (1, TestVector.Build
                (TestVectorInput.Build [lit "github.com"; lit "user@email.com"] 16
                   None None)
                (ExpectedOutput.Build (lit "Vk!]XmK0G25<m3$p") (lit "0e593aaaaaac049e")
                   (ExpectedDiversity.Build 15 2 0x1.e04189374bc6ap-1%float))
                1704067200000);
          (2, TestVector.Build
                (TestVectorInput.Build [lit "diversity-test"] 32 None None)
                (ExpectedOutput.Build (lit "$Ueqo0MyJyMz6DyjMJd6;Gw62h]<9*h%")
                   (lit "461f4d98bee7922b")
                   (ExpectedDiversity.Build 24 3 0x1.8p-1%float))
                1704067200000)].
  unfold ALGORITHM_TEST_VECTORS.
  cbn [foldl]. unfold checkVector.
  cbn [TestVector.input TestVector.expectedOutput TestVectorInput.keywords
       TestVectorInput.masterSalt ExpectedOutput.hashPrefix
       SECURITY_CONFIG SecurityConfig.hashIterations].
  rewrite !generateHash_unfold.
  change (default 1000 (Some 1000)) with 1000. change (default 1000 None) with 1000.
  cbn [HashResult.hash].
  set (p0 := take 16 (hashLoop encode digest (Z.to_nat 1000) None
                        (normalizedKeywords [lit "test"]) 0
                        (normalizedKeywords [lit "test"]))).
  set (p1 := take 16 (hashLoop encode digest (Z.to_nat 1000) None
                        (normalizedKeywords [lit "github.com"; lit "user@email.com"]) 0
                        (normalizedKeywords [lit "github.com"; lit "user@email.com"]))).
  set (p2 := take 16 (hashLoop encode digest (Z.to_nat 1000) None
                        (normalizedKeywords [lit "diversity-test"]) 0
                        (normalizedKeywords [lit "diversity-test"]))).
  clearbody p0 p1 p2.
  cbn [app length CompatibilityResult.testedVectors CompatibilityResult.passedVectors
       CompatibilityResult.failedVectors CompatibilityResult.isCompatible].
  split; [reflexivity|].
  destruct (decide (p0 = lit "465e349bf20ac009")) as [E0|E0];
    destruct (decide (p1 = lit "0e593aaaaaac049e")) as [E1|E1];
    destruct (decide (p2 = lit "461f4d98bee7922b")) as [E2|E2];
    rewrite ?(bool_decide_eq_true_2 _ E0), ?(bool_decide_eq_false_2 _ E0),
      ?(bool_decide_eq_true_2 _ E1), ?(bool_decide_eq_false_2 _ E1),
      ?(bool_decide_eq_true_2 _ E2), ?(bool_decide_eq_false_2 _ E2);
    rewrite ?filter_cons, ?filter_nil; cbn [TestVectorResult.passed];
    repeat (rewrite decide_True by reflexivity || rewrite decide_False by discriminate);
    (split; [reflexivity|]);
    (split; [split; [intros H; first [discriminate H | reflexivity]
                    | intros H; first [discriminate H | reflexivity]]|]);
    (split;
     [ intros failed Hin;
       repeat (apply elem_of_cons in Hin; destruct Hin as [->|Hin]);
       try (inversion Hin; fail);
       cbn; (repeat split; try reflexivity; try lia; assumption)
     | split;
       [ intros H failed Hin;
         repeat (apply elem_of_cons in Hin; destruct Hin as [->|Hin]);
         try (inversion Hin; fail); cbn; first [discriminate H | lia]
       | intros H; first [reflexivity | exfalso; eapply H; [left|reflexivity]] ] ]).
Qed.

End CompatibilityChecked.
